(** * DiscordFix: the multi-bot dispatch core, embedded and verified

    A shallow embedding of the rate limiters ([src/shared/rate_limiter.py]),
    the member-to-bot assignment store ([src/shared/member_assignment.py]),
    the bot worker ([src/worker/bot_worker.py]), the campaign controller
    ([src/controller/campaign_controller.py]), the bots the manager offers
    to a campaign ([src/controller/bot_manager.py]) and the sizing helper of
    [src/shared/utils.py].

    Conventions of the embedding.
    - Wall-clock values ([time.time()], [datetime.utcnow()]) are integers
      counting milliseconds; float rounding is not modelled. The clock
      moves only in [asyncio.sleep] and between two calls, not between two
      statements of one coroutine.
    - A coroutine is a state transformer that may return, raise, or never
      resume ([Hang]: it waits on an [asyncio.Lock] nobody will release).
    - Every suspension on the record store consumes one entry of an oracle
      carried by the world; the entry decides whether the call proceeds,
      raises before or after its effect, or whether the task is cancelled
      at that suspension, with the call dropped or already applied by the
      driver's thread. *)

From Stdlib Require Import ZArith Lia String Ascii.
From stdpp Require Import gmap strings list sorting pretty.

Local Open Scope string_scope.
Local Open Scope list_scope.
Local Open Scope Z_scope.

(** ** Outcomes of a coroutine *)

Inductive exn : Type :=
  | IndexError
  | ValueError
  | ZeroDivisionError
  | RuntimeError        (* database.py: "Not connected to database" *)
  | PyMongoError        (* a store operation failed *)
  | DuplicateKeyError   (* a unique index rejected a write *)
  | WorkerUnavailable   (* Exception("Bot worker ... not available") *)
  | DiscordError        (* an exception of the chat client *)
  | CancelledError.     (* asyncio.CancelledError, a BaseException *)

(** [except Exception] catches everything but [asyncio.CancelledError]. *)
Definition is_Exception (e : exn) : bool :=
  match e with CancelledError => false | _ => true end.

Inductive res (A : Type) : Type :=
  | Ok (a : A)
  | Exc (e : exn)
  | Hang.
Arguments Ok {A} a.
Arguments Exc {A} e.
Arguments Hang {A}.

Definition M (W A : Type) : Type := W -> res A * W.

Definition ret {W A} (a : A) : M W A := fun w => (Ok a, w).
Definition raise {W A} (e : exn) : M W A := fun w => (Exc e, w).
Definition bind {W A B} (m : M W A) (k : A -> M W B) : M W B :=
  fun w => match m w with
           | (Ok a, w') => k a w'
           | (Exc e, w') => (Exc e, w')
           | (Hang, w') => (Hang, w')
           end.
Definition gets {W A} (f : W -> A) : M W A := fun w => (Ok (f w), w).
Definition modify {W} (f : W -> W) : M W unit := fun w => (Ok tt, f w).

(** [try: body except Exception as e: handler]. *)
Definition try_except {W A} (body : M W A) (handler : exn -> M W A) : M W A :=
  fun w => match body w with
           | (Exc e, w') => if is_Exception e then handler e w' else (Exc e, w')
           | r => r
           end.

(** [try: body except asyncio.CancelledError: handler]. *)
Definition try_cancelled {W A} (body : M W A) (handler : M W A) : M W A :=
  fun w => match body w with
           | (Exc CancelledError, w') => handler w'
           | r => r
           end.

(** The coroutine monad is used through stdpp's [x ← m; k] and [m ;; k]. *)
#[global] Instance M_ret {W} : MRet (M W) := fun A a => ret a.
#[global] Instance M_bind {W} : MBind (M W) := fun A B k m => bind m k.

(** ** Python string and integer helpers *)

Module PyStr.

(** [s.split(sep)] for a one-character separator: the first piece and the
    pieces after it, so the result is never empty. *)
Fixpoint split_on (sep : ascii) (s : string) : string * list string :=
  match s with
  | EmptyString => (EmptyString, [])
  | String a s' =>
      let '(h, t) := split_on sep s' in
      if Ascii.eqb a sep then (EmptyString, h :: t) else (String a h, t)
  end.

Definition split (sep : ascii) (s : string) : list string :=
  let '(h, t) := split_on sep s in h :: t.

(** [sub in s]. *)
Fixpoint contains (sub s : string) : bool :=
  String.prefix sub s ||
  match s with
  | EmptyString => false
  | String _ s' => contains sub s'
  end.

(** [s.startswith(p)]. *)
Definition startswith (s p : string) : bool := String.prefix p s.

(** [xs[i]], raising [IndexError] out of range. *)
Definition index {A} (xs : list A) (i : nat) : exn + A :=
  match xs !! i with
  | Some x => inr x
  | None => inl IndexError
  end.

(** [int(s)] for a [str] of ASCII characters: blanks around, an optional
    sign, then decimal digits, single underscores allowed between two
    digits; at most [int_max_str_digits] digits. *)
Definition is_space (a : ascii) : bool :=
  let n := nat_of_ascii a in
  ((9 <=? n) && (n <=? 13) || (n =? 32))%nat.

Definition digit_value (a : ascii) : option Z :=
  let n := nat_of_ascii a in
  if ((48 <=? n) && (n <=? 57))%nat then Some (Z.of_nat n - 48) else None.

Fixpoint lstrip (l : list ascii) : list ascii :=
  match l with
  | a :: l' => if is_space a then lstrip l' else l
  | [] => []
  end.

Definition strip (l : list ascii) : list ascii := rev (lstrip (rev (lstrip l))).

(** The digits of a literal: how many there are, and their value. *)
Fixpoint digits (l : list ascii) (after_digit : bool) (count : nat) (acc : Z)
  : option (nat * Z) :=
  match l with
  | [] => if after_digit then Some (count, acc) else None
  | a :: l' =>
      match digit_value a with
      | Some v => digits l' true (S count) (10 * acc + v)
      | None =>
          if Ascii.eqb a "_" && after_digit then digits l' false count acc else None
      end
  end.

(** The default of [sys.set_int_max_str_digits]. *)
Definition int_max_str_digits : nat := 4300.

Definition int (s : string) : exn + Z :=
  let l := strip (list_ascii_of_string s) in
  let '(sign, l) :=
    match l with
    | a :: l' => if Ascii.eqb a "-" then (-1, l')
                 else if Ascii.eqb a "+" then (1, l') else (1, l)
    | [] => (1, l)
    end in
  match digits l false 0 0 with
  | Some (count, v) =>
      if (int_max_str_digits <? count)%nat then inl ValueError else inr (sign * v)
  | None => inl ValueError
  end.

End PyStr.

(** ** rate_limiter.py *)

Module RateLimiter.

(** One minute on the millisecond clock ([60.0] in the source). *)
Definition minute : Z := 60000.

(** The event loop as the limiters see it: the clock read by [time.time()]
    and the arguments of every [asyncio.sleep] call made so far. *)
Record Loop : Type := mkLoop {
  now : Z;
  slept : list Z
}.

(** [await asyncio.sleep(d)]: the clock moves on by [d]; a non-positive
    delay returns at once. *)
Definition sleep (d : Z) (l : Loop) : Loop :=
  {| now := now l + Z.max 0 d; slept := slept l ++ [d] |}.

(** Time passing between two calls. *)
Definition elapse (d : Z) (l : Loop) : Loop :=
  {| now := now l + d; slept := slept l |}.

Record RateLimitBucket : Type := mkBucket {
  remaining : Z;
  limit : Z;
  reset_after : Z;
  reset_timestamp : Z;
  retry_after : option Z
}.

(** The dataclass defaults. *)
Definition new_bucket : RateLimitBucket :=
  {| remaining := 0; limit := 1; reset_after := 0; reset_timestamp := 0;
     retry_after := None |}.

(** [self.retry_after and current_time < self.retry_after]: [None] and [0.0]
    are falsy. *)
Definition retry_pending (current_time : Z) (b : RateLimitBucket) : bool :=
  match retry_after b with
  | Some r => negb (r =? 0) && (current_time <? r)
  | None => false
  end.

Definition is_rate_limited (current_time : Z) (b : RateLimitBucket) : bool :=
  if retry_pending current_time b then true
  else if (remaining b <=? 0) && (current_time <? reset_timestamp b) then true
  else false.

Definition time_until_reset (current_time : Z) (b : RateLimitBucket) : Z :=
  match retry_after b with
  | Some r =>
      if negb (r =? 0) && (current_time <? r) then r - current_time
      else if current_time <? reset_timestamp b
           then reset_timestamp b - current_time else 0
  | None =>
      if current_time <? reset_timestamp b
      then reset_timestamp b - current_time else 0
  end.

Record DiscordRateLimiter : Type := mkLimiter {
  bot_id : string;
  buckets : gmap string RateLimitBucket;
  (* self.locks: one asyncio.Lock per bucket key; [true] = currently held *)
  locks : gmap string bool;
  global_rate_limit : option Z
}.

Definition new_limiter (bot : string) : DiscordRateLimiter :=
  {| bot_id := bot; buckets := ∅; locks := ∅; global_rate_limit := None |}.

Definition _get_bucket_key (method endpoint : string) (guild_id : option string)
  : exn + string :=
  if PyStr.startswith endpoint "/channels/" then
    if PyStr.contains "/messages" endpoint then
      match PyStr.index (PyStr.split "/" endpoint) 2 with
      | inr part => inr ("channel_messages:" +:+ part)
      | inl e => inl e
      end
    else
      match PyStr.index (PyStr.split "/" endpoint) 2 with
      | inr part => inr ("channel:" +:+ part)
      | inl e => inl e
      end
  else if PyStr.startswith endpoint "/guilds/" then
    match PyStr.index (PyStr.split "/" endpoint) 2 with
    | inr guild =>
        if PyStr.contains "/members" endpoint
        then inr ("guild_members:" +:+ guild)
        else inr ("guild:" +:+ guild)
    | inl e => inl e
    end
  else if PyStr.contains "/users/" endpoint && PyStr.contains "/channels" endpoint then
    inr "dm_channels"
  else inr (method +:+ ":" +:+ endpoint).

(** The [if self.global_rate_limit and time.time() < ...] block. *)
Definition wait_for_global (l : Loop) (g : option Z) : Loop * option Z :=
  match g with
  | Some t =>
      if negb (t =? 0) && (now l <? t)
      then (sleep (t - now l) l, None)
      else (l, g)
  | None => (l, g)
  end.

(** The [if bucket.is_rate_limited()] block: sleep, then refill the bucket. *)
Definition refill (b : RateLimitBucket) : RateLimitBucket :=
  {| remaining := limit b; limit := limit b; reset_after := reset_after b;
     reset_timestamp := reset_timestamp b; retry_after := None |}.

Definition wait_for_bucket (l : Loop) (b : RateLimitBucket)
  : Loop * RateLimitBucket :=
  if is_rate_limited (now l) b
  then (sleep (time_until_reset (now l) b) l, refill b)
  else (l, b).

(** [if bucket.remaining > 0: bucket.remaining -= 1]. *)
Definition consume (b : RateLimitBucket) : RateLimitBucket :=
  if 0 <? remaining b
  then {| remaining := remaining b - 1; limit := limit b;
          reset_after := reset_after b; reset_timestamp := reset_timestamp b;
          retry_after := retry_after b |}
  else b.

Definition acquire (method endpoint : string) (guild_id : option string)
  : M (Loop * DiscordRateLimiter) bool :=
  fun '(l, rl) =>
    match _get_bucket_key method endpoint guild_id with
    | inl e => (Exc e, (l, rl))
    | inr bucket_key =>
        let locks1 :=
          match locks rl !! bucket_key with
          | Some _ => locks rl
          | None => <[bucket_key := false]> (locks rl)
          end in
        match locks1 !! bucket_key with
        | Some true =>
            (* async with on a lock that is held: wait for its release *)
            (Hang, (l, mkLimiter (bot_id rl) (buckets rl) locks1 (global_rate_limit rl)))
        | _ =>
            let '(l1, g1) := wait_for_global l (global_rate_limit rl) in
            let buckets1 :=
              match buckets rl !! bucket_key with
              | Some _ => buckets rl
              | None => <[bucket_key := new_bucket]> (buckets rl)
              end in
            let bucket := default new_bucket (buckets1 !! bucket_key) in
            let '(l2, bucket2) := wait_for_bucket l1 bucket in
            let bucket3 := consume bucket2 in
            (Ok true,
             (l2, mkLimiter (bot_id rl) (<[bucket_key := bucket3]> buckets1)
                            locks1 g1))
        end
    end.

(** Consecutive calls for one endpoint; [d] milliseconds pass before each. *)
Fixpoint acquire_each (delays : list Z) (method endpoint : string)
    (guild_id : option string) (s : Loop * DiscordRateLimiter)
  : res bool * (Loop * DiscordRateLimiter) :=
  match delays with
  | [] => (Ok true, s)
  | d :: ds =>
      match acquire method endpoint guild_id (elapse d (fst s), snd s) with
      | (Ok _, s') => acquire_each ds method endpoint guild_id s'
      | r => r
      end
  end.

(** Response headers, with [int(...)] and [float(...)] already applied:
    counts as integers, durations in milliseconds; [None] = header absent. *)
Record Headers : Type := mkHeaders {
  x_ratelimit_remaining : option Z;
  x_ratelimit_limit : option Z;
  x_ratelimit_reset_after : option Z;
  header_retry_after : option Z;
  x_ratelimit_global : bool
}.

Definition update_from_headers (current_time : Z) (h : Headers)
    (b : RateLimitBucket) : RateLimitBucket :=
  let remaining1 := default (remaining b) (x_ratelimit_remaining h) in
  let limit1 := default (limit b) (x_ratelimit_limit h) in
  let reset_after1 := default (reset_after b) (x_ratelimit_reset_after h) in
  let reset_timestamp1 :=
    match x_ratelimit_reset_after h with
    | Some d => current_time + d
    | None => reset_timestamp b
    end in
  let retry_after1 :=
    match header_retry_after h with
    | Some d => Some (current_time + d)
    | None => retry_after b
    end in
  mkBucket remaining1 limit1 reset_after1 reset_timestamp1 retry_after1.

Definition update_rate_limits (method endpoint : string) (h : Headers)
    (status_code : Z) (current_time : Z) (rl : DiscordRateLimiter)
  : exn + DiscordRateLimiter :=
  match _get_bucket_key method endpoint None with
  | inl e => inl e
  | inr bucket_key =>
      if status_code =? 429 then
        if x_ratelimit_global h then
          let retry := default 1000 (header_retry_after h) in
          inr (mkLimiter (bot_id rl) (buckets rl) (locks rl)
                         (Some (current_time + retry)))
        else
          let b := default new_bucket (buckets rl !! bucket_key) in
          inr (mkLimiter (bot_id rl)
                 (<[bucket_key := update_from_headers current_time h b]> (buckets rl))
                 (locks rl) (global_rate_limit rl))
      else
        match buckets rl !! bucket_key with
        | Some b =>
            inr (mkLimiter (bot_id rl)
                   (<[bucket_key := update_from_headers current_time h b]> (buckets rl))
                   (locks rl) (global_rate_limit rl))
        | None => inr rl
        end
  end.

(** *** CampaignRateLimiter *)

Record CampaignRateLimiter : Type := mkPacer {
  messages_per_minute : Z;
  message_times : list Z;
  (* self.lock, an asyncio.Lock: [true] = held *)
  lock : bool
}.

Definition new_pacer (mpm : Z) : CampaignRateLimiter :=
  {| messages_per_minute := mpm; message_times := []; lock := false |}.

(** [min(xs)], raising [ValueError] on the empty list. *)
Definition py_min (xs : list Z) : exn + Z :=
  match xs with
  | [] => inl ValueError
  | x :: xs' => inr (foldl Z.min x xs')
  end.

(** [CampaignRateLimiter.acquire]. The recursion of the source is bounded by
    [fuel]; [None] means the bound was reached. The recursive call is made
    inside [async with self.lock], so it finds the lock held. Times are whole
    milliseconds and the arithmetic on them is exact; the source computes
    [wait_time] in floats, where a positive wait can round to [0.0] and the
    call then records its time without waiting. *)
Fixpoint pacer_acquire (fuel : nat) (s : Loop * CampaignRateLimiter)
  : option (res bool * (Loop * CampaignRateLimiter)) :=
  match fuel with
  | O => None
  | S fuel' =>
      let '(l, p) := s in
      if lock p then Some (Hang, s)
      else
        let current_time := now l in
        let cutoff_time := current_time - minute in
        let times := filter (fun t => cutoff_time < t) (message_times p) in
        let held := mkPacer (messages_per_minute p) times true in
        let record_and_leave (l' : Loop) :=
          Some (Ok true,
                (l', mkPacer (messages_per_minute p) (times ++ [current_time]) false)) in
        if Z.of_nat (length times) >=? messages_per_minute p then
          match py_min times with
          | inl e => Some (Exc e, (l, mkPacer (messages_per_minute p) times false))
          | inr oldest_message_time =>
              let wait_time := minute - (current_time - oldest_message_time) in
              if 0 <? wait_time then
                match pacer_acquire fuel' (sleep wait_time l, held) with
                | None => None
                | Some (Hang, s') => Some (Hang, s')
                | Some (r, (l', p')) =>
                    (* leaving the [async with] block releases the lock *)
                    Some (r, (l', mkPacer (messages_per_minute p')
                                          (message_times p') false))
                end
              else record_and_leave l
          end
        else record_and_leave l
  end.

(** [n] calls in a row, each awaited before the next is issued. *)
Fixpoint pacer_acquire_n (fuel n : nat) (s : Loop * CampaignRateLimiter)
  : option (res bool * (Loop * CampaignRateLimiter)) :=
  match n with
  | O => Some (Ok true, s)
  | S n' =>
      match pacer_acquire fuel s with
      | Some (Ok _, s') => pacer_acquire_n fuel n' s'
      | r => r
      end
  end.

Definition update_pace (new_messages_per_minute : Z) (p : CampaignRateLimiter)
  : CampaignRateLimiter :=
  mkPacer new_messages_per_minute (message_times p) (lock p).

End RateLimiter.

(** ** The record store and its suspensions *)

(** What happens at one suspension of a coroutine on the store. *)
Inductive event : Type :=
  | Proceed      (* the call runs normally *)
  | FailBefore   (* the call raises and has no effect *)
  | FailAfter    (* the store applies the call, the driver raises anyway *)
  | Cancel       (* the task is cancelled while suspended here; a call
                    still waiting for a driver thread is dropped *)
  | CancelAfter. (* the task is cancelled while suspended here; the call
                    was already handed to a driver thread, which applies it *)

(** Worlds that carry the oracle of future events, the trace of consumed
    ones, and the connection flag of [database.py]'s [DatabaseManager]. *)
Class Suspendable (W : Type) : Type := {
  connected : W -> bool;
  oracle : W -> list event;
  trace : W -> list event;
  consume_event : W -> W   (* drop the head of the oracle, log it in the trace *)
}.

Definition head_event (es : list event) : event :=
  match es with
  | [] => Proceed
  | e :: _ => e
  end.

(** The event is a cancellation of the task. *)
Definition cancels (e : event) : bool :=
  match e with
  | Cancel | CancelAfter => true
  | _ => false
  end.

(** No cancellation of the running task is pending. *)
Definition never_cancelled (es : list event) : Prop :=
  (Cancel ∉ es) ∧ (CancelAfter ∉ es).

Section Store.
Context {W : Type} `{Suspendable W}.

(** [DatabaseManager.get_collection]: raises unless connected. *)
Definition get_collection : M W unit :=
  fun w => if connected w then (Ok tt, w) else (Exc RuntimeError, w).

(** One awaited store operation whose effect is [op]. *)
Definition store_call {A} (op : M W A) : M W A :=
  fun w =>
    let w1 := consume_event w in
    match head_event (oracle w) with
    | Proceed => op w1
    | FailBefore => (Exc PyMongoError, w1)
    | FailAfter => (Exc PyMongoError, snd (op w1))
    | Cancel => (Exc CancelledError, w1)
    | CancelAfter => (Exc CancelledError, snd (op w1))
    end.
End Store.

(** ** member_assignment.py *)

Module Assignment.

(** An entry of [available_bots], as built by
    [BotManager.get_available_bots_for_guild]. *)
Record Bot : Type := mkBot {
  bot_id : string;
  name : string;
  queue_size : nat
}.

Record MemberBotAssignment : Type := mkAssignment {
  guild_id : string;
  user_id : string;
  assigned_bot_id : string;
  assigned_at : Z;
  last_dm_at : option Z;
  total_dms_sent : Z;
  assignment_reason : string;
  fallback_bot_ids : list string;
  is_active : bool;
  updated_at : Z
}.

(** The collection [member_bot_assignments]. Documents are never deleted, so
    a document's [_id] is its position in the list. [unique_index] tells
    whether [create_indexes] built the unique compound index on
    [(guild_id, user_id, is_active)] declared in [INDEXES]. *)
Record World : Type := mkWorld {
  db_connected : bool;
  unique_index : bool;
  assignments : list MemberBotAssignment;
  utcnow : Z;
  random : list nat;        (* the draws [random] will make *)
  events : list event;
  history : list event;
  errors : list string      (* lines written with logger.error *)
}.

Definition set_assignments (rows : list MemberBotAssignment) (w : World) : World :=
  mkWorld (db_connected w) (unique_index w) rows (utcnow w) (random w)
          (events w) (history w) (errors w).

#[global] Instance assignment_world_suspendable : Suspendable World := {|
  connected := db_connected;
  oracle := events;
  trace := history;
  consume_event := fun w =>
    mkWorld (db_connected w) (unique_index w) (assignments w) (utcnow w)
            (random w) (tail (events w)) (history w ++ [head_event (events w)])
            (errors w)
|}.

Definition log_error (line : string) : M World unit :=
  modify (fun w =>
    mkWorld (db_connected w) (unique_index w) (assignments w) (utcnow w)
            (random w) (events w) (history w) (errors w ++ [line])).

(** [random.randrange(n)]: the next draw, reduced below [n]. *)
Definition randbelow (n : nat) : M World nat :=
  fun w =>
    let w' := mkWorld (db_connected w) (unique_index w) (assignments w) (utcnow w)
                      (tail (random w)) (events w) (history w) (errors w) in
    (Ok (default 0%nat (head (random w)) `mod` n)%nat, w').

Definition swap {A} (x : list A) (i j : nat) : list A :=
  match x !! i, x !! j with
  | Some a, Some b => <[i := b]> (<[j := a]> x)
  | _, _ => x
  end.

(** [random.shuffle]: for i from len-1 down to 1, swap x[i] with x[j],
    j drawn below i+1. *)
Fixpoint shuffle_from {A} (i : nat) (x : list A) : M World (list A) :=
  match i with
  | O => mret x
  | S i' => j ← randbelow (S i); shuffle_from i' (swap x i j)
  end.

Definition shuffle {A} (x : list A) : M World (list A) :=
  shuffle_from (length x - 1)%nat x.

(** [random.choice]. *)
Definition choice {A} (xs : list A) : M World A :=
  match xs with
  | [] => raise IndexError
  | _ => i ← randbelow (length xs);
         match xs !! i with
         | Some x => mret x
         | None => raise IndexError
         end
  end.

(** *** Store operations on the collection *)

(** Two documents collide on the unique index when they agree on
    [(guild_id, user_id, is_active)]. *)
Definition same_key (a b : MemberBotAssignment) : bool :=
  String.eqb (guild_id a) (guild_id b) && String.eqb (user_id a) (user_id b)
  && Bool.eqb (is_active a) (is_active b).

Definition rejected (uniq : bool) (old new : MemberBotAssignment)
    (others : list MemberBotAssignment) : bool :=
  uniq && negb (same_key old new) && existsb (same_key new) others.

(** [find_one(filter)]: the first matching document with its [_id]. *)
Definition find_one (P : MemberBotAssignment -> bool)
  : M World (option (nat * MemberBotAssignment)) :=
  store_call (gets (fun w => list_find (fun a => P a = true) (assignments w))).

Definition count_documents (P : MemberBotAssignment -> bool) : M World nat :=
  store_call (gets (fun w => length (filter (fun a => P a = true) (assignments w)))).

(** [update_one({'_id': id}, update)]. *)
Definition update_one (id : nat) (f : MemberBotAssignment -> MemberBotAssignment)
  : M World unit :=
  store_call (fun w =>
    match assignments w !! id with
    | None => (Ok tt, w)
    | Some a =>
        if rejected (unique_index w) a (f a) (delete id (assignments w))
        then (Exc DuplicateKeyError, w)
        else (Ok tt, set_assignments (<[id := f a]> (assignments w)) w)
    end).

#[global] Instance assignment_eq_dec : EqDecision MemberBotAssignment.
Proof. solve_decision. Defined.

(** [update_many(filter, update)]: documents are rewritten one after the
    other; a write the unique index rejects stops the command and leaves the
    earlier writes in place. Returns [modified_count], the number of
    documents that the update changed. *)
Fixpoint update_many_loop (uniq : bool) (P : MemberBotAssignment -> bool)
    (f : MemberBotAssignment -> MemberBotAssignment)
    (done todo : list MemberBotAssignment) (n : nat)
  : res nat * list MemberBotAssignment :=
  match todo with
  | [] => (Ok n, done)
  | a :: todo' =>
      if P a then
        if rejected uniq a (f a) (done ++ todo')
        then (Exc DuplicateKeyError, done ++ todo)
        else update_many_loop uniq P f (done ++ [f a]) todo'
               (if decide (f a = a) then n else S n)
      else update_many_loop uniq P f (done ++ [a]) todo' n
  end.

Definition update_many (P : MemberBotAssignment -> bool)
    (f : MemberBotAssignment -> MemberBotAssignment) : M World nat :=
  store_call (fun w =>
    let '(r, rows) := update_many_loop (unique_index w) P f [] (assignments w) 0 in
    (r, set_assignments rows w)).

Definition insert_one (a : MemberBotAssignment) : M World unit :=
  store_call (fun w =>
    if unique_index w && existsb (same_key a) (assignments w)
    then (Exc DuplicateKeyError, w)
    else (Ok tt, set_assignments (assignments w ++ [a]) w)).

(** *** Filters and updates written in the source *)

(** [{'guild_id': g, 'user_id': u, 'is_active': True}] *)
Definition active_for (g u : string) (a : MemberBotAssignment) : bool :=
  String.eqb (guild_id a) g && String.eqb (user_id a) u && is_active a.

(** [{'guild_id': g, 'user_id': u}] *)
Definition rows_of (g u : string) (a : MemberBotAssignment) : bool :=
  String.eqb (guild_id a) g && String.eqb (user_id a) u.

(** [{'guild_id': g, 'assigned_bot_id': b, 'is_active': True}] *)
Definition active_on_bot (g b : string) (a : MemberBotAssignment) : bool :=
  String.eqb (guild_id a) g && String.eqb (assigned_bot_id a) b && is_active a.

(** [{'$set': {'last_dm_at': now, 'updated_at': now}}] *)
Definition touch (t : Z) (a : MemberBotAssignment) : MemberBotAssignment :=
  mkAssignment (guild_id a) (user_id a) (assigned_bot_id a) (assigned_at a)
    (Some t) (total_dms_sent a) (assignment_reason a) (fallback_bot_ids a)
    (is_active a) t.

(** [{'$set': {'assigned_bot_id': fb, 'last_dm_at': now, 'updated_at': now,
    'assignment_reason': 'fallback_used'}, '$inc': {'total_dms_sent': 1}}] *)
Definition use_fallback (fb : string) (t : Z) (a : MemberBotAssignment)
  : MemberBotAssignment :=
  mkAssignment (guild_id a) (user_id a) fb (assigned_at a)
    (Some t) (total_dms_sent a + 1) "fallback_used" (fallback_bot_ids a)
    (is_active a) t.

(** [{'$set': {'is_active': False}}] *)
Definition deactivate (a : MemberBotAssignment) : MemberBotAssignment :=
  mkAssignment (guild_id a) (user_id a) (assigned_bot_id a) (assigned_at a)
    (last_dm_at a) (total_dms_sent a) (assignment_reason a) (fallback_bot_ids a)
    false (updated_at a).

(** [{'$set': {'is_active': False, 'updated_at': now}}] *)
Definition deactivate_at (t : Z) (a : MemberBotAssignment) : MemberBotAssignment :=
  mkAssignment (guild_id a) (user_id a) (assigned_bot_id a) (assigned_at a)
    (last_dm_at a) (total_dms_sent a) (assignment_reason a) (fallback_bot_ids a)
    false t.

(** [{'$set': {'assigned_bot_id': new, 'assignment_reason':
    'bot_failure_reassignment', 'updated_at': now}}] *)
Definition move_to (new : string) (t : Z) (a : MemberBotAssignment)
  : MemberBotAssignment :=
  mkAssignment (guild_id a) (user_id a) new (assigned_at a)
    (last_dm_at a) (total_dms_sent a) "bot_failure_reassignment"
    (fallback_bot_ids a) (is_active a) t.

(** [any(bot['bot_id'] == b for bot in available_bots)] *)
Definition is_available (available_bots : list Bot) (b : string) : bool :=
  existsb (fun bot => String.eqb (bot_id bot) b) available_bots.

(** [min(xs, key=key)]: the first element whose key is minimal. *)
Fixpoint min_from {A} (key : A -> nat) (best : A) (xs : list A) : A :=
  match xs with
  | [] => best
  | x :: xs' => if (key x <? key best)%nat then min_from key x xs'
                else min_from key best xs'
  end.

(** The loop filling [bot_assignment_counts]. *)
Fixpoint count_assignments (g : string) (bots : list Bot) (counts : gmap string nat)
  : M World (gmap string nat) :=
  match bots with
  | [] => mret counts
  | bot :: bots' =>
      count ← count_documents (active_on_bot g (bot_id bot));
      count_assignments g bots' (<[bot_id bot := count]> counts)
  end.

Definition _create_new_assignment (g u : string) (available_bots : list Bot)
  : M World (option string) :=
  match available_bots with
  | [] => mret None
  | first :: others =>
      try_except
        (get_collection ;;
         bot_assignment_counts ← count_assignments g available_bots ∅;
         let selected_bot :=
           min_from (fun bot => default 0%nat (bot_assignment_counts !! bot_id bot))
                    first others in
         let selected_bot_id := bot_id selected_bot in
         fallback_bots ← shuffle
           (filter (fun b => b ≠ selected_bot_id) (map bot_id available_bots));
         t ← gets utcnow;
         let assignment :=
           mkAssignment g u selected_bot_id t (Some t) 1 "new_assignment"
                        (take 3 fallback_bots) true t in
         update_many (rows_of g u) deactivate ;;
         insert_one assignment ;;
         mret (Some selected_bot_id))
        (fun _ =>
           log_error "Error creating new assignment" ;;
           bot ← choice available_bots;
           mret (Some (bot_id bot)))
  end.

Definition get_or_create_assignment (g u : string) (available_bots : list Bot)
  : M World (option string) :=
  try_except
    (get_collection ;;
     existing_assignment ← find_one (active_for g u);
     found ←
       match existing_assignment with
       | Some (id, a) =>
           let assigned := assigned_bot_id a in
           if is_available available_bots assigned then
             t ← gets utcnow;
             update_one id (touch t) ;;
             mret (Some assigned)
           else
             (* the for loop returns at the first fallback that is available *)
             match find (is_available available_bots) (fallback_bot_ids a) with
             | Some fallback_bot_id =>
                 t ← gets utcnow;
                 update_one id (use_fallback fallback_bot_id t) ;;
                 mret (Some fallback_bot_id)
             | None => mret None
             end
       | None => mret None
       end;
     match found with
     | Some b => mret (Some b)
     | None => _create_new_assignment g u available_bots
     end)
    (fun _ =>
       log_error "Error in get_or_create_assignment" ;;
       mret (match available_bots with
             | bot :: _ => Some (bot_id bot)
             | [] => None
             end)).

Definition _deactivate_member_assignment (g u : string) : M World unit :=
  try_except
    (get_collection ;;
     t ← gets utcnow;
     update_many (rows_of g u) (deactivate_at t) ;;
     mret tt)
    (fun _ => log_error "Could not deactivate assignment").

Definition reassign_bot_members (old_bot_id new_bot_id g : string) : M World nat :=
  try_except
    (get_collection ;;
     t ← gets utcnow;
     modified_count ← update_many (active_on_bot g old_bot_id) (move_to new_bot_id t);
     mret modified_count)
    (fun _ => log_error "Error reassigning bot members" ;; mret 0%nat).

(** *** Sequences of operations *)

Inductive op : Type :=
  | Resolve (g u : string) (available_bots : list Bot)
  | Reassign (old_bot_id new_bot_id g : string)
  | MemberLeft (g u : string).

Definition run_op (o : op) (w : World) : World :=
  match o with
  | Resolve g u bots => snd (get_or_create_assignment g u bots w)
  | Reassign old new g => snd (reassign_bot_members old new g w)
  | MemberLeft g u => snd (_deactivate_member_assignment g u w)
  end.

(** One step of the store's life: the surroundings (clock, connection,
    pending events, random draws) may have changed in any way since the last
    operation, the documents have not; then one operation runs to its end. *)
Definition step (w w' : World) : Prop :=
  ∃ w1 o, assignments w1 = assignments w ∧ w' = run_op o w1.

(** Documents of [(g, u)] flagged active. *)
Definition active_rows (g u : string) (rows : list MemberBotAssignment)
  : list MemberBotAssignment :=
  filter (fun a => active_for g u a = true) rows.

Definition at_most_one_active (rows : list MemberBotAssignment) : Prop :=
  ∀ g u, (length (active_rows g u rows) ≤ 1)%nat.

End Assignment.

(** ** mongodb_schema.py: the enumerations *)

Module CampaignMode.
Inductive t : Type := INSTANT | PACED | SCHEDULED.
#[global] Instance mode_eq_dec : EqDecision t.
Proof. solve_decision. Defined.
End CampaignMode.

Module CampaignStatus.
Inductive t : Type := PENDING | RUNNING | PAUSED | COMPLETED | CANCELLED.
#[global] Instance campaign_status_eq_dec : EqDecision t.
Proof. solve_decision. Defined.
End CampaignStatus.

Module TargetStatus.
Inductive t : Type := PENDING | SENT | FAILED | SKIPPED.
#[global] Instance target_status_eq_dec : EqDecision t.
Proof. solve_decision. Defined.
End TargetStatus.

Module SendStatus.
Inductive t : Type := SUCCESS | FAILED | RATE_LIMITED.
#[global] Instance send_status_eq_dec : EqDecision t.
Proof. solve_decision. Defined.
End SendStatus.

(** ** bot_worker.py and campaign_controller.py *)

Module Dispatch.

Record Campaign : Type := mkCampaign {
  id : option string;          (* the [id] field of the document, not its [_id] *)
  guild_id : string;
  name : string;
  message_content : string;
  embed_data : option string;
  mode : CampaignMode.t;
  pace : Z;
  start_at : option Z;
  status : CampaignStatus.t;
  total_targets : Z;
  completed_targets : Z;
  failed_targets : Z;
  updated_at : Z
}.

(** A text kept as [error_message] or [last_error]: a literal of the source, or the
    [str(e)] of the exception that was caught. *)
Inductive ErrorText : Type :=
  | Text (s : string)             (* a literal, or the text an exception of
                                     the platform came with *)
  | InvalidLiteral (s : string)   (* of the [ValueError] that [int(s)] raises *)
  | StrOf (e : exn).              (* of an exception of this program *)

Record CampaignTarget : Type := mkTarget {
  campaign_id : string;
  user_id : string;
  assigned_bot_id : option string;
  target_status : TargetStatus.t;
  attempts : Z;
  last_error : option ErrorText;
  sent_at : option Z
}.

Record Send : Type := mkSend {
  send_campaign_id : string;
  send_user_id : string;
  send_bot_id : string;
  send_status : SendStatus.t;
  error_code : option string;
  error_message : option ErrorText
}.

(** [message_data], an entry of a worker's queue. *)
Record Message : Type := mkMessage {
  msg_user_id : string;
  content : string;
  embed_config : option string;
  msg_campaign_id : option string;
  queued_at : Z
}.

Record Worker : Type := mkWorker {
  bot_id : string;
  rate_limiter : RateLimiter.DiscordRateLimiter;
  message_queue : list Message;
  processed_messages : Z;
  failed_messages : Z;
  errors_last_hour : Z
}.

(** What [asyncio.create_task] was given. *)
Inductive Task : Type :=
  | Execute
  | Scheduled (delay : Z).

(** The process and the store as the worker and the controller see them.
    [campaigns] is keyed by [_id]; [active_workers] is the worker registry of
    [bot_worker.py]; [campaign_tasks] and [active_campaigns] are the
    controller's dictionaries. *)
Record World : Type := mkWorld {
  db_connected : bool;
  campaigns : gmap string Campaign;
  targets : list CampaignTarget;
  sends : list Send;
  active_workers : gmap string Worker;
  campaign_tasks : gmap string Task;
  active_campaigns : gmap string Campaign;
  loop : RateLimiter.Loop;
  events : list event;
  history : list event;
  errors : list string
}.

Definition set_campaigns (x : gmap string Campaign) (w : World) : World :=
  mkWorld (db_connected w) x (targets w) (sends w) (active_workers w)
    (campaign_tasks w) (active_campaigns w) (loop w) (events w) (history w) (errors w).
Definition set_targets (x : list CampaignTarget) (w : World) : World :=
  mkWorld (db_connected w) (campaigns w) x (sends w) (active_workers w)
    (campaign_tasks w) (active_campaigns w) (loop w) (events w) (history w) (errors w).
Definition set_sends (x : list Send) (w : World) : World :=
  mkWorld (db_connected w) (campaigns w) (targets w) x (active_workers w)
    (campaign_tasks w) (active_campaigns w) (loop w) (events w) (history w) (errors w).
Definition set_workers (x : gmap string Worker) (w : World) : World :=
  mkWorld (db_connected w) (campaigns w) (targets w) (sends w) x
    (campaign_tasks w) (active_campaigns w) (loop w) (events w) (history w) (errors w).
Definition set_memory (tasks : gmap string Task) (active : gmap string Campaign)
    (w : World) : World :=
  mkWorld (db_connected w) (campaigns w) (targets w) (sends w) (active_workers w)
    tasks active (loop w) (events w) (history w) (errors w).
Definition set_loop (x : RateLimiter.Loop) (w : World) : World :=
  mkWorld (db_connected w) (campaigns w) (targets w) (sends w) (active_workers w)
    (campaign_tasks w) (active_campaigns w) x (events w) (history w) (errors w).

#[global] Instance dispatch_world_suspendable : Suspendable World := {|
  connected := db_connected;
  oracle := events;
  trace := history;
  consume_event := fun w =>
    mkWorld (db_connected w) (campaigns w) (targets w) (sends w) (active_workers w)
      (campaign_tasks w) (active_campaigns w) (loop w)
      (tail (events w)) (history w ++ [head_event (events w)]) (errors w)
|}.

Definition log_error (line : string) : M World unit :=
  modify (fun w =>
    mkWorld (db_connected w) (campaigns w) (targets w) (sends w) (active_workers w)
      (campaign_tasks w) (active_campaigns w) (loop w) (events w) (history w)
      (errors w ++ [line])).

(** [datetime.utcnow()] *)
Definition utcnow : M World Z := gets (fun w => RateLimiter.now (loop w)).

(** [await asyncio.sleep(d)]: a suspension at which the task can be
    cancelled; otherwise the clock moves on. *)
Definition sleep (d : Z) : M World unit :=
  fun w =>
    let w1 := consume_event w in
    if cancels (head_event (events w)) then (Exc CancelledError, w1)
    else (Ok tt, set_loop (RateLimiter.sleep d (loop w1)) w1).

(** *** The worker *)

(** What the chat platform answers to one delivery attempt; an exception
    comes with its text, [str(e)]. *)
Inductive delivery : Type :=
  | UserNotFound                       (* fetch_user returned nothing *)
  | Delivered (message_id : string)    (* user.send returned a message *)
  | Forbidden                          (* user.send raised discord.Forbidden *)
  (* user.send raised another discord.HTTPException *)
  | HTTPException (status_code : Z) (h : RateLimiter.Headers) (text : string)
  (* fetch_user raised, or user.send raised an exception of another class *)
  | Failure (text : string).

Record SendResult : Type := mkSendResult {
  sent_ok : bool;
  result_status : SendStatus.t;
  result_retry_after : option Z
}.

(** A method reads and writes its own object, found under its bot id. *)
Definition self_worker (self : string) : M World Worker :=
  fun w => match active_workers w !! self with
           | Some wk => (Ok wk, w)
           | None => (Exc RuntimeError, w)
           end.

Definition put_worker (self : string) (wk : Worker) : M World unit :=
  modify (fun w => set_workers (<[self := wk]> (active_workers w)) w).

(** [await self.rate_limiter.acquire(method, endpoint)] *)
Definition limiter_acquire (self method endpoint : string) : M World bool :=
  bind (self_worker self) (fun wk w =>
    match RateLimiter.acquire method endpoint None (loop w, rate_limiter wk) with
    | (r, (l', rl')) =>
        (r, set_loop l'
              (set_workers
                 (<[self := mkWorker (bot_id wk) rl' (message_queue wk)
                              (processed_messages wk) (failed_messages wk)
                              (errors_last_hour wk)]> (active_workers w)) w))
    end).

Definition _record_send (self : string) (campaign : option string) (user : string)
    (st : SendStatus.t) (code : option string) (msg : option ErrorText)
  : M World unit :=
  try_except
    (get_collection ;;
     wk ← self_worker self;
     let send_record := mkSend (default "" campaign) user (bot_id wk) st code msg in
     store_call (modify (fun w => set_sends (sends w ++ [send_record]) w)))
    (fun _ => log_error "Failed to record send").

Definition bump (self : string) (processed failed errs : Z) : M World unit :=
  wk ← self_worker self;
  put_worker self
    (mkWorker (bot_id wk) (rate_limiter wk) (message_queue wk)
              (processed_messages wk + processed) (failed_messages wk + failed)
              (errors_last_hour wk + errs)).

(** The [try] block of [send_dm]. An exception raised in it comes out as
    the text that the handler will store, [str(e)]. *)
Definition send_dm_body (self user text : string) (embed : option string)
    (campaign : option string) (d : delivery) : M World (ErrorText + SendResult) :=
  limiter_acquire self "POST" "/users/@me/channels" ;;
  match PyStr.int user with
  | inl _ => mret (inl (InvalidLiteral user))
  | inr _ =>
      match d with
      | UserNotFound => mret (inr (mkSendResult false SendStatus.FAILED None))
      | Failure text => mret (inl (Text text))
      | Delivered _ =>
          _record_send self campaign user SendStatus.SUCCESS None None ;;
          bump self 1 0 0 ;;
          mret (inr (mkSendResult true SendStatus.SUCCESS None))
      | Forbidden =>
          _record_send self campaign user SendStatus.FAILED (Some "forbidden")
            (Some (Text "User has DMs disabled or blocked the bot")) ;;
          mret (inr (mkSendResult false SendStatus.FAILED None))
      | HTTPException status_code h text =>
          if status_code =? 429 then
            wk ← self_worker self;
            t ← utcnow;
            match RateLimiter.update_rate_limits "POST" "/users/@me/channels" h 429 t
                    (rate_limiter wk) with
            | inl e => raise e
            | inr rl' =>
                put_worker self
                  (mkWorker (bot_id wk) rl' (message_queue wk) (processed_messages wk)
                            (failed_messages wk) (errors_last_hour wk)) ;;
                _record_send self campaign user SendStatus.RATE_LIMITED (Some "429")
                  (Some (Text text)) ;;
                mret (inr (mkSendResult false SendStatus.RATE_LIMITED
                             (Some (default 1000 (RateLimiter.header_retry_after h)))))
            end
          else
            _record_send self campaign user SendStatus.FAILED
              (Some (pretty status_code)) (Some (Text text)) ;;
            mret (inr (mkSendResult false SendStatus.FAILED None))
      end
  end.

Definition send_dm (self user text : string) (embed : option string)
    (campaign : option string) (d : delivery) : M World SendResult :=
  r ← try_except (send_dm_body self user text embed campaign d)
                 (fun e => mret (inl (StrOf e)));
  match r with
  | inr result => mret result
  | inl error =>
      log_error "error sending DM" ;;
      _record_send self campaign user SendStatus.FAILED (Some "exception")
        (Some error) ;;
      bump self 0 1 1 ;;
      mret (mkSendResult false SendStatus.FAILED None)
  end.

(** [await self.message_queue.put(message_data)]: the queue is unbounded. *)
Definition queue_put (self : string) (m : Message) : M World unit :=
  wk ← self_worker self;
  put_worker self
    (mkWorker (bot_id wk) (rate_limiter wk) (message_queue wk ++ [m])
              (processed_messages wk) (failed_messages wk) (errors_last_hour wk)).

Definition queue_message (self user text : string) (embed : option string)
    (campaign : option string) : M World unit :=
  t ← utcnow;
  queue_put self (mkMessage user text embed campaign t).

(** One run of the [message_processor] loop body; [d] is what the platform
    answers if a delivery is attempted. *)
Definition message_processor (self : string) (d : delivery) : M World unit :=
  try_except
    (wk ← self_worker self;
     match message_queue wk with
     | [] => mret tt
     | message_data :: rest =>
         put_worker self
           (mkWorker (bot_id wk) (rate_limiter wk) rest (processed_messages wk)
                     (failed_messages wk) (errors_last_hour wk)) ;;
         result ← send_dm self (msg_user_id message_data) (content message_data)
                    (embed_config message_data) (msg_campaign_id message_data) d;
         if decide (result_status result = SendStatus.RATE_LIMITED) then
           sleep (default 1000 (result_retry_after result)) ;;
           queue_put self message_data
         else mret tt
     end)
    (fun _ => log_error "Message processor error").

(** [get_bot_worker] *)
Definition get_bot_worker (bot : option string) : M World (option string) :=
  gets (fun w => match bot with
                 | Some b => match active_workers w !! b with
                             | Some _ => Some b
                             | None => None
                             end
                 | None => None
                 end).

(** *** The controller *)

Record Result : Type := mkResult {
  success : bool;
  message : string;
  new_status : option CampaignStatus.t
}.

Definition find_campaign (cid : string) : M World (option Campaign) :=
  store_call (gets (fun w => campaigns w !! cid)).

(** [campaigns.update_one({'_id': cid, ...guard}, {'$set': ...})]; returns
    [matched_count]. *)
Definition update_campaign (cid : string) (guard : Campaign -> bool)
    (f : Campaign -> Campaign) : M World nat :=
  store_call (fun w =>
    match campaigns w !! cid with
    | Some c =>
        if guard c then (Ok 1%nat, set_campaigns (<[cid := f c]> (campaigns w)) w)
        else (Ok 0%nat, w)
    | None => (Ok 0%nat, w)
    end).

Definition with_status (s : CampaignStatus.t) (t : Z) (c : Campaign) : Campaign :=
  mkCampaign (id c) (guild_id c) (name c) (message_content c) (embed_data c)
    (mode c) (pace c) (start_at c) s (total_targets c) (completed_targets c)
    (failed_targets c) t.

(** [campaign.id = campaign_id; campaign._id = campaign_id]: the attribute
    assignments on the model object are taken to succeed. *)
Definition with_id (cid : string) (c : Campaign) : Campaign :=
  mkCampaign (Some cid) (guild_id c) (name c) (message_content c) (embed_data c)
    (mode c) (pace c) (start_at c) (status c) (total_targets c)
    (completed_targets c) (failed_targets c) (updated_at c).

Definition completed_with (sent failed : Z) (t : Z) (c : Campaign) : Campaign :=
  mkCampaign (id c) (guild_id c) (name c) (message_content c) (embed_data c)
    (mode c) (pace c) (start_at c) CampaignStatus.COMPLETED (total_targets c)
    sent failed t.

Definition start_campaign (cid started_by : string) : M World Result :=
  try_except
    (get_collection ;;
     campaign_doc ← find_campaign cid;
     match campaign_doc with
     | None => mret (mkResult false "Campaign not found" None)
     | Some doc =>
         let campaign := with_id cid doc in
         if decide (status campaign ≠ CampaignStatus.PENDING) then
           mret (mkResult false "can only start pending campaigns" None)
         else
           t ← utcnow;
           let campaign := with_status CampaignStatus.RUNNING (updated_at campaign) campaign in
           update_campaign cid (fun _ => true) (with_status CampaignStatus.RUNNING t) ;;
           t' ← utcnow;
           let task :=
             match mode campaign, start_at campaign with
             | CampaignMode.SCHEDULED, Some s =>
                 if 0 <? s - t' then Scheduled (s - t') else Execute
             | _, _ => Execute
             end in
           modify (fun w => set_memory (<[cid := task]> (campaign_tasks w))
                                       (<[cid := campaign]> (active_campaigns w)) w) ;;
           mret (mkResult true "started successfully" (Some CampaignStatus.RUNNING))
     end)
    (fun _ =>
       log_error "Failed to start campaign" ;;
       mret (mkResult false "Failed to start campaign" None)).

Definition pause_campaign (cid paused_by : string) : M World Result :=
  try_except
    (get_collection ;;
     t ← utcnow;
     matched_count ← update_campaign cid
       (fun c => bool_decide (status c = CampaignStatus.RUNNING))
       (with_status CampaignStatus.PAUSED t);
     if (matched_count =? 0)%nat then
       mret (mkResult false "Campaign not found or not running" None)
     else
       modify (fun w =>
         set_memory (delete cid (campaign_tasks w))
           (alter (fun c => with_status CampaignStatus.PAUSED (updated_at c) c) cid
                  (active_campaigns w)) w) ;;
       mret (mkResult true "Campaign paused successfully" (Some CampaignStatus.PAUSED)))
    (fun _ =>
       log_error "Failed to pause campaign" ;;
       mret (mkResult false "Failed to pause campaign" None)).

Definition cancel_campaign (cid cancelled_by : string) : M World Result :=
  try_except
    (get_collection ;;
     t ← utcnow;
     matched_count ← update_campaign cid (fun _ => true)
       (with_status CampaignStatus.CANCELLED t);
     if (matched_count =? 0)%nat then
       mret (mkResult false "Campaign not found" None)
     else
       modify (fun w => set_memory (delete cid (campaign_tasks w))
                                   (delete cid (active_campaigns w)) w) ;;
       mret (mkResult true "Campaign cancelled successfully"
               (Some CampaignStatus.CANCELLED)))
    (fun _ =>
       log_error "Failed to cancel campaign" ;;
       mret (mkResult false "Failed to cancel campaign" None)).

(** [targets.update_one({'campaign_id': cid, 'user_id': u}, {'$set': ...})]:
    the first matching document. A filter value of [None] matches no target,
    since every target stores a string. *)
Definition target_matches (cid : option string) (u : string) (t : CampaignTarget)
  : bool :=
  match cid with
  | Some c => String.eqb (campaign_id t) c && String.eqb (user_id t) u
  | None => false
  end.

Definition update_target (cid : option string) (u : string)
    (f : CampaignTarget -> CampaignTarget) : M World unit :=
  store_call (modify (fun w =>
    match list_find (fun t => target_matches cid u t = true) (targets w) with
    | Some (i, t) => set_targets (<[i := f t]> (targets w)) w
    | None => w
    end)).

Definition mark_sent (now : Z) (t : CampaignTarget) : CampaignTarget :=
  mkTarget (campaign_id t) (user_id t) (assigned_bot_id t) TargetStatus.SENT
    (attempts t) (last_error t) (Some now).

Definition mark_failed (err : ErrorText) (t : CampaignTarget) : CampaignTarget :=
  mkTarget (campaign_id t) (user_id t) (assigned_bot_id t) TargetStatus.FAILED
    (attempts t) (Some err) (sent_at t).

Definition _send_campaign_message (campaign : Campaign) (target_doc : CampaignTarget)
  : M World unit :=
  try_except
    (bot_worker ← get_bot_worker (assigned_bot_id target_doc);
     match bot_worker with
     | None => raise WorkerUnavailable
     | Some worker =>
         queue_message worker (user_id target_doc) (message_content campaign)
           (embed_data campaign) (id campaign) ;;
         get_collection ;;
         t ← utcnow;
         update_target (id campaign) (user_id target_doc) (mark_sent t)
     end)
    (fun e =>
       (* mark the target failed, then re-raise *)
       get_collection ;;
       update_target (id campaign) (user_id target_doc) (mark_failed (StrOf e)) ;;
       raise e).

(** [targets.find({'campaign_id': cid, 'status': 'pending'})] *)
Definition pending_targets (cid : string) (w : World) : list CampaignTarget :=
  filter (fun t => campaign_id t = cid ∧ target_status t = TargetStatus.PENDING)
         (targets w).

(** One advance of the cursor in [async for]. *)
Definition cursor_next : M World unit := store_call (mret tt).

(** The INSTANT branch. *)
Fixpoint instant_loop (campaign : Campaign) (docs : list CampaignTarget)
    (sent_count failed_count : Z) : M World (Z * Z) :=
  match docs with
  | [] => cursor_next ;; mret (sent_count, failed_count)
  | target_doc :: docs' =>
      cursor_next ;;
      ok ← try_except (_send_campaign_message campaign target_doc ;; mret true)
                      (fun _ => log_error "Failed to send message" ;; mret false);
      if ok : bool then instant_loop campaign docs' (sent_count + 1) failed_count
      else instant_loop campaign docs' sent_count (failed_count + 1)
  end.

(** How one iteration of the PACED loop ends. *)
Inductive paced_step : Type :=
  | Continue (sent_count failed_count : Z)
  | Break (sent_count failed_count : Z).

(** The body of the PACED loop: [try: send; sent += 1; sleep
    except CancelledError: break  except Exception: failed += 1]. *)
Definition paced_body (campaign : Campaign) (target_doc : CampaignTarget)
    (message_interval sent_count failed_count : Z) : M World paced_step :=
  fun w =>
    match _send_campaign_message campaign target_doc w with
    | (Ok _, w1) =>
        match sleep message_interval w1 with
        | (Ok _, w2) => (Ok (Continue (sent_count + 1) failed_count), w2)
        | (Exc e, w2) =>
            if is_Exception e then
              (Ok (Continue (sent_count + 1) (failed_count + 1)),
               snd (log_error "Failed to send message" w2))
            else (Ok (Break (sent_count + 1) failed_count), w2)
        | (Hang, w2) => (Hang, w2)
        end
    | (Exc e, w1) =>
        if is_Exception e then
          (Ok (Continue sent_count (failed_count + 1)),
           snd (log_error "Failed to send message" w1))
        else (Ok (Break sent_count failed_count), w1)
    | (Hang, w1) => (Hang, w1)
    end.

Fixpoint paced_loop (campaign : Campaign) (docs : list CampaignTarget)
    (message_interval sent_count failed_count : Z) : M World (Z * Z) :=
  match docs with
  | [] => cursor_next ;; mret (sent_count, failed_count)
  | target_doc :: docs' =>
      cursor_next ;;
      r ← paced_body campaign target_doc message_interval sent_count failed_count;
      match r with
      | Continue s f => paced_loop campaign docs' message_interval s f
      | Break s f => mret (s, f)
      end
  end.

(** The [try] block of [_execute_campaign]. *)
Definition execute_body (cid : string) : M World unit :=
  get_collection ;;
  get_collection ;;
  campaign_doc ← find_campaign cid;
  match campaign_doc with
  | None => log_error "Campaign not found"
  | Some campaign =>
      docs ← gets (pending_targets cid);
      counts ←
        match mode campaign with
        | CampaignMode.INSTANT => instant_loop campaign docs 0 0
        | CampaignMode.PACED =>
            if pace campaign =? 0 then raise ZeroDivisionError
            else paced_loop campaign docs (RateLimiter.minute / pace campaign) 0 0
        | CampaignMode.SCHEDULED => mret (0, 0)
        end;
      t ← utcnow;
      update_campaign cid (fun _ => true) (completed_with (fst counts) (snd counts) t) ;;
      modify (fun w => set_memory (delete cid (campaign_tasks w))
                                  (delete cid (active_campaigns w)) w)
  end.

Definition _execute_campaign (cid : string) : M World unit :=
  try_except
    (try_cancelled (execute_body cid) (mret tt))
    (fun _ => log_error "Error executing campaign").

Definition _schedule_campaign (cid : string) (delay : Z) : M World unit :=
  try_except
    (try_cancelled (sleep delay ;; _execute_campaign cid) (mret tt))
    (fun _ => log_error "Error in scheduled campaign").

(** The stored status of a campaign. *)
Definition stored_status (cid : string) (w : World) : option CampaignStatus.t :=
  status <$> campaigns w !! cid.

(** The status of the target of [(cid, u)]. *)
Definition status_of_target (cid u : string) (w : World) : option TargetStatus.t :=
  target_status <$> (snd <$> list_find (fun t => target_matches (Some cid) u t = true)
                                       (targets w)).

(** A success record for [(cid, u)] in the send log. *)
Definition delivered (cid u : string) (w : World) : Prop :=
  ∃ s, s ∈ sends w ∧ send_campaign_id s = cid ∧ send_user_id s = u
       ∧ send_status s = SendStatus.SUCCESS.

End Dispatch.


(** ** member_assignment.py: checking who is still in the server *)

Module Membership.

(** A [discord.Member] as [verify_server_membership] reads it. *)
Record Member : Type := mkMember {
  bot : bool;
  name : string;             (* str(member) *)
  display_name : string
}.

(** What [await discord_guild.fetch_member(id)] does. *)
Inductive fetch : Type :=
  | Fetched (m : Member)
  | FetchNotFound            (* raises discord.NotFound *)
  | FetchHTTPException       (* raises another discord.HTTPException *)
  | FetchFailed              (* raises any other exception *)
  | FetchCancelled.          (* the task is cancelled while it waits *)

(** What the guild object answers for one user id. *)
Inductive answer : Type :=
  | BadId                    (* int(user_id) raises ValueError *)
  | Cached (m : Member)      (* get_member finds the member in the cache *)
  | Uncached (f : fetch).    (* get_member returns None *)

(** The exceptions of the loop body that are not the store's. All of them
    but [Cancelled] derive from [Exception]. *)
Inductive raised : Type :=
  | PyValueError
  | PyNameError
  | NotFound
  | HTTPException
  | OtherError
  | Cancelled                (* asyncio.CancelledError out of fetch_member *)
  | Store (e : exn).

(** A document of the [members] collection, as the upsert writes it. *)
Record MemberDoc : Type := mkMemberDoc {
  guild_id : string;
  user_id : string;
  username : string;
  doc_display_name : string;
  last_seen : Z
}.

Record World : Type := mkWorld {
  store : Assignment.World;
  members : list MemberDoc
}.

#[global] Instance membership_world_suspendable : Suspendable World := {|
  connected := fun w => connected (store w);
  oracle := fun w => oracle (store w);
  trace := fun w => trace (store w);
  consume_event := fun w => mkWorld (consume_event (store w)) (members w)
|}.

(** A method of the manager that works on the assignments alone. *)
Definition in_store {A} (m : M Assignment.World A) : M World A :=
  fun w => let '(r, s) := m (store w) in (r, mkWorld s (members w)).

(** The names bound at module level in [member_assignment.py]: its imports
    and its own definitions. *)
Definition module_names : list string :=
  ["logging"; "random"; "datetime"; "Dict"; "Any"; "List"; "Optional"; "Tuple";
   "get_member_bot_assignments_collection"; "get_members_collection";
   "bot_manager"; "MemberBotAssignment"; "logger"; "MemberAssignmentManager";
   "member_assignment_manager"].

Definition bound (name : string) : bool := bool_decide (name ∈ module_names).

(** [members.update_one({'guild_id': g, 'user_id': u}, {'$set': ...},
    upsert=True)] *)
Definition upsert_member (g u : string) (m : Member) (t : Z) : M World unit :=
  store_call (modify (fun w =>
    let doc := mkMemberDoc g u (name m) (display_name m) t in
    match list_find (fun d => guild_id d = g ∧ user_id d = u) (members w) with
    | Some (i, _) => mkWorld (store w) (<[i := doc]> (members w))
    | None => mkWorld (store w) (members w ++ [doc])
    end)).

Definition _update_member_info (g u : string) (m : Member) : M World unit :=
  try_except
    (get_collection ;;
     t ← gets (fun w => Assignment.utcnow (store w));
     upsert_member g u m t)
    (fun _ => mret tt).

Definition fetch_member (f : fetch) : raised + Member :=
  match f with
  | Fetched m => inr m
  | FetchNotFound => inl NotFound
  | FetchHTTPException => inl HTTPException
  | FetchFailed => inl OtherError
  | FetchCancelled => inl Cancelled
  end.

(** [if member and not member.bot: ... elif member and member.bot: continue] *)
Definition checked (g u : string) (m : Member) (verified_members : list string)
  : M World (raised + list string) :=
  if negb (bot m) then
    let verified_members := verified_members ++ [u] in
    _update_member_info g u m ;;
    mret (inr verified_members)
  else mret (inr verified_members).

(** One turn of the loop over [user_ids]: the inner [try] with its
    [except Exception] that keeps the user. The handlers of the innermost
    [try] are reached only if the name [discord] resolves: matching an
    exception against [discord.NotFound] evaluates that name first, for
    whatever [fetch_member] raised, a cancellation included; the
    [NameError] then replaces the exception that was on its way. *)
Definition verify_one (g u : string) (a : answer) (verified_members : list string)
  : M World (list string) :=
  r ← try_except
        (match a with
         | BadId => mret (inl PyValueError)
         | Cached m => checked g u m verified_members
         | Uncached f =>
             match fetch_member f with
             | inr m => checked g u m verified_members
             | inl e =>
                 if bound "discord" then
                   match e with
                   | NotFound =>
                       in_store (Assignment._deactivate_member_assignment g u) ;;
                       mret (inr verified_members)
                   | HTTPException => mret (inr (verified_members ++ [u]))
                   | Cancelled => raise CancelledError
                   | other => mret (inl other)
                   end
                 else mret (inl PyNameError)
             end
         end)
        (fun e => mret (inl (Store e)));
  match r with
  | inr verified_members => mret verified_members
  | inl _ => mret (verified_members ++ [u])
  end.

Fixpoint verify_loop (g : string) (user_ids : list string) (guild : string → answer)
    (verified_members : list string) : M World (list string) :=
  match user_ids with
  | [] => mret verified_members
  | u :: rest =>
      verified_members ← verify_one g u (guild u) verified_members;
      verify_loop g rest guild verified_members
  end.

Definition verify_server_membership (g : string) (user_ids : list string)
    (guild : string → answer) : M World (list string) :=
  try_except (verify_loop g user_ids guild []) (fun _ => mret user_ids).

End Membership.

Module HealthStatus.
Inductive t : Type := HEALTHY | DEGRADED | UNHEALTHY.
#[global] Instance health_status_eq_dec : EqDecision t.
Proof. solve_decision. Defined.
End HealthStatus.

(** ** bot_worker.py: health; bot_manager.py: the bots offered to a campaign *)

Module Fleet.

(** A [DiscordBotWorker] as its status and health methods see it. *)
Record Worker : Type := mkWorker {
  bot_name : string;               (* bot_data.name *)
  is_running : bool;
  client_ready : bool;             (* self.client.is_ready() *)
  (* self.client.latency * 1000; [None] when the latency is nan or inf, for
     which [int(...)] raises *)
  client_latency : option Z;
  health_status : HealthStatus.t;
  last_heartbeat : Z;
  errors_last_hour : Z;
  last_error_reset : option Z;     (* _last_error_reset, unset at first *)
  queue_size : nat;                (* message_queue.qsize() *)
  processed_messages : Z;
  failed_messages : Z
}.

(** A document of the [bot_health] collection. *)
Record BotHealth : Type := mkBotHealth {
  health_bot_id : string;
  health_doc_status : HealthStatus.t;
  health_latency : option Z;
  health_errors_last_hour : Z;
  health_last_heartbeat : Z;
  health_created_at : Z
}.

(** [active_workers] is a dict: its items come in insertion order, one per
    bot id. *)
Record World : Type := mkWorld {
  db_connected : bool;
  utcnow : Z;
  active_workers : list (string * Worker);
  bot_health : list BotHealth;
  events : list event;
  history : list event;
  errors : list string
}.

#[global] Instance fleet_world_suspendable : Suspendable World := {|
  connected := db_connected;
  oracle := events;
  trace := history;
  consume_event := fun w =>
    mkWorld (db_connected w) (utcnow w) (active_workers w) (bot_health w)
            (tail (events w)) (history w ++ [head_event (events w)]) (errors w)
|}.

Definition log_error (line : string) : M World unit :=
  modify (fun w =>
    mkWorld (db_connected w) (utcnow w) (active_workers w) (bot_health w)
            (events w) (history w) (errors w ++ [line])).

Definition set_workers (x : list (string * Worker)) (w : World) : World :=
  mkWorld (db_connected w) (utcnow w) x (bot_health w) (events w) (history w) (errors w).

Definition set_bot_health (x : list BotHealth) (w : World) : World :=
  mkWorld (db_connected w) (utcnow w) (active_workers w) x (events w) (history w)
          (errors w).

(** [d[k]] and [d[k] = v] on a dict kept as a list of items. *)
Fixpoint dict_get {V} (k : string) (d : list (string * V)) : option V :=
  match d with
  | [] => None
  | (k', v) :: d' => if String.eqb k' k then Some v else dict_get k d'
  end.

Fixpoint dict_set {V} (k : string) (v : V) (d : list (string * V)) : list (string * V) :=
  match d with
  | [] => [(k, v)]
  | (k', v') :: d' =>
      if String.eqb k' k then (k, v) :: d' else (k', v') :: dict_set k v d'
  end.

Definition self_worker (self : string) : M World Worker :=
  fun w => match dict_get self (active_workers w) with
           | Some wk => (Ok wk, w)
           | None => (Exc RuntimeError, w)
           end.

Definition put_worker (self : string) (wk : Worker) : M World unit :=
  modify (fun w => set_workers (dict_set self wk (active_workers w)) w).

(** [int(self.client.latency * 1000)]: [ValueError] for nan and
    [OverflowError] for inf, both caught alike by [except Exception] and
    kept as one constructor here. *)
Definition int_latency (wk : Worker) : exn + Z :=
  match client_latency wk with
  | Some ms => inr ms
  | None => inl ValueError
  end.

(** [health_collection.update_one({'bot_id': ...}, {'$set': ...}, upsert=True)] *)
Definition upsert_health (doc : BotHealth) : M World unit :=
  store_call (modify (fun w =>
    match list_find (fun d => health_bot_id d = health_bot_id doc) (bot_health w) with
    | Some (i, _) => set_bot_health (<[i := doc]> (bot_health w)) w
    | None => set_bot_health (bot_health w ++ [doc]) w
    end)).

Definition _update_health_status (self : string) (status : HealthStatus.t)
  : M World unit :=
  try_except
    (wk ← self_worker self;
     t ← gets utcnow;
     put_worker self
       (mkWorker (bot_name wk) (is_running wk) (client_ready wk) (client_latency wk)
                 status t (errors_last_hour wk) (last_error_reset wk) (queue_size wk)
                 (processed_messages wk) (failed_messages wk)) ;;
     get_collection ;;
     match int_latency wk with
     | inl e => raise e
     | inr latency =>
         upsert_health (mkBotHealth self status (Some latency) (errors_last_hour wk) t t)
     end)
    (fun _ => log_error "Failed to update health status").

(** [(current_time - self._last_error_reset).seconds >= 3600]: the
    [seconds] attribute of a timedelta leaves whole days out. *)
Definition reset_due (current_time : Z) (last : option Z) : bool :=
  match last with
  | None => true
  | Some t0 => 3600 <=? ((current_time - t0) `mod` 86400000) / 1000
  end.

Definition status_for (errors_last_hour : Z) : HealthStatus.t :=
  if 20 <=? errors_last_hour then HealthStatus.UNHEALTHY
  else if 10 <=? errors_last_hour then HealthStatus.DEGRADED
  else HealthStatus.HEALTHY.

(** One run of the [health_monitor] loop body. *)
Definition health_monitor (self : string) : M World unit :=
  try_except
    (wk ← self_worker self;
     if client_ready wk then
       current_time ← gets utcnow;
       (if reset_due current_time (last_error_reset wk) then
          put_worker self
            (mkWorker (bot_name wk) (is_running wk) (client_ready wk) (client_latency wk)
                      (health_status wk) (last_heartbeat wk) 0 (Some current_time)
                      (queue_size wk) (processed_messages wk) (failed_messages wk))
        else mret tt) ;;
       wk ← self_worker self;
       _update_health_status self (status_for (errors_last_hour wk))
     else _update_health_status self HealthStatus.UNHEALTHY)
    (fun _ => log_error "Health monitor error").

(** The client's [on_error] event. *)
Definition on_error (self : string) : M World unit :=
  log_error "Bot worker error in event" ;;
  wk ← self_worker self;
  put_worker self
    (mkWorker (bot_name wk) (is_running wk) (client_ready wk) (client_latency wk)
              (health_status wk) (last_heartbeat wk) (errors_last_hour wk + 1)
              (last_error_reset wk) (queue_size wk) (processed_messages wk)
              (failed_messages wk)) ;;
  wk ← self_worker self;
  if 10 <=? errors_last_hour wk
  then _update_health_status self HealthStatus.DEGRADED
  else mret tt.

(** The entries of [get_status()] that the bot manager reads. *)
Record Status : Type := mkStatus {
  status_bot_name : string;
  is_ready : bool;
  status_health : HealthStatus.t;
  latency : option Z;
  status_queue_size : nat
}.

Definition get_status (wk : Worker) : exn + Status :=
  if client_ready wk then
    match int_latency wk with
    | inl e => inl e
    | inr ms => inr (mkStatus (bot_name wk) true (health_status wk) (Some ms)
                              (queue_size wk))
    end
  else inr (mkStatus (bot_name wk) false (health_status wk) None (queue_size wk)).

(** An entry of the list returned by [get_available_bots_for_guild]. *)
Record Offer : Type := mkOffer {
  offer_bot_id : string;
  offer_name : string;
  offer_queue_size : nat;
  offer_health : HealthStatus.t;
  offer_latency : option Z
}.

(** [is_ready and health_status in ['healthy', 'degraded'] and queue_size < 100] *)
Definition usable (s : Status) : bool :=
  is_ready s
  && bool_decide (status_health s = HealthStatus.HEALTHY
                  ∨ status_health s = HealthStatus.DEGRADED)
  && (status_queue_size s <? 100)%nat.

(** The loop over [active_workers.items()]. *)
Fixpoint collect (items : list (string * Worker)) (available_bots : list Offer)
  : exn + list Offer :=
  match items with
  | [] => inr available_bots
  | (bot_id, worker) :: items' =>
      match get_status worker with
      | inl e => inl e
      | inr status =>
          if usable status then
            collect items'
              (available_bots
                 ++ [mkOffer bot_id (status_bot_name status) (status_queue_size status)
                             (status_health status) (latency status)])
          else collect items' available_bots
      end
  end.

(** [list.sort(key=...)]: ascending and stable. *)
Fixpoint insert_by {A} (key : A → nat) (x : A) (l : list A) : list A :=
  match l with
  | [] => [x]
  | y :: l' => if (key x <=? key y)%nat then x :: y :: l' else y :: insert_by key x l'
  end.

Definition sort_by {A} (key : A → nat) (l : list A) : list A :=
  foldr (insert_by key) [] l.

Definition get_available_bots_for_guild (guild_id : string) : M World (list Offer) :=
  try_except
    (items ← gets active_workers;
     match collect items [] with
     | inl e => raise e
     | inr available_bots => mret (sort_by offer_queue_size available_bots)
     end)
    (fun _ => log_error "Failed to get available bots" ;; mret []).

End Fleet.

(** ** campaign_controller.py: who is targeted, and by which bot *)

Module Audience.

(** A document of [members], [whitelist] or [blacklist], as
    [_get_all_members] reads it. *)
Record Entry : Type := mkEntry {
  guild_id : string;
  user_id : string
}.

#[global] Instance entry_eq_dec : EqDecision Entry.
Proof. solve_decision. Defined.

(** [set_order] is the order in which [list(a_set)] enumerates a set; the
    language does not fix it. [unique_targets] tells whether the unique
    index on [(campaign_id, user_id)] of [INDEXES] is in force. *)
Record World : Type := mkWorld {
  db_connected : bool;
  members : list Entry;
  whitelist : list Entry;
  blacklist : list Entry;
  unique_targets : bool;
  targets : list Dispatch.CampaignTarget;
  set_order : gset string → list string;
  events : list event;
  history : list event;
  errors : list string
}.

#[global] Instance audience_world_suspendable : Suspendable World := {|
  connected := db_connected;
  oracle := events;
  trace := history;
  consume_event := fun w =>
    mkWorld (db_connected w) (members w) (whitelist w) (blacklist w) (unique_targets w)
            (targets w) (set_order w) (tail (events w))
            (history w ++ [head_event (events w)]) (errors w)
|}.

Definition log_error (line : string) : M World unit :=
  modify (fun w =>
    mkWorld (db_connected w) (members w) (whitelist w) (blacklist w) (unique_targets w)
            (targets w) (set_order w) (events w) (history w) (errors w ++ [line])).

Definition set_targets (x : list Dispatch.CampaignTarget) (w : World) : World :=
  mkWorld (db_connected w) (members w) (whitelist w) (blacklist w) (unique_targets w)
          x (set_order w) (events w) (history w) (errors w).

(** [collection.find({'guild_id': g})] *)
Definition in_guild (g : string) (docs : list Entry) : list Entry :=
  filter (fun d => guild_id d = g) docs.

(** One advance of a cursor in [async for]. *)
Definition cursor_next : M World unit := store_call (mret tt).

(** [async for doc in cursor: s = f(s, doc)] *)
Fixpoint cursor_fold {S} (docs : list Entry) (f : S → Entry → S) (s : S) : M World S :=
  match docs with
  | [] => cursor_next ;; mret s
  | d :: docs' => cursor_next ;; cursor_fold docs' f (f s d)
  end.

Definition _get_all_members (g : string) : M World (list string) :=
  try_except
    (get_collection ;;
     get_collection ;;
     get_collection ;;
     members_cursor ← gets (fun w => in_guild g (members w));
     all_users ← cursor_fold members_cursor
                   (fun s member => s ∪ {[user_id member]}) (∅ : gset string);
     whitelist_cursor ← gets (fun w => in_guild g (whitelist w));
     all_users ← cursor_fold whitelist_cursor
                   (fun s whitelist_entry => s ∪ {[user_id whitelist_entry]}) all_users;
     blacklisted_cursor ← gets (fun w => in_guild g (blacklist w));
     all_users ← cursor_fold blacklisted_cursor
                   (fun s blacklist => s ∖ {[user_id blacklist]}) all_users;
     gets (fun w => set_order w all_users))
    (fun _ => log_error "Failed to get all members" ;; mret []).

(** The loop of [_create_campaign_targets] from index [i] on:
    [available_bots[i % bot_count]] for each member in turn. *)
Fixpoint build_targets (campaign_id : string) (available_bots : list Assignment.Bot)
    (i : nat) (members : list string) : exn + list Dispatch.CampaignTarget :=
  match members with
  | [] => inr []
  | user_id :: rest =>
      let bot_count := length available_bots in
      if (bot_count =? 0)%nat then inl ZeroDivisionError
      else
        match PyStr.index available_bots (i `mod` bot_count) with
        | inl e => inl e
        | inr assigned_bot =>
            match build_targets campaign_id available_bots (S i) rest with
            | inl e => inl e
            | inr targets =>
                inr (Dispatch.mkTarget campaign_id user_id
                       (Some (Assignment.bot_id assigned_bot))
                       TargetStatus.PENDING 0 None None :: targets)
            end
        end
  end.

Definition same_target (a b : Dispatch.CampaignTarget) : bool :=
  String.eqb (Dispatch.campaign_id a) (Dispatch.campaign_id b)
  && String.eqb (Dispatch.user_id a) (Dispatch.user_id b).

(** [insert_many(docs)], ordered: the documents go in one after the other
    and the first one the unique index rejects stops the command. *)
Fixpoint insert_many_loop (uniq : bool) (stored todo : list Dispatch.CampaignTarget)
  : res unit * list Dispatch.CampaignTarget :=
  match todo with
  | [] => (Ok tt, stored)
  | t :: todo' =>
      if uniq && existsb (same_target t) stored then (Exc PyMongoError, stored)
      else insert_many_loop uniq (stored ++ [t]) todo'
  end.

Definition insert_many (docs : list Dispatch.CampaignTarget) : M World unit :=
  store_call (fun w =>
    let '(r, stored) := insert_many_loop (unique_targets w) (targets w) docs in
    (r, set_targets stored w)).

Definition _create_campaign_targets (campaign_id : string) (members : list string)
    (available_bots : list Assignment.Bot) : M World (list Dispatch.CampaignTarget) :=
  try_except
    (get_collection ;;
     match build_targets campaign_id available_bots 0 members with
     | inl e => raise e
     | inr targets =>
         match targets with
         | [] => mret tt
         | _ => insert_many targets
         end ;;
         mret targets
     end)
    (fun _ => log_error "Failed to create campaign targets" ;; mret []).

End Audience.

(** ** utils.py *)

Module Utils.

(** [target_rate_per_minute] is accepted and not used. *)
Definition get_optimal_bot_count (member_count target_rate_per_minute : Z) : Z :=
  let safe_rate_per_bot := 50 in
  if member_count <=? safe_rate_per_bot then 1
  else Z.max 1 (Z.min 20 (member_count / safe_rate_per_bot + 1)).

End Utils.

(** * Verification *)

(** ** Running the monad *)

Lemma bind_ok {W A B} (m : M W A) (k : A → M W B) (w w' : W) (a : A) :
  m w = (Ok a, w') → (m ≫= k) w = k a w'.
Proof. intros E. unfold mbind, M_bind, bind. by rewrite E. Qed.

Lemma bind_exc {W A B} (m : M W A) (k : A → M W B) (w w' : W) (e : exn) :
  m w = (Exc e, w') → (m ≫= k) w = (Exc e, w').
Proof. intros E. unfold mbind, M_bind, bind. by rewrite E. Qed.

Lemma bind_hang {W A B} (m : M W A) (k : A → M W B) (w w' : W) :
  m w = (Hang, w') → (m ≫= k) w = (Hang, w').
Proof. intros E. unfold mbind, M_bind, bind. by rewrite E. Qed.

(** ** Pending cancellations *)

Lemma never_cancelled_nil : never_cancelled [].
Proof. split; apply not_elem_of_nil. Qed.

Lemma never_cancelled_cons (e : event) (es : list event) :
  never_cancelled (e :: es) ↔ cancels e = false ∧ never_cancelled es.
Proof.
  unfold never_cancelled. rewrite !not_elem_of_cons. destruct e; cbn; intuition congruence.
Qed.

Lemma never_cancelled_head (es : list event) :
  never_cancelled es → cancels (head_event es) = false.
Proof. destruct es as [|e es]; [done|]. by intros [? _]%never_cancelled_cons. Qed.

Lemma never_cancelled_tail (es : list event) :
  never_cancelled es → never_cancelled (tail es).
Proof. destruct es as [|e es]; [done|]. by intros [_ ?]%never_cancelled_cons. Qed.

(** ** The rate limiters *)

Module RateLimiterFacts.
Import RateLimiter.

(** *** The bucket key is always defined *)

Lemma prefix_split (p s : string) :
  String.prefix p s = true → ∃ rest, s = p +:+ rest.
Proof.
  revert s. induction p as [|a p IH]; intros s Hp.
  - exists s. reflexivity.
  - destruct s as [|b s]; simpl in Hp; [discriminate|].
    destruct (ascii_dec a b) as [->|]; [|discriminate].
    destruct (IH s Hp) as [rest ->]. exists rest. reflexivity.
Qed.

Lemma third_piece_after_two_slashes (p endpoint : string) :
  PyStr.startswith endpoint p = true →
  (∀ rest h t, PyStr.split_on "/" rest = (h, t) →
               PyStr.split "/" (p +:+ rest) !! 2%nat = Some h) →
  ∃ part, PyStr.index (PyStr.split "/" endpoint) 2 = inr part.
Proof.
  intros Hp Hsplit. destruct (prefix_split _ _ Hp) as [rest ->].
  destruct (PyStr.split_on "/" rest) as [h t] eqn:E.
  exists h. unfold PyStr.index. rewrite (Hsplit rest h t E). reflexivity.
Qed.

Lemma channels_third_piece (endpoint : string) :
  PyStr.startswith endpoint "/channels/" = true →
  ∃ part, PyStr.index (PyStr.split "/" endpoint) 2 = inr part.
Proof.
  intros Hp. apply (third_piece_after_two_slashes _ _ Hp).
  intros rest h t E. unfold PyStr.split. cbv [append]. simpl. rewrite E. reflexivity.
Qed.

Lemma guilds_third_piece (endpoint : string) :
  PyStr.startswith endpoint "/guilds/" = true →
  ∃ part, PyStr.index (PyStr.split "/" endpoint) 2 = inr part.
Proof.
  intros Hp. apply (third_piece_after_two_slashes _ _ Hp).
  intros rest h t E. unfold PyStr.split. cbv [append]. simpl. rewrite E. reflexivity.
Qed.

Lemma bucket_key_total (method endpoint : string) (guild_id : option string) :
  ∃ key, _get_bucket_key method endpoint guild_id = inr key.
Proof.
  unfold _get_bucket_key.
  destruct (PyStr.startswith endpoint "/channels/") eqn:Hc.
  - destruct (channels_third_piece _ Hc) as [part ->].
    destruct (PyStr.contains "/messages" endpoint); eauto.
  - destruct (PyStr.startswith endpoint "/guilds/") eqn:Hg.
    + destruct (guilds_third_piece _ Hg) as [part ->].
      destruct (PyStr.contains "/members" endpoint); eauto.
    + destruct (PyStr.contains "/users/" endpoint && PyStr.contains "/channels" endpoint);
        eauto.
Qed.

(** *** One call, step by step *)

(** No global cooldown is running at time [t]. *)
Definition global_idle (t : Z) (g : option Z) : Prop :=
  match g with
  | Some c => c = 0 ∨ c ≤ t
  | None => True
  end.

Lemma wait_for_global_idle (l : Loop) (g : option Z) :
  global_idle (now l) g → wait_for_global l g = (l, g).
Proof.
  unfold global_idle, wait_for_global. destruct g as [c|]; [|done].
  intros [->| Hle]; [done|].
  destruct (negb (c =? 0)); simpl; [|done].
  destruct (Z.ltb_spec (now l) c); [lia|done].
Qed.

Lemma retry_pending_later (t t' : Z) (b : RateLimitBucket) :
  retry_pending t b = false → t ≤ t' → retry_pending t' b = false.
Proof.
  unfold retry_pending. destruct (retry_after b) as [r|]; [|done].
  destruct (negb (r =? 0)); simpl; [|done].
  intros H Hle. apply Z.ltb_ge. apply Z.ltb_ge in H. lia.
Qed.

Lemma wait_for_bucket_budget (l : Loop) (b : RateLimitBucket) :
  retry_pending (now l) b = false → 0 < remaining b →
  wait_for_bucket l b = (l, b).
Proof.
  intros Hr Hpos. unfold wait_for_bucket, is_rate_limited. rewrite Hr.
  destruct (Z.leb_spec (remaining b) 0); [lia|done].
Qed.

Lemma wait_for_bucket_exhausted (l : Loop) (b : RateLimitBucket) :
  retry_pending (now l) b = false → remaining b ≤ 0 → now l < reset_timestamp b →
  wait_for_bucket l b = (sleep (reset_timestamp b - now l) l, refill b).
Proof.
  intros Hr Hrem Hfut. unfold wait_for_bucket, is_rate_limited. rewrite Hr.
  destruct (Z.leb_spec (remaining b) 0); [|lia].
  destruct (Z.ltb_spec (now l) (reset_timestamp b)) as [_|]; [|lia]. simpl.
  f_equal. f_equal. unfold time_until_reset. unfold retry_pending in Hr.
  destruct (retry_after b) as [r|].
  - rewrite Hr. destruct (Z.ltb_spec (now l) (reset_timestamp b)); [done|lia].
  - destruct (Z.ltb_spec (now l) (reset_timestamp b)); [done|lia].
Qed.

(** A call whose lock is free, with no global cooldown running: what it
    leaves behind is decided by the two bucket steps alone. *)
Lemma acquire_unlocked (method endpoint : string) (guild_id : option string)
    (key : string) (l : Loop) (rl : DiscordRateLimiter) (b : RateLimitBucket) :
  _get_bucket_key method endpoint guild_id = inr key →
  buckets rl !! key = Some b →
  locks rl !! key ≠ Some true →
  global_idle (now l) (global_rate_limit rl) →
  ∃ rl',
    acquire method endpoint guild_id (l, rl)
      = (Ok true, (fst (wait_for_bucket l b), rl'))
    ∧ buckets rl' !! key = Some (consume (snd (wait_for_bucket l b)))
    ∧ locks rl' !! key ≠ Some true
    ∧ global_rate_limit rl' = global_rate_limit rl.
Proof.
  intros Hk Hb Hlock Hg. unfold acquire. rewrite Hk.
  rewrite (wait_for_global_idle _ _ Hg). rewrite !Hb. unfold default, from_option, id.
  destruct (wait_for_bucket l b) as [l2 b2] eqn:Ew.
  destruct (locks rl !! key) as [held|] eqn:El.
  - rewrite El. destruct held; [congruence|].
    eexists. split; [reflexivity|]. simpl.
    rewrite lookup_insert_eq. rewrite El. repeat split; congruence.
  - rewrite lookup_insert_eq.
    eexists. split; [reflexivity|]. simpl.
    rewrite !lookup_insert_eq. repeat split; congruence.
Qed.

(** *** [limit = N]: the budget, then the wait *)

Definition total_delay (delays : list Z) : Z := foldr Z.add 0 delays.

Definition with_remaining (r : Z) (b : RateLimitBucket) : RateLimitBucket :=
  mkBucket r (limit b) (reset_after b) (reset_timestamp b) (retry_after b).

Lemma acquire_each_within_budget (method endpoint : string)
    (guild_id : option string) (key : string) (delays : list Z) :
  _get_bucket_key method endpoint guild_id = inr key →
  ∀ (l : Loop) (rl : DiscordRateLimiter) (b : RateLimitBucket),
    buckets rl !! key = Some b →
    locks rl !! key ≠ Some true →
    global_idle (now l) (global_rate_limit rl) →
    retry_pending (now l) b = false →
    Forall (fun d => 0 ≤ d) delays →
    Z.of_nat (length delays) ≤ remaining b →
    ∃ l1 rl1,
      acquire_each delays method endpoint guild_id (l, rl) = (Ok true, (l1, rl1))
      ∧ slept l1 = slept l
      ∧ now l1 = now l + total_delay delays
      ∧ buckets rl1 !! key
          = Some (with_remaining (remaining b - Z.of_nat (length delays)) b)
      ∧ locks rl1 !! key ≠ Some true
      ∧ global_idle (now l1) (global_rate_limit rl1).
Proof.
  intros Hk. induction delays as [|d ds IH]; intros l rl b Hb Hlock Hg Hr Hds Hn.
  - exists l, rl. simpl. repeat split; try done; try lia.
    rewrite Hb. f_equal. destruct b; unfold with_remaining; simpl. f_equal. lia.
  - apply Forall_cons in Hds as [Hd Hds]. simpl length in Hn.
    assert (Hr' : retry_pending (now (elapse d l)) b = false)
      by (apply (retry_pending_later (now l)); [done | simpl; lia]).
    assert (Hg' : global_idle (now (elapse d l)) (global_rate_limit rl)).
    { unfold global_idle in *. destruct (global_rate_limit rl); [|done].
      simpl. destruct Hg; [by left | right; lia]. }
    destruct (acquire_unlocked _ _ _ _ (elapse d l) rl b Hk Hb Hlock Hg')
      as (rl' & Hacq & Hb' & Hlock' & Hglob').
    rewrite (wait_for_bucket_budget _ _ Hr') in Hacq, Hb' by lia.
    cbn [fst snd] in Hacq, Hb'.
    assert (Hcons : consume b = with_remaining (remaining b - 1) b).
    { unfold consume. destruct (Z.ltb_spec 0 (remaining b)); [done|lia]. }
    rewrite Hcons in Hb'.
    destruct (IH (elapse d l) rl' _ Hb' Hlock') as (l1 & rl1 & Hrun & Hs & Hnow & Hb1 & Hl1 & Hg1).
    + by rewrite Hglob'.
    + done.
    + done.
    + simpl. lia.
    + exists l1, rl1. cbn [acquire_each fst snd]. rewrite Hacq.
      repeat split; try done.
      * rewrite Hnow. simpl. lia.
      * rewrite Hb1. f_equal. unfold with_remaining. simpl. f_equal. lia.
Qed.

(** C3: a bucket with [remaining = limit = N], no retry-after pending, no
    global cooldown running and its lock free serves [N] consecutive calls
    without any [asyncio.sleep]; the next call, made before the reset time,
    sleeps exactly until the reset time, refills [remaining] to [limit],
    clears the retry-after, and then takes its own unit. *)
Theorem acquire_budget_then_wait (method endpoint : string)
    (guild_id : option string) (key : string) (l : Loop)
    (rl : DiscordRateLimiter) (b : RateLimitBucket) (N : nat)
    (delays : list Z) (d : Z) :
  _get_bucket_key method endpoint guild_id = inr key →
  buckets rl !! key = Some b →
  remaining b = Z.of_nat N →
  limit b = Z.of_nat N →
  retry_pending (now l) b = false →
  global_idle (now l) (global_rate_limit rl) →
  locks rl !! key ≠ Some true →
  length delays = N →
  Forall (fun d => 0 ≤ d) delays →
  0 ≤ d →
  now l + total_delay delays + d < reset_timestamp b →
  ∃ l1 rl1 l2 rl2,
    acquire_each delays method endpoint guild_id (l, rl) = (Ok true, (l1, rl1))
    ∧ slept l1 = slept l
    ∧ acquire method endpoint guild_id (elapse d l1, rl1) = (Ok true, (l2, rl2))
    ∧ slept l2 = slept l ++ [reset_timestamp b - (now l1 + d)]
    ∧ now l2 = reset_timestamp b
    ∧ wait_for_bucket (elapse d l1) (with_remaining 0 b) = (l2, refill b)
    ∧ remaining (refill b) = limit b
    ∧ retry_after (refill b) = None
    ∧ buckets rl2 !! key = Some (consume (refill b)).
Proof.
  intros Hk Hb Hrem Hlim Hr Hg Hlock Hlen Hds Hd Hfut.
  pose proof (acquire_each_within_budget _ _ _ _ delays Hk l rl b Hb Hlock Hg Hr Hds)
    as Hbudget.
  destruct Hbudget as (l1 & rl1 & Hrun & Hs & Hnow & Hb1 & Hl1 & Hg1); [lia|].
  rewrite Hlen, Hrem, Z.sub_diag in Hb1.
  assert (Hfds : 0 ≤ total_delay delays).
  { clear -Hds. induction Hds; simpl; lia. }
  assert (Hr1 : retry_pending (now (elapse d l1)) (with_remaining 0 b) = false).
  { apply (retry_pending_later (now l) _ b Hr). simpl. lia. }
  assert (Hg1' : global_idle (now (elapse d l1)) (global_rate_limit rl1)).
  { unfold global_idle in *. destruct (global_rate_limit rl1); [|done].
    simpl. destruct Hg1; [by left | right; lia]. }
  destruct (acquire_unlocked _ _ _ _ (elapse d l1) rl1 _ Hk Hb1 Hl1 Hg1')
    as (rl2 & Hacq & Hb2 & _ & _).
  assert (Hw : wait_for_bucket (elapse d l1) (with_remaining 0 b)
               = (sleep (reset_timestamp b - (now l1 + d)) (elapse d l1),
                  refill (with_remaining 0 b))).
  { rewrite wait_for_bucket_exhausted; [reflexivity | exact Hr1 | simpl; lia ..]. }
  rewrite Hw in Hacq, Hb2. cbn [fst snd] in Hacq, Hb2.
  exists l1, rl1, (sleep (reset_timestamp b - (now l1 + d)) (elapse d l1)), rl2.
  repeat split; try done.
  - simpl. by rewrite Hs.
  - simpl. lia.
Qed.

Lemma acquire_budget_then_wait_witness :
  let b := mkBucket 2 2 0 100 (Some 0) in
  let rl := mkLimiter "bot" {["dm_channels" := b]} ∅ None in
  ∃ l1 rl1 l2 rl2,
    acquire_each [3; 4] "POST" "/users/@me/channels" None (mkLoop 0 [], rl)
      = (Ok true, (l1, rl1))
    ∧ slept l1 = []
    ∧ acquire "POST" "/users/@me/channels" None (elapse 5 l1, rl1) = (Ok true, (l2, rl2))
    ∧ slept l2 = [] ++ [100 - (now l1 + 5)]
    ∧ now l2 = 100
    ∧ wait_for_bucket (elapse 5 l1) (with_remaining 0 b) = (l2, refill b)
    ∧ remaining (refill b) = limit b
    ∧ retry_after (refill b) = None
    ∧ buckets rl2 !! "dm_channels" = Some (consume (refill b)).
Proof.
  intros b rl.
  apply (acquire_budget_then_wait "POST" "/users/@me/channels" None "dm_channels"
           (mkLoop 0 []) rl b 2 [3; 4] 5).
  - reflexivity.
  - reflexivity.
  - reflexivity.
  - reflexivity.
  - reflexivity.
  - exact I.
  - vm_compute. discriminate.
  - reflexivity.
  - repeat constructor; lia.
  - lia.
  - vm_compute. reflexivity.
Defined.

(** C7: for every method, endpoint and limiter state a call neither raises
    nor returns [False]: it returns [True], unless the bucket's lock is
    held by another call, in which case it waits for that lock. *)
Theorem acquire_never_fails (method endpoint : string) (guild_id : option string)
    (l : Loop) (rl : DiscordRateLimiter) :
  fst (acquire method endpoint guild_id (l, rl)) = Ok true
  ∨ (fst (acquire method endpoint guild_id (l, rl)) = Hang
     ∧ ∃ key, _get_bucket_key method endpoint guild_id = inr key
              ∧ locks rl !! key = Some true).
Proof.
  destruct (bucket_key_total method endpoint guild_id) as [key Hk].
  unfold acquire. rewrite Hk.
  destruct (locks rl !! key) as [held|] eqn:El.
  - rewrite El. destruct held.
    + right. split; [reflexivity|]. exists key. done.
    + left. destruct (wait_for_global _ _), (wait_for_bucket _ _). reflexivity.
  - rewrite lookup_insert_eq. left.
    destruct (wait_for_global _ _), (wait_for_bucket _ _). reflexivity.
Qed.

(** *** The campaign pacer *)

Lemma foldl_min_above (c x : Z) (xs : list Z) :
  c < x → Forall (fun t => c < t) xs → c < foldl Z.min x xs.
Proof.
  revert x. induction xs as [|y ys IH]; intros x Hx Hall; simpl; [done|].
  apply Forall_cons in Hall as [Hy Hys]. apply IH; [lia|done].
Qed.

(** A call that finds the window full never returns: after its sleep it
    calls [acquire] again while it still holds the lock. *)
Lemma pacer_full_window_never_returns (fuel : nat) (l : Loop)
    (p : CampaignRateLimiter) :
  lock p = false →
  0 < messages_per_minute p →
  messages_per_minute p
    ≤ Z.of_nat (length (filter (fun t => now l - minute < t) (message_times p))) →
  pacer_acquire fuel (l, p) = None
  ∨ ∃ s', pacer_acquire fuel (l, p) = Some (Hang, s').
Proof.
  intros Hlock Hpos Hfull. destruct fuel as [|fuel]; [by left|].
  cbn [pacer_acquire]. rewrite Hlock.
  set (times := filter (fun t => now l - minute < t) (message_times p)) in *.
  destruct (Z.geb_spec (Z.of_nat (length times)) (messages_per_minute p)) as [_|]; [|lia].
  destruct times as [|x xs] eqn:Et; [simpl in Hfull; lia|].
  cbn [py_min].
  assert (Hall : Forall (fun t => now l - minute < t) (x :: xs)).
  { rewrite <- Et. apply Forall_forall. intros t Ht.
    by apply list_elem_of_filter in Ht as [? _]. }
  apply Forall_cons in Hall as [Hx Hxs].
  pose proof (foldl_min_above _ _ _ Hx Hxs) as Hmin.
  destruct (Z.ltb_spec 0 (minute - (now l - foldl Z.min x xs))); [|lia].
  destruct fuel as [|fuel]; [by left|].
  right. cbn [pacer_acquire lock]. eauto.
Qed.

(** While the window has room, a call returns at once and records its time. *)
Lemma pacer_room_returns (fuel : nat) (l : Loop) (p : CampaignRateLimiter) :
  lock p = false →
  Z.of_nat (length (filter (fun t => now l - minute < t) (message_times p)))
    < messages_per_minute p →
  pacer_acquire (S fuel) (l, p)
  = Some (Ok true,
          (l, mkPacer (messages_per_minute p)
                (filter (fun t => now l - minute < t) (message_times p) ++ [now l])
                false)).
Proof.
  intros Hlock Hroom. cbn [pacer_acquire]. rewrite Hlock.
  destruct (Z.geb_spec
              (Z.of_nat (length (filter (fun t => now l - minute < t) (message_times p))))
              (messages_per_minute p)); [lia|done].
Qed.

Lemma filter_window_replicate (t0 t : Z) (k : nat) :
  t - minute < t0 →
  filter (fun x => t - minute < x) (replicate k t0) = replicate k t0.
Proof.
  intros Hin. induction k as [|k IH]; [done|].
  simpl. rewrite filter_cons, IH. by destruct (decide (t - minute < t0)).
Qed.

Lemma replicate_snoc {A} (k : nat) (x : A) : replicate k x ++ [x] = replicate (S k) x.
Proof. induction k as [|k IH]; [done|]. simpl. by rewrite IH. Qed.

(** Calls made at one instant while the window has room all return at once. *)
Lemma pacer_fills_window (mpm t0 : Z) (sl : list Z) (fuel n : nat) :
  ∀ k, Z.of_nat (k + n) ≤ mpm →
       pacer_acquire_n (S fuel) n (mkLoop t0 sl, mkPacer mpm (replicate k t0) false)
       = Some (Ok true, (mkLoop t0 sl, mkPacer mpm (replicate (k + n) t0) false)).
Proof.
  induction n as [|n IH]; intros k Hk.
  - by rewrite Nat.add_0_r.
  - cbn [pacer_acquire_n].
    rewrite pacer_room_returns; cbn [now message_times messages_per_minute lock].
    + rewrite filter_window_replicate by (unfold minute; lia).
      rewrite replicate_snoc, IH by lia. by rewrite Nat.add_succ_r.
    + done.
    + rewrite filter_window_replicate by (unfold minute; lia).
      rewrite length_replicate. lia.
Qed.

(** C1 (the code departs from the claim): with [messages_per_minute = 10],
    ten calls made at time [t0] return at once without sleeping; an
    eleventh call made before the first slot has aged out does not return,
    however long it is given: after its sleep it waits for ever on the lock
    it holds itself. *)
Theorem pacer_eleventh_call_hangs (fuel fuel' : nat) (t0 t : Z) :
  t0 ≤ t →
  t < t0 + minute →
  pacer_acquire_n (S fuel) 10 (mkLoop t0 [], new_pacer 10)
    = Some (Ok true, (mkLoop t0 [], mkPacer 10 (replicate 10 t0) false))
  ∧ (pacer_acquire fuel' (mkLoop t [], mkPacer 10 (replicate 10 t0) false) = None
     ∨ ∃ s', pacer_acquire fuel' (mkLoop t [], mkPacer 10 (replicate 10 t0) false)
             = Some (Hang, s')).
Proof.
  intros Hle Hlt. split.
  - apply (pacer_fills_window 10 t0 [] fuel 10 0). simpl. lia.
  - apply pacer_full_window_never_returns; cbn [lock messages_per_minute now message_times].
    + done.
    + lia.
    + rewrite filter_window_replicate by lia. rewrite length_replicate. lia.
Qed.

Lemma pacer_eleventh_call_hangs_witness :
  pacer_acquire_n 3 10 (mkLoop 0 [], new_pacer 10)
    = Some (Ok true, (mkLoop 0 [], mkPacer 10 (replicate 10 0) false))
  ∧ (pacer_acquire 5 (mkLoop 0 [], mkPacer 10 (replicate 10 0) false) = None
     ∨ ∃ s', pacer_acquire 5 (mkLoop 0 [], mkPacer 10 (replicate 10 0) false)
             = Some (Hang, s')).
Proof.
  apply (pacer_eleventh_call_hangs 2 5 0 0).
  - lia.
  - unfold minute. lia.
Defined.

(** The same run, evaluated: the eleventh call sleeps the 60 seconds and is
    then stuck with the lock held. *)
Example pacer_eleventh_call_evaluated :
  pacer_acquire 5 (mkLoop 0 [], mkPacer 10 (replicate 10 0) false)
  = Some (Hang, (mkLoop 60000 [60000], mkPacer 10 (replicate 10 0) true)).
Proof. reflexivity. Qed.

End RateLimiterFacts.

(** ** The assignment store *)

Module AssignmentFacts.
Import Assignment.

(** How a store call can end: it ran its effect normally, or it raised
    with the effect either skipped or applied. *)
Lemma store_call_cases {A} (op : M World A) (w : World) :
  store_call op w = op (consume_event w)
  ∨ ∃ e, fst (store_call op w) = Exc e
         ∧ (snd (store_call op w) = consume_event w
            ∨ snd (store_call op w) = snd (op (consume_event w))).
Proof.
  unfold store_call. destruct (head_event (oracle w)); simpl; eauto.
Qed.

(** *** Counting active documents *)

Definition count (g u : string) (w : World) : nat :=
  length (active_rows g u (assignments w)).

(** [m] never writes the collection. *)
Definition still {A} (m : M World A) : Prop :=
  ∀ w, assignments (snd (m w)) = assignments w.

(** [m] leaves every pair with at most one active document, or with no more
    than it had. *)
Definition tame {A} (m : M World A) : Prop :=
  ∀ w g u, (count g u (snd (m w)) ≤ Nat.max 1 (count g u w))%nat.

Lemma still_tame {A} (m : M World A) : still m → tame m.
Proof. intros Hm w g u. unfold count. rewrite Hm. lia. Qed.

Lemma still_ret {A} (a : A) : still (mret a : M World A).
Proof. by intros w. Qed.

Lemma still_bind {A B} (m : M World A) (k : A → M World B) :
  still m → (∀ a, still (k a)) → still (m ≫= k).
Proof.
  intros Hm Hk w. specialize (Hm w).
  unfold mbind, M_bind, bind. destruct (m w) as [[a|e|] w1]; simpl in *; try done.
  by rewrite Hk.
Qed.

Lemma tame_bind {A B} (m : M World A) (k : A → M World B) :
  tame m → (∀ a, tame (k a)) → tame (m ≫= k).
Proof.
  intros Hm Hk w g u. specialize (Hm w g u).
  unfold mbind, M_bind, bind. destruct (m w) as [[a|e|] w1]; simpl in *; try done.
  specialize (Hk a w1 g u). lia.
Qed.

Lemma still_try_except {A} (body : M World A) (handler : exn → M World A) :
  still body → (∀ e, still (handler e)) → still (try_except body handler).
Proof.
  intros Hb Hh w. specialize (Hb w). unfold try_except.
  destruct (body w) as [[a|e|] w1]; simpl in *; try done.
  destruct (is_Exception e); [|done]. by rewrite Hh.
Qed.

Lemma tame_try_except {A} (body : M World A) (handler : exn → M World A) :
  tame body → (∀ e, tame (handler e)) → tame (try_except body handler).
Proof.
  intros Hb Hh w g u. specialize (Hb w g u). unfold try_except.
  destruct (body w) as [[a|e|] w1]; simpl in *; try done.
  destruct (is_Exception e); [|done]. specialize (Hh e w1 g u). lia.
Qed.

Lemma still_store_call {A} (op : M World A) : still op → still (store_call op).
Proof.
  intros Hop w. destruct (store_call_cases op w) as [E | (e & _ & [E | E])];
    rewrite E; [by rewrite Hop | done | by rewrite Hop].
Qed.

Lemma still_get_collection : still (get_collection : M World unit).
Proof. intros w. unfold get_collection. by destruct (connected w). Qed.

Lemma still_gets {A} (f : World → A) : still (gets f).
Proof. by intros w. Qed.

Lemma still_log_error (line : string) : still (log_error line).
Proof. by intros w. Qed.

Lemma still_randbelow (n : nat) : still (randbelow n).
Proof. by intros w. Qed.

Lemma still_shuffle_from {A} (i : nat) (x : list A) : still (shuffle_from i x).
Proof.
  revert x. induction i as [|i IH]; intros x; [apply still_ret|].
  apply still_bind; [apply still_randbelow | intros j; apply IH].
Qed.

Lemma still_choice {A} (xs : list A) : still (choice xs).
Proof.
  destruct xs as [|x xs]; [by intros w|].
  apply still_bind; [apply still_randbelow|].
  intros i. by destruct ((x :: xs) !! i); intros w.
Qed.

Lemma still_find_one (P : MemberBotAssignment → bool) : still (find_one P).
Proof. apply still_store_call, still_gets. Qed.

Lemma still_count_documents (P : MemberBotAssignment → bool) :
  still (count_documents P).
Proof. apply still_store_call, still_gets. Qed.

Lemma still_count_assignments (g : string) (bots : list Bot)
    (counts : gmap string nat) : still (count_assignments g bots counts).
Proof.
  revert counts. induction bots as [|bot bots IH]; intros counts; [apply still_ret|].
  apply still_bind; [apply still_count_documents | intros c; apply IH].
Qed.

(** *** What the writes do to the counts *)

Definition rewrite_with (P : MemberBotAssignment → bool)
    (f : MemberBotAssignment → MemberBotAssignment) (a : MemberBotAssignment)
  : MemberBotAssignment :=
  if P a then f a else a.

(** [update_many] rewrites a prefix of the matching documents, and all of
    them when it returns normally. *)
Lemma update_many_loop_shape (uniq : bool) (P : MemberBotAssignment → bool)
    (f : MemberBotAssignment → MemberBotAssignment)
    (todo done : list MemberBotAssignment) (n : nat) :
  ∃ k, snd (update_many_loop uniq P f done todo n)
         = done ++ map (rewrite_with P f) (take k todo) ++ drop k todo
       ∧ ((∃ m, fst (update_many_loop uniq P f done todo n) = Ok m
                ∧ (length todo ≤ k)%nat)
          ∨ fst (update_many_loop uniq P f done todo n) = Exc DuplicateKeyError).
Proof.
  revert done n. induction todo as [|a todo IH]; intros done n.
  - exists 0%nat. simpl. split; [by rewrite app_nil_r|]. left. eauto.
  - cbn [update_many_loop]. destruct (P a) eqn:HP.
    + destruct (rejected uniq a (f a) (done ++ todo)).
      * exists 0%nat. simpl. split; [done|]. by right.
      * destruct (IH (done ++ [f a]) (if decide (f a = a) then n else S n))
          as (k & Hk & Hr).
        exists (S k). split.
        -- rewrite Hk. simpl. unfold rewrite_with at 2. rewrite HP.
           by rewrite <- app_assoc.
        -- destruct Hr as [(m & Hm & Hlen) | Hr]; [left | by right].
           exists m. split; [done | simpl; lia].
    + destruct (IH (done ++ [a]) n) as (k & Hk & Hr).
      exists (S k). split.
      * rewrite Hk. simpl. unfold rewrite_with at 2. rewrite HP.
        by rewrite <- app_assoc.
      * destruct Hr as [(m & Hm & Hlen) | Hr]; [left | by right].
        exists m. split; [done | simpl; lia].
Qed.

Lemma length_filter_map_le {A} (Q : A → Prop) `{∀ x, Decision (Q x)}
    (h : A → A) (l : list A) :
  (∀ a, Q (h a) → Q a) →
  (length (filter Q (map h l)) ≤ length (filter Q l))%nat.
Proof.
  intros Hh. induction l as [|a l IH]; [done|].
  simpl. rewrite !filter_cons.
  destruct (decide (Q (h a))) as [Hq|Hq].
  - destruct (decide (Q a)) as [|Hn]; [simpl; lia | destruct Hn; auto].
  - destruct (decide (Q a)); simpl; lia.
Qed.

Lemma length_filter_partial_map_le {A} (Q : A → Prop) `{∀ x, Decision (Q x)}
    (h : A → A) (l : list A) (k : nat) :
  (∀ a, Q (h a) → Q a) →
  (length (filter Q (map h (take k l) ++ drop k l)) ≤ length (filter Q l))%nat.
Proof.
  intros Hh. rewrite <- (take_drop k l) at 3.
  rewrite !filter_app, !length_app.
  pose proof (length_filter_map_le Q h (take k l) Hh). lia.
Qed.

Lemma store_call_count_le {A} (op : M World A) (g u : string) :
  (∀ w0, (count g u (snd (op w0)) ≤ count g u w0)%nat) →
  ∀ w, (count g u (snd (store_call op w)) ≤ count g u w)%nat.
Proof.
  intros Hop w. pose proof (Hop (consume_event w)) as H.
  destruct (store_call_cases op w) as [E | (e & _ & [E | E])]; rewrite E;
    [exact H | done | exact H].
Qed.

Lemma store_call_count_eq {A} (op : M World A) (g u : string) :
  (∀ w0, count g u (snd (op w0)) = count g u w0) →
  ∀ w, count g u (snd (store_call op w)) = count g u w.
Proof.
  intros Hop w. pose proof (Hop (consume_event w)) as H.
  destruct (store_call_cases op w) as [E | (e & _ & [E | E])]; rewrite E;
    [exact H | done | exact H].
Qed.

(** An update that activates nothing and moves no document to another
    pair. *)
Definition calming (f : MemberBotAssignment → MemberBotAssignment) : Prop :=
  ∀ a g u, active_for g u (f a) = true → active_for g u a = true.

Lemma calming_rewrite_with P f a g u :
  calming f → active_for g u (rewrite_with P f a) = true → active_for g u a = true.
Proof. intros Hf. unfold rewrite_with. destruct (P a); [apply Hf | done]. Qed.

Lemma update_many_loop_counts (uniq : bool) P f rows (g u : string) :
  calming f →
  (length (active_rows g u (snd (update_many_loop uniq P f [] rows 0)))
   ≤ length (active_rows g u rows))%nat.
Proof.
  intros Hf. destruct (update_many_loop_shape uniq P f rows [] 0) as (k & -> & _).
  simpl. unfold active_rows.
  apply (length_filter_partial_map_le (fun a => active_for g u a = true)).
  intros a. by apply calming_rewrite_with.
Qed.

Lemma update_many_counts P f (w : World) (g u : string) :
  calming f → (count g u (snd (update_many P f w)) ≤ count g u w)%nat.
Proof.
  intros Hf. unfold update_many. apply store_call_count_le. intros w0.
  pose proof (update_many_loop_counts (unique_index w0) P f (assignments w0) g u Hf).
  destruct (update_many_loop _ _ _ _ _ _) as [r rows]. done.
Qed.

Lemma tame_update_many P f : calming f → tame (update_many P f).
Proof. intros Hf w g u. pose proof (update_many_counts P f w g u Hf). lia. Qed.

Lemma calming_move_to new t : calming (move_to new t).
Proof. intros a g u. done. Qed.

Lemma calming_deactivate : calming deactivate.
Proof.
  intros a g u. unfold active_for, deactivate. simpl.
  rewrite andb_false_r. discriminate.
Qed.

Lemma calming_deactivate_at t : calming (deactivate_at t).
Proof.
  intros a g u. unfold active_for, deactivate_at. simpl.
  rewrite andb_false_r. discriminate.
Qed.

(** After a deactivation that returned normally the pair has no active
    document left. *)
Lemma deactivated_all (g u : string) (rows : list MemberBotAssignment) :
  active_rows g u (map (rewrite_with (rows_of g u) deactivate) rows) = [].
Proof.
  unfold active_rows. induction rows as [|a rows IH]; [done|].
  simpl. rewrite filter_cons, IH.
  destruct (decide _) as [Hact|]; [|done]. exfalso.
  unfold rewrite_with, rows_of, active_for in Hact.
  destruct (String.eqb (guild_id a) g && String.eqb (user_id a) u) eqn:E.
  - simpl in Hact. rewrite andb_false_r in Hact. discriminate.
  - rewrite E in Hact. discriminate.
Qed.

Lemma update_many_deactivate_ok (g u : string) (w w' : World) (n : nat) :
  update_many (rows_of g u) deactivate w = (Ok n, w') →
  assignments w'
    = map (rewrite_with (rows_of g u) deactivate) (assignments w).
Proof.
  unfold update_many, store_call. intros E.
  destruct (head_event (oracle w)); try discriminate.
  destruct (update_many_loop_shape (unique_index (consume_event w)) (rows_of g u)
              deactivate (assignments (consume_event w)) [] 0) as (k & Hk & Hr).
  destruct (update_many_loop _ _ _ _ _ _) as [r rows] eqn:El.
  simpl in Hk, Hr. inversion E; subst. simpl.
  destruct Hr as [(m & _ & Hlen) | ?]; [|discriminate].
  rewrite take_ge, drop_ge by done. by rewrite app_nil_r.
Qed.

Lemma insert_one_rows (a : MemberBotAssignment) (w : World) :
  assignments (snd (insert_one a w)) = assignments w
  ∨ assignments (snd (insert_one a w)) = assignments w ++ [a].
Proof.
  unfold insert_one, store_call.
  destruct (head_event (oracle w)); simpl; auto;
    destruct (unique_index _ && existsb (same_key a) _); simpl; auto.
Qed.

Lemma count_after_insert (a : MemberBotAssignment) (w : World) (g u : string) :
  (count g u (snd (insert_one a w))
   ≤ count g u w + (if active_for g u a then 1 else 0))%nat.
Proof.
  unfold count. destruct (insert_one_rows a w) as [-> | ->]; [lia|].
  unfold active_rows. rewrite filter_app, length_app, filter_cons, filter_nil.
  destruct (decide _) as [->|Hn]; simpl; [lia|].
  destruct (active_for g u a); [congruence | simpl; lia].
Qed.

(** Deactivate-then-insert, the supersession of the source. *)
Lemma tame_supersede {A} (g u : string) (a : MemberBotAssignment)
    (k : M World A) :
  guild_id a = g → user_id a = u → still k →
  tame (update_many (rows_of g u) deactivate ;; insert_one a ;; k).
Proof.
  intros Hg Hu Hk w g' u'.
  pose proof (update_many_counts (rows_of g u) deactivate w g' u' calming_deactivate) as Hle.
  destruct (update_many (rows_of g u) deactivate w) as [[n|e|] w1] eqn:E1.
  - rewrite (bind_ok _ _ _ _ _ E1).
    pose proof (count_after_insert a w1 g' u') as Hins.
    assert (Hzero : active_for g' u' a = true → count g' u' w1 = 0%nat).
    { intros Ha. unfold active_for in Ha.
      apply andb_prop in Ha as [Ha _]. apply andb_prop in Ha as [Hg' Hu'].
      apply String.eqb_eq in Hg', Hu'. subst g' u' g u.
      unfold count. rewrite (update_many_deactivate_ok _ _ _ _ _ E1).
      by rewrite deactivated_all. }
    simpl in Hle.
    destruct (insert_one a w1) as [[[]|e|] w2] eqn:E2; simpl in Hins.
    + rewrite (bind_ok _ _ _ _ _ E2). unfold count at 1. rewrite Hk. fold (count g' u' w2).
      destruct (active_for g' u' a); [rewrite Hzero in Hins by done|]; lia.
    + rewrite (bind_exc _ _ _ _ _ E2). simpl.
      destruct (active_for g' u' a); [rewrite Hzero in Hins by done|]; lia.
    + rewrite (bind_hang _ _ _ _ E2). simpl.
      destruct (active_for g' u' a); [rewrite Hzero in Hins by done|]; lia.
  - rewrite (bind_exc _ _ _ _ _ E1). simpl in *. lia.
  - rewrite (bind_hang _ _ _ _ E1). simpl in *. lia.
Qed.

Lemma length_filter_insert_same {A} (Q : A → Prop) `{∀ x, Decision (Q x)}
    (l : list A) (i : nat) (x y : A) :
  l !! i = Some x → (Q y ↔ Q x) →
  length (filter Q (<[i := y]> l)) = length (filter Q l).
Proof.
  intros Hi Hq.
  rewrite insert_take_drop by (by eapply lookup_lt_Some).
  rewrite <- (take_drop_middle l i x Hi) at 3.
  rewrite !filter_app, !length_app, !filter_cons.
  destruct (decide (Q y)) as [Hy|Hy], (decide (Q x)) as [Hx|Hx]; simpl; try lia.
  - destruct Hx. by apply Hq.
  - destruct Hy. by apply Hq.
Qed.

(** An update that changes neither the pair nor the flag. *)
Definition neutral (f : MemberBotAssignment → MemberBotAssignment) : Prop :=
  ∀ a g u, active_for g u (f a) = active_for g u a.

Lemma update_one_counts (id : nat) f (w : World) (g u : string) :
  neutral f → count g u (snd (update_one id f w)) = count g u w.
Proof.
  intros Hf. unfold update_one. apply store_call_count_eq. intros w0.
  destruct (assignments w0 !! id) as [a|] eqn:Ea; [|done].
  destruct (rejected _ _ _ _); [done|]. simpl. unfold count, active_rows. simpl.
  apply (length_filter_insert_same (fun a => active_for g u a = true) _ _ a); [done|].
  by rewrite Hf.
Qed.

Lemma tame_update_one (id : nat) f : neutral f → tame (update_one id f).
Proof. intros Hf w g u. rewrite (update_one_counts id f w g u Hf). lia. Qed.

Lemma neutral_touch t : neutral (touch t).
Proof. by intros a g u. Qed.

Lemma neutral_use_fallback fb t : neutral (use_fallback fb t).
Proof. by intros a g u. Qed.

(** *** The operations are tame *)

Lemma tame_create_new_assignment (g u : string) (bots : list Bot) :
  tame (_create_new_assignment g u bots).
Proof.
  unfold _create_new_assignment. destruct bots as [|first others].
  { apply still_tame, still_ret. }
  apply tame_try_except.
  - apply tame_bind; [apply still_tame, still_get_collection | intros _].
    apply tame_bind; [apply still_tame, still_count_assignments | intros counts].
    apply tame_bind; [apply still_tame, still_shuffle_from | intros fb].
    apply tame_bind; [apply still_tame, still_gets | intros t].
    apply tame_supersede; [done | done | apply still_ret].
  - intros e. apply still_tame.
    apply still_bind; [apply still_log_error | intros _].
    apply still_bind; [apply still_choice | intros bot; apply still_ret].
Qed.

Lemma tame_get_or_create_assignment (g u : string) (bots : list Bot) :
  tame (get_or_create_assignment g u bots).
Proof.
  unfold get_or_create_assignment. apply tame_try_except.
  - apply tame_bind; [apply still_tame, still_get_collection | intros _].
    apply tame_bind; [apply still_tame, still_find_one | intros existing].
    apply tame_bind.
    + destruct existing as [[id a]|]; [|apply still_tame, still_ret].
      destruct (is_available bots (assigned_bot_id a)).
      * apply tame_bind; [apply still_tame, still_gets | intros t].
        apply tame_bind; [apply tame_update_one, neutral_touch | intros _].
        apply still_tame, still_ret.
      * destruct (find _ _); [|apply still_tame, still_ret].
        apply tame_bind; [apply still_tame, still_gets | intros t].
        apply tame_bind; [apply tame_update_one, neutral_use_fallback | intros _].
        apply still_tame, still_ret.
    + intros [b|]; [apply still_tame, still_ret | apply tame_create_new_assignment].
  - intros e. apply still_tame.
    apply still_bind; [apply still_log_error | intros _; apply still_ret].
Qed.

Lemma tame_reassign_bot_members (old new g : string) :
  tame (reassign_bot_members old new g).
Proof.
  unfold reassign_bot_members. apply tame_try_except.
  - apply tame_bind; [apply still_tame, still_get_collection | intros _].
    apply tame_bind; [apply still_tame, still_gets | intros t].
    apply tame_bind; [apply tame_update_many, calming_move_to | intros n].
    apply still_tame, still_ret.
  - intros e. apply still_tame.
    apply still_bind; [apply still_log_error | intros _; apply still_ret].
Qed.

Lemma tame_deactivate_member_assignment (g u : string) :
  tame (_deactivate_member_assignment g u).
Proof.
  unfold _deactivate_member_assignment. apply tame_try_except.
  - apply tame_bind; [apply still_tame, still_get_collection | intros _].
    apply tame_bind; [apply still_tame, still_gets | intros t].
    apply tame_bind; [apply tame_update_many, calming_deactivate_at | intros n].
    apply still_tame, still_ret.
  - intros e. apply still_tame, still_log_error.
Qed.

Lemma run_op_keeps_invariant (o : op) (w : World) :
  at_most_one_active (assignments w) →
  at_most_one_active (assignments (run_op o w)).
Proof.
  intros Hinv g u. specialize (Hinv g u).
  assert (Hstep : (count g u (run_op o w) ≤ Nat.max 1 (count g u w))%nat).
  { destruct o; simpl.
    - apply tame_get_or_create_assignment.
    - apply tame_reassign_bot_members.
    - apply tame_deactivate_member_assignment. }
  unfold count in Hstep. lia.
Qed.

(** C2: starting from a collection in which every (guild, member) pair has
    at most one active document, any sequence of resolutions, bulk
    reassignments and member departures, each run to its end, whatever
    fails or is cancelled inside them, ends in such a collection. *)
Theorem at_most_one_active_preserved (w w' : World) :
  at_most_one_active (assignments w) →
  rtc step w w' →
  at_most_one_active (assignments w').
Proof.
  intros Hinv Hsteps. induction Hsteps as [w | w w1 w2 Hstep _ IH]; [done|].
  apply IH. destruct Hstep as (w0 & o & Hrows & ->).
  apply run_op_keeps_invariant. by rewrite Hrows.
Qed.

(** A working store in which member [u] of guild [g] is assigned to bot
    [b1] and member [v] to bot [b2]. *)
Definition settled_world : World :=
  mkWorld true true
    [mkAssignment "g" "u" "b1" 0 (Some 0) 1 "new_assignment" [] true 0;
     mkAssignment "g" "v" "b2" 0 (Some 0) 1 "new_assignment" [] true 0]
    5 [] [] [] [].

Lemma at_most_one_active_preserved_witness :
  at_most_one_active
    (assignments
       (run_op (Reassign "b2" "b3" "g")
          (run_op (Resolve "g" "u" [mkBot "b2" "two" 0]) settled_world))).
Proof.
  apply (at_most_one_active_preserved settled_world).
  - intros g u. unfold active_rows. cbn [assignments settled_world].
    rewrite !filter_cons, filter_nil. unfold active_for. cbn [guild_id user_id is_active].
    destruct (String.eqb_spec "u" u), (String.eqb_spec "v" u), (String.eqb_spec "g" g);
      simplify_eq; cbn; repeat (destruct (decide _)); try done; cbn; lia.
  - eapply rtc_l; [eexists _, _; split; reflexivity|].
    eapply rtc_l; [eexists _, _; split; reflexivity|].
    apply rtc_refl.
Defined.

(** In that run the first resolution supersedes the stored assignment of
    [u], whose bot is no longer offered: the old document is deactivated and
    a new active one is inserted; the reassignment then moves both active
    documents of [b2] to [b3]. *)
Example supersession_round_trip :
  map (fun a => (user_id a, assigned_bot_id a, is_active a))
    (assignments
       (run_op (Reassign "b2" "b3" "g")
          (run_op (Resolve "g" "u" [mkBot "b2" "two" 0]) settled_world)))
  = [("u", "b1", false); ("v", "b3", true); ("u", "b3", true)].
Proof. vm_compute. reflexivity. Qed.

(** *** Failures never reach the caller *)

(** No cancellation of the running task is pending. *)
Definition uncancelled (w : World) : Prop := never_cancelled (events w).

Definition outcome_ok {A} (Q : A → Prop) (r : res A) : Prop :=
  match r with
  | Ok a => Q a
  | Exc e => is_Exception e = true
  | Hang => False
  end.

(** [m] returns a value in [Q] or raises an [Exception]. *)
Definition safe {A} (m : M World A) (Q : A → Prop) : Prop :=
  ∀ w, uncancelled w → uncancelled (snd (m w)) ∧ outcome_ok Q (fst (m w)).

(** [m] returns a value in [Q]. *)
Definition total {A} (m : M World A) (Q : A → Prop) : Prop :=
  ∀ w, uncancelled w → uncancelled (snd (m w)) ∧ ∃ a, fst (m w) = Ok a ∧ Q a.

Lemma total_safe {A} (m : M World A) (Q : A → Prop) : total m Q → safe m Q.
Proof.
  intros Hm w Hw. destruct (Hm w Hw) as (Hw' & a & Ha & Hq).
  split; [done|]. by rewrite Ha.
Qed.

Lemma total_ret {A} (a : A) (Q : A → Prop) : Q a → total (mret a) Q.
Proof. intros Hq w Hw. split; [done|]. by exists a. Qed.

Lemma total_bind {A B} (m : M World A) (k : A → M World B)
    (P : A → Prop) (Q : B → Prop) :
  total m P → (∀ a, P a → total (k a) Q) → total (m ≫= k) Q.
Proof.
  intros Hm Hk w Hw. destruct (Hm w Hw) as (Hw' & a & Ha & Hp).
  destruct (m w) as [r w1] eqn:E. simpl in *. subst r.
  rewrite (bind_ok _ _ _ _ _ E). by apply Hk.
Qed.

Lemma safe_bind {A B} (m : M World A) (k : A → M World B)
    (P : A → Prop) (Q : B → Prop) :
  safe m P → (∀ a, P a → safe (k a) Q) → safe (m ≫= k) Q.
Proof.
  intros Hm Hk w Hw. destruct (Hm w Hw) as (Hw' & Hr).
  destruct (m w) as [[a|e|] w1] eqn:E; simpl in *; [|by rewrite (bind_exc _ _ _ _ _ E)|done].
  rewrite (bind_ok _ _ _ _ _ E). by apply Hk.
Qed.

Lemma safe_weaken {A} (m : M World A) (P Q : A → Prop) :
  safe m P → (∀ a, P a → Q a) → safe m Q.
Proof.
  intros Hm Hpq w Hw. destruct (Hm w Hw) as (Hw' & Hr). split; [done|].
  destruct (fst (m w)); simpl in *; auto.
Qed.

Lemma total_try_except {A} (body : M World A) (handler : exn → M World A)
    (Q : A → Prop) :
  safe body Q → (∀ e, total (handler e) Q) → total (try_except body handler) Q.
Proof.
  intros Hb Hh w Hw. destruct (Hb w Hw) as (Hw' & Hr). unfold try_except.
  destruct (body w) as [[a|e|] w1]; simpl in *; [| |done].
  - split; [done|]. by exists a.
  - rewrite Hr. by apply Hh.
Qed.

Lemma uncancelled_consume (w : World) :
  uncancelled w →
  uncancelled (consume_event w) ∧ cancels (head_event (oracle w)) = false.
Proof.
  unfold uncancelled. simpl. intros Hn.
  split; [by apply never_cancelled_tail | by apply never_cancelled_head].
Qed.

Lemma safe_store_call {A} (op : M World A) (Q : A → Prop) :
  safe op Q → safe (store_call op) Q.
Proof.
  intros Hop w Hw. destruct (uncancelled_consume w Hw) as [Hw1 Hne].
  destruct (Hop _ Hw1) as [Hw2 Hr]. unfold store_call.
  destruct (head_event (oracle w)); simpl; try done.
Qed.

Lemma safe_get_collection : safe (get_collection : M World unit) (fun _ => True).
Proof. intros w Hw. unfold get_collection. by destruct (connected w). Qed.

Lemma total_gets {A} (f : World → A) : total (gets f) (fun _ => True).
Proof. intros w Hw. split; [done|]. by exists (f w). Qed.

Lemma total_log_error (line : string) : total (log_error line) (fun _ => True).
Proof. intros w Hw. split; [done|]. by exists tt. Qed.

Lemma total_randbelow (n : nat) :
  (0 < n)%nat → total (randbelow n) (fun i => (i < n)%nat).
Proof.
  intros Hn w Hw. split; [done|]. eexists. split; [reflexivity|].
  apply Nat.mod_upper_bound. lia.
Qed.

Lemma total_shuffle_from {A} (i : nat) (x : list A) :
  total (shuffle_from i x) (fun _ => True).
Proof.
  revert x. induction i as [|i IH]; intros x; [by apply total_ret|].
  eapply total_bind; [apply (total_randbelow (S (S i))); lia | intros j _; apply IH].
Qed.

Lemma total_choice {A} (xs : list A) :
  xs ≠ [] → total (choice xs) (fun x => x ∈ xs).
Proof.
  intros Hne. destruct xs as [|x xs]; [done|]. unfold choice.
  eapply total_bind; [apply (total_randbelow (length (x :: xs))); simpl; lia|].
  intros i Hi. destruct (lookup_lt_is_Some_2 (x :: xs) i Hi) as [y Hy].
  rewrite Hy. apply total_ret. by eapply list_elem_of_lookup_2.
Qed.

Lemma safe_find_one P : safe (find_one P) (fun r =>
  ∀ id a, r = Some (id, a) → P a = true).
Proof.
  apply safe_store_call. intros w Hw. split; [done|]. simpl.
  intros id a Hf. by apply list_find_Some in Hf as (_ & Hp & _).
Qed.

Lemma safe_count_documents P : safe (count_documents P) (fun _ => True).
Proof. apply safe_store_call, total_safe, total_gets. Qed.

Lemma safe_count_assignments (g : string) (bots : list Bot)
    (counts : gmap string nat) :
  safe (count_assignments g bots counts) (fun _ => True).
Proof.
  revert counts. induction bots as [|bot bots IH]; intros counts.
  - by apply total_safe, total_ret.
  - eapply safe_bind; [apply safe_count_documents | intros c _; apply IH].
Qed.

Lemma safe_update_one id f : safe (update_one id f) (fun _ => True).
Proof.
  apply safe_store_call. intros w Hw.
  destruct (assignments w !! id) as [a|]; [|done].
  by destruct (rejected _ _ _ _).
Qed.

Lemma safe_update_many P f : safe (update_many P f) (fun _ => True).
Proof.
  apply safe_store_call. intros w Hw.
  destruct (update_many_loop_shape (unique_index w) P f (assignments w) [] 0)
    as (k & _ & Hr).
  destruct (update_many_loop _ _ _ _ _ _) as [r rows]. simpl in *.
  split; [done|]. destruct Hr as [(m & -> & _) | ->]; done.
Qed.

Lemma safe_insert_one a : safe (insert_one a) (fun _ => True).
Proof.
  apply safe_store_call. intros w Hw.
  by destruct (unique_index w && existsb (same_key a) (assignments w)).
Qed.

Lemma min_from_elem {A} (key : A → nat) (best : A) (xs : list A) :
  min_from key best xs ∈ best :: xs.
Proof.
  revert best. induction xs as [|x xs IH]; intros best; simpl.
  { apply list_elem_of_here. }
  destruct (key x <? key best)%nat.
  - apply list_elem_of_further, IH.
  - pose proof (IH best) as Hb. apply elem_of_cons in Hb as [Hb|Hb].
    + rewrite Hb. apply list_elem_of_here.
    + by do 2 apply list_elem_of_further.
Qed.

(** The answer names one of the bots that were offered. *)
Definition from_bots (bots : list Bot) (v : option string) : Prop :=
  ∃ bot, bot ∈ bots ∧ v = Some (bot_id bot).

Lemma is_available_elem (bots : list Bot) (b : string) :
  is_available bots b = true → ∃ bot, bot ∈ bots ∧ b = bot_id bot.
Proof.
  unfold is_available. intros H. apply existsb_exists in H as (bot & Hin & Heq).
  exists bot. split; [by apply list_elem_of_In|]. symmetry. by apply String.eqb_eq.
Qed.

Lemma is_available_of_elem (bots : list Bot) (bot : Bot) :
  bot ∈ bots → is_available bots (bot_id bot) = true.
Proof.
  intros Hin. unfold is_available. apply existsb_exists. exists bot.
  split; [by apply list_elem_of_In | apply String.eqb_refl].
Qed.

Lemma total_create_new_assignment (g u : string) (bots : list Bot) :
  bots ≠ [] → total (_create_new_assignment g u bots) (from_bots bots).
Proof.
  intros Hne. unfold _create_new_assignment. destruct bots as [|first others]; [done|].
  apply total_try_except.
  - eapply safe_bind; [apply safe_get_collection | intros _ _].
    eapply safe_bind; [apply safe_count_assignments | intros counts _].
    eapply safe_bind; [apply total_safe, total_shuffle_from | intros fb _].
    eapply safe_bind; [apply total_safe, total_gets | intros t _].
    eapply safe_bind; [apply safe_update_many | intros n _].
    eapply safe_bind; [apply safe_insert_one | intros _ _].
    apply total_safe, total_ret. eexists. split; [apply min_from_elem | done].
  - intros e.
    eapply total_bind; [apply total_log_error | intros _ _].
    eapply total_bind; [by apply total_choice | intros bot Hbot].
    apply total_ret. by exists bot.
Qed.

(** What [get_or_create_assignment] may answer for [bots]. *)
Definition answer_for (bots : list Bot) (v : option string) : Prop :=
  (bots = [] → v = None) ∧ (bots ≠ [] → from_bots bots v).

Lemma total_get_or_create_assignment (g u : string) (bots : list Bot) :
  total (get_or_create_assignment g u bots) (answer_for bots).
Proof.
  unfold get_or_create_assignment. apply total_try_except.
  - eapply safe_bind; [apply safe_get_collection | intros _ _].
    eapply safe_bind; [apply safe_find_one | intros existing _].
    eapply (safe_bind _ _ (fun found => ∀ b, found = Some b → from_bots bots (Some b))).
    + destruct existing as [[id a]|]; [|by apply total_safe, total_ret].
      destruct (is_available bots (assigned_bot_id a)) eqn:Hav.
      * eapply safe_bind; [apply total_safe, total_gets | intros t _].
        eapply safe_bind; [apply safe_update_one | intros _ _].
        apply total_safe, total_ret. intros b [= <-].
        destruct (is_available_elem _ _ Hav) as (bot & ? & ->). by exists bot.
      * destruct (find _ _) as [fb|] eqn:Hfind; [|by apply total_safe, total_ret].
        eapply safe_bind; [apply total_safe, total_gets | intros t _].
        eapply safe_bind; [apply safe_update_one | intros _ _].
        apply total_safe, total_ret. intros b [= <-].
        apply find_some in Hfind as [_ Hav'].
        destruct (is_available_elem _ _ Hav') as (bot & ? & ->). by exists bot.
    + intros [b|] Hfound.
      * apply total_safe, total_ret. specialize (Hfound b eq_refl).
        split; [|done]. intros ->. destruct Hfound as (bot & Hin & _).
        by apply elem_of_nil in Hin.
      * destruct bots as [|first others].
        -- apply total_safe, total_ret. by split.
        -- eapply safe_weaken; [by apply total_safe, total_create_new_assignment|].
           intros v Hv. by split.
  - intros e. eapply total_bind; [apply total_log_error | intros _ _].
    apply total_ret. destruct bots as [|bot bots]; split; try done.
    intros _. exists bot. split; [set_solver | done].
Qed.

(** C10: as long as the running task is not cancelled, a resolution returns
    to its caller whatever fails inside it; it answers [None] exactly when
    no bot was offered, and otherwise the id of one of the offered bots. *)
Theorem get_or_create_assignment_always_answers (g u : string)
    (bots : list Bot) (w : World) :
  never_cancelled (events w) →
  ∃ v, fst (get_or_create_assignment g u bots w) = Ok v
       ∧ (v = None ↔ bots = [])
       ∧ (bots ≠ [] → ∃ bot, bot ∈ bots ∧ v = Some (bot_id bot)).
Proof.
  intros Hw.
  destruct (total_get_or_create_assignment g u bots w Hw) as (_ & v & Hv & Hnone & Hsome).
  exists v. split; [done|]. split; [|done].
  split; [|done]. intros ->. destruct bots as [|bot bots]; [done|].
  destruct Hsome as (? & _ & ?); done.
Qed.

Lemma get_or_create_assignment_always_answers_witness :
  ∃ v, fst (get_or_create_assignment "g" "u" [mkBot "b1" "one" 0; mkBot "b2" "two" 0]
              (mkWorld false true [] 0 [7%nat] [FailBefore] [] [])) = Ok v
       ∧ (v = None ↔ [mkBot "b1" "one" 0; mkBot "b2" "two" 0] = [])
       ∧ ([mkBot "b1" "one" 0; mkBot "b2" "two" 0] ≠ [] →
          ∃ bot, bot ∈ [mkBot "b1" "one" 0; mkBot "b2" "two" 0] ∧ v = Some (bot_id bot)).
Proof.
  apply (get_or_create_assignment_always_answers "g" "u"
           [mkBot "b1" "one" 0; mkBot "b2" "two" 0]
           (mkWorld false true [] 0 [7%nat] [FailBefore] [] [])).
  simpl. split; rewrite list_elem_of_In; simpl; intros [?|[]]; discriminate.
Defined.

(** *** Runs in which nothing fails *)

Lemma run_get_collection (w : World) :
  db_connected w = true → get_collection w = (Ok tt, w).
Proof. intros H. unfold get_collection. simpl. by rewrite H. Qed.

Lemma run_gets {A} (f : World → A) (w : World) : gets f w = (Ok (f w), w).
Proof. reflexivity. Qed.

Lemma run_store_call {A} (op : M World A) (w : World) :
  events w = [] → store_call op w = op (consume_event w).
Proof. intros H. unfold store_call. simpl. by rewrite H. Qed.

Lemma run_find_one P (w : World) :
  events w = [] →
  find_one P w
  = (Ok (list_find (fun a => P a = true) (assignments w)), consume_event w).
Proof. intros H. unfold find_one. by rewrite run_store_call. Qed.

Lemma same_key_refl_on (a b : MemberBotAssignment) :
  guild_id b = guild_id a → user_id b = user_id a → is_active b = is_active a →
  same_key a b = true.
Proof.
  intros Hg Hu Ha. unfold same_key. rewrite Hg, Hu, Ha.
  rewrite !String.eqb_refl. by destruct (is_active a).
Qed.

Lemma run_update_one (id : nat) f (w : World) (a : MemberBotAssignment) :
  events w = [] →
  assignments w !! id = Some a →
  same_key a (f a) = true →
  update_one id f w
  = (Ok tt, set_assignments (<[id := f a]> (assignments w)) (consume_event w)).
Proof.
  intros He Ha Hk. unfold update_one. rewrite run_store_call by done.
  simpl. rewrite Ha. unfold rejected. rewrite Hk. simpl.
  by rewrite andb_false_r.
Qed.

Lemma find_first {A} (P : A → bool) (pre post : list A) (x : A) :
  Forall (fun y => P y = false) pre → P x = true →
  find P (pre ++ x :: post) = Some x.
Proof.
  intros Hpre Hx. induction Hpre as [|y pre Hy _ IH]; simpl.
  - by rewrite Hx.
  - by rewrite Hy.
Qed.

(** C6: when the active assignment's primary bot is not among the available
    bots and [fb] is the first stored fallback that is, a resolution in
    which nothing fails returns [fb] and rewrites that document: [fb]
    becomes its [assigned_bot_id] and [total_dms_sent] grows by one. *)
Theorem fallback_used_and_persisted (g u : string) (bots : list Bot)
    (w : World) (id : nat) (a : MemberBotAssignment)
    (pre post : list string) (fb : string) :
  db_connected w = true →
  events w = [] →
  list_find (fun x => active_for g u x = true) (assignments w) = Some (id, a) →
  is_available bots (assigned_bot_id a) = false →
  fallback_bot_ids a = pre ++ fb :: post →
  Forall (fun b => is_available bots b = false) pre →
  is_available bots fb = true →
  fst (get_or_create_assignment g u bots w) = Ok (Some fb)
  ∧ assignments (snd (get_or_create_assignment g u bots w))
    = <[id := use_fallback fb (utcnow w) a]> (assignments w)
  ∧ assigned_bot_id (use_fallback fb (utcnow w) a) = fb
  ∧ total_dms_sent (use_fallback fb (utcnow w) a) = total_dms_sent a + 1
  ∧ guild_id (use_fallback fb (utcnow w) a) = g
  ∧ user_id (use_fallback fb (utcnow w) a) = u
  ∧ is_active (use_fallback fb (utcnow w) a) = true.
Proof.
  intros Hc He Hfind Hun Hfb Hpre Hav.
  pose proof Hfind as Hfound.
  apply list_find_Some in Hfound as (Ha & Hact & _).
  assert (Hrun : get_or_create_assignment g u bots w
                 = (Ok (Some fb),
                    set_assignments (<[id := use_fallback fb (utcnow w) a]> (assignments w))
                      (consume_event (consume_event w)))).
  { unfold get_or_create_assignment, try_except.
    rewrite (bind_ok _ _ _ _ _ (run_get_collection w Hc)).
    rewrite (bind_ok _ _ _ _ _ (run_find_one _ w He)).
    rewrite Hfind. cbn beta iota. rewrite Hun, Hfb, (find_first _ _ _ _ Hpre Hav).
    assert (Hupd : update_one id (use_fallback fb (utcnow w)) (consume_event w)
                   = (Ok tt, set_assignments
                               (<[id := use_fallback fb (utcnow w) a]> (assignments w))
                               (consume_event (consume_event w)))).
    { rewrite (run_update_one id (use_fallback fb (utcnow w)) (consume_event w) a);
        [reflexivity | by simpl; rewrite He | done | by apply same_key_refl_on]. }
    assert (Hinner :
      (t ← gets utcnow; update_one id (use_fallback fb t) ;; mret (Some fb))
        (consume_event w)
      = (Ok (Some fb),
         set_assignments (<[id := use_fallback fb (utcnow w) a]> (assignments w))
           (consume_event (consume_event w)))).
    { rewrite (bind_ok _ _ _ _ _ (run_gets utcnow (consume_event w))).
      change (utcnow (consume_event w)) with (utcnow w).
      by rewrite (bind_ok _ _ _ _ _ Hupd). }
    by rewrite (bind_ok _ _ _ _ _ Hinner). }
  rewrite Hrun. simpl. repeat split; try done.
  - unfold active_for in Hact. apply andb_prop in Hact as [Hact _].
    apply andb_prop in Hact as [Hg _]. by apply String.eqb_eq.
  - unfold active_for in Hact. apply andb_prop in Hact as [Hact _].
    apply andb_prop in Hact as [_ Hu]. by apply String.eqb_eq.
  - unfold active_for in Hact. by apply andb_prop in Hact as [_ ?].
Qed.

Lemma fallback_used_and_persisted_witness :
  let a := mkAssignment "g" "u" "b1" 0 None 4 "new_assignment" ["b2"; "b3"; "b4"] true 0 in
  let w := mkWorld true true [a] 9 [] [] [] [] in
  let bots := [mkBot "b4" "four" 0; mkBot "b3" "three" 0] in
  fst (get_or_create_assignment "g" "u" bots w) = Ok (Some "b3")
  ∧ assignments (snd (get_or_create_assignment "g" "u" bots w))
    = <[0%nat := use_fallback "b3" (utcnow w) a]> (assignments w)
  ∧ assigned_bot_id (use_fallback "b3" (utcnow w) a) = "b3"
  ∧ total_dms_sent (use_fallback "b3" (utcnow w) a) = total_dms_sent a + 1
  ∧ guild_id (use_fallback "b3" (utcnow w) a) = "g"
  ∧ user_id (use_fallback "b3" (utcnow w) a) = "u"
  ∧ is_active (use_fallback "b3" (utcnow w) a) = true.
Proof.
  intros a w bots.
  apply (fallback_used_and_persisted "g" "u" bots w 0 a ["b2"] ["b4"] "b3").
  - reflexivity.
  - reflexivity.
  - reflexivity.
  - reflexivity.
  - reflexivity.
  - repeat constructor.
  - reflexivity.
Defined.

(** *** Resolving twice *)

(** [w'] differs from [w] at most in its documents, its consumed events and
    its random draws. *)
Definition framed (w w' : World) : Prop :=
  db_connected w' = db_connected w ∧ unique_index w' = unique_index w
  ∧ utcnow w' = utcnow w ∧ errors w' = errors w
  ∧ (events w = [] → events w' = []).

Definition quiet (w w' : World) : Prop :=
  framed w w' ∧ assignments w' = assignments w.

Lemma framed_refl (w : World) : framed w w.
Proof. by repeat split. Qed.

Lemma framed_trans (w1 w2 w3 : World) : framed w1 w2 → framed w2 w3 → framed w1 w3.
Proof.
  intros (?&?&?&?&?) (?&?&?&?&?). repeat split; try congruence. auto.
Qed.

Lemma quiet_refl (w : World) : quiet w w.
Proof. split; [apply framed_refl | done]. Qed.

Lemma quiet_trans (w1 w2 w3 : World) : quiet w1 w2 → quiet w2 w3 → quiet w1 w3.
Proof. intros [? ?] [? ?]. split; [by eapply framed_trans | congruence]. Qed.

Lemma quiet_consume (w : World) : quiet w (consume_event w).
Proof. repeat split. simpl. by intros ->. Qed.

Lemma framed_set_assignments rows (w : World) : framed w (set_assignments rows w).
Proof. by repeat split. Qed.

Lemma framed_store_call {A} (op : M World A) (w : World) :
  (∀ w0, framed w0 (snd (op w0))) → framed w (snd (store_call op w)).
Proof.
  intros Hop. pose proof (quiet_consume w) as [Hq _].
  destruct (store_call_cases op w) as [E | (e & _ & [E | E])]; rewrite E;
    [|done|]; eapply framed_trans; eauto.
Qed.

Lemma framed_update_many P f (w : World) : framed w (snd (update_many P f w)).
Proof.
  apply framed_store_call. intros w0.
  destruct (update_many_loop _ _ _ _ _ _). apply framed_set_assignments.
Qed.

Lemma framed_insert_one a (w : World) : framed w (snd (insert_one a w)).
Proof.
  apply framed_store_call. intros w0.
  destruct (unique_index w0 && _); [apply framed_refl | apply framed_set_assignments].
Qed.

Lemma run_randbelow (n : nat) (w : World) :
  ∃ i w', randbelow n w = (Ok i, w') ∧ quiet w w'.
Proof. eexists _, _. split; [reflexivity|]. by repeat split. Qed.

Lemma run_shuffle_from {A} (i : nat) (x : list A) (w : World) :
  ∃ x' w', shuffle_from i x w = (Ok x', w') ∧ quiet w w'.
Proof.
  revert x w. induction i as [|i IH]; intros x w.
  - exists x, w. split; [done | apply quiet_refl].
  - destruct (run_randbelow (S (S i)) w) as (j & w1 & E1 & Q1).
    destruct (IH (swap x (S i) j) w1) as (x' & w2 & E2 & Q2).
    exists x', w2. split; [|by eapply quiet_trans].
    cbn [shuffle_from]. by rewrite (bind_ok _ _ _ _ _ E1).
Qed.

Lemma run_choice {A} (xs : list A) (w : World) :
  ∃ r w', choice xs w = (r, w') ∧ quiet w w'.
Proof.
  destruct xs as [|x xs].
  - eexists _, _. split; [reflexivity | apply quiet_refl].
  - destruct (run_randbelow (length (x :: xs)) w) as (i & w1 & E1 & Q1).
    unfold choice. rewrite (bind_ok _ _ _ _ _ E1).
    destruct ((x :: xs) !! i); eexists _, _; (split; [reflexivity | done]).
Qed.

Lemma run_count_documents P (w : World) :
  events w = [] →
  ∃ c, count_documents P w = (Ok c, consume_event w).
Proof. intros He. unfold count_documents. rewrite run_store_call by done. eauto. Qed.

Lemma run_count_assignments (g : string) (bots : list Bot)
    (counts : gmap string nat) (w : World) :
  events w = [] →
  ∃ c w', count_assignments g bots counts w = (Ok c, w') ∧ quiet w w'.
Proof.
  revert counts w. induction bots as [|bot bots IH]; intros counts w He.
  - exists counts, w. split; [done | apply quiet_refl].
  - destruct (run_count_documents (active_on_bot g (bot_id bot)) w He) as (c & E1).
    destruct (IH (<[bot_id bot := c]> counts) (consume_event w)) as (c' & w2 & E2 & Q2).
    { simpl. by rewrite He. }
    exists c', w2. split; [|eapply quiet_trans; [apply quiet_consume | done]].
    cbn [count_assignments]. by rewrite (bind_ok _ _ _ _ _ E1).
Qed.

Lemma uncancelled_calm (w : World) : events w = [] → uncancelled w.
Proof. unfold uncancelled. intros ->. apply never_cancelled_nil. Qed.

Lemma errors_never_shrink_by_one (l : list string) (x : string) : l ++ [x] ≠ l.
Proof.
  intros H. apply (f_equal length) in H. rewrite length_app in H. simpl in H. lia.
Qed.

Lemma insert_one_ok (a : MemberBotAssignment) (w w' : World) :
  insert_one a w = (Ok tt, w') → assignments w' = assignments w ++ [a].
Proof.
  unfold insert_one, store_call. intros E.
  destruct (head_event (oracle w)); try discriminate.
  destruct (unique_index _ && _); [discriminate|]. by inversion E.
Qed.

Lemma list_find_insert_same {A} (P : A → Prop) `{∀ x, Decision (P x)}
    (l : list A) (i : nat) (x y : A) :
  list_find P l = Some (i, x) → P y → list_find P (<[i := y]> l) = Some (i, y).
Proof.
  intros Hf Hy. apply list_find_Some in Hf as (Hi & Hx & Hbefore).
  apply list_find_Some. split; [|split; [done|]].
  - apply list_lookup_insert_eq. by eapply lookup_lt_Some.
  - intros j z Hj Hlt. rewrite list_lookup_insert_ne in Hj by lia. by eapply Hbefore.
Qed.

Lemma list_find_snoc {A} (P : A → Prop) `{∀ x, Decision (P x)}
    (l : list A) (a : A) :
  filter P l = [] → P a → list_find P (l ++ [a]) = Some (length l, a).
Proof.
  intros Hl Ha. apply list_find_Some. split; [|split; [done|]].
  - rewrite lookup_app_r by lia. by rewrite Nat.sub_diag.
  - intros j y Hj Hlt Hy. rewrite lookup_app_l in Hj by done.
    assert (Hin : y ∈ filter P l).
    { apply list_elem_of_filter. split; [done | by eapply list_elem_of_lookup_2]. }
    rewrite Hl in Hin. by apply elem_of_nil in Hin.
Qed.

(** A creation that logged no error inserted the chosen bot's document
    after deactivating the pair's older ones. *)
Lemma create_settles (g u : string) (bots : list Bot) (w : World) :
  events w = [] → bots ≠ [] →
  errors (snd (_create_new_assignment g u bots w)) = errors w →
  ∃ a, fst (_create_new_assignment g u bots w) = Ok (Some (assigned_bot_id a))
       ∧ is_available bots (assigned_bot_id a) = true
       ∧ active_for g u a = true
       ∧ assignments (snd (_create_new_assignment g u bots w))
         = map (rewrite_with (rows_of g u) deactivate) (assignments w) ++ [a]
       ∧ events (snd (_create_new_assignment g u bots w)) = []
       ∧ db_connected (snd (_create_new_assignment g u bots w)) = true.
Proof.
  intros He Hne. destruct bots as [|first others]; [done|].
  unfold _create_new_assignment.
  match goal with |- context [try_except ?b ?h] =>
    set (body := b); set (handler := h) end.
  assert (Hh : ∀ e w0, errors (snd (handler e w0))
                       = errors w0 ++ ["Error creating new assignment"]).
  { intros e w0. unfold handler.
    rewrite (bind_ok (log_error "Error creating new assignment") _ w0 _ tt eq_refl).
    match goal with |- errors (snd ((_ ≫= _) ?w1)) = _ =>
      destruct (run_choice (first :: others) w1)
        as (r & w2 & E & ((_&_&_&Herr&_) & _)) end.
    destruct r as [bot|e'|];
      [rewrite (bind_ok _ _ _ _ _ E) | rewrite (bind_exc _ _ _ _ _ E)
       | rewrite (bind_hang _ _ _ _ E)]; simpl; by rewrite Herr. }
  assert (Hfail : ∀ e w1, body w = (Exc e, w1) → is_Exception e = true →
                          errors w1 = errors w →
                          errors (snd (try_except body handler w)) = errors w → False).
  { intros e w1 Hb Hex Herr. unfold try_except. rewrite Hb, Hex, Hh, Herr.
    apply errors_never_shrink_by_one. }
  destruct (db_connected w) eqn:Hc.
  2: { intros Herr. exfalso. apply (Hfail RuntimeError w); try done.
       unfold body. apply bind_exc. unfold get_collection. simpl. by rewrite Hc. }
  destruct (run_count_assignments g (first :: others) ∅ w He) as (c & w1 & E1 & Q1).
  set (sel := min_from (fun bot => default 0%nat (c !! bot_id bot)) first others).
  destruct (run_shuffle_from
              (length (filter (fun b => b ≠ bot_id sel) (map bot_id (first :: others))) - 1)
              (filter (fun b => b ≠ bot_id sel) (map bot_id (first :: others))) w1)
    as (fbs & w2 & E2 & Q2).
  pose proof (quiet_trans _ _ _ Q1 Q2) as ((Hc2 & Hu2 & Ht2 & Herr2 & Hev2) & Hrows2).
  specialize (Hev2 He).
  set (a := mkAssignment g u (bot_id sel) (utcnow w2) (Some (utcnow w2)) 1
              "new_assignment" (take 3 fbs) true (utcnow w2)).
  assert (Hprefix :
    body w = (update_many (rows_of g u) deactivate ;; insert_one a ;;
              mret (Some (bot_id sel))) w2).
  { unfold body.
    rewrite (bind_ok _ _ _ _ _ (run_get_collection w Hc)).
    rewrite (bind_ok _ _ _ _ _ E1). fold sel.
    unfold shuffle. rewrite (bind_ok _ _ _ _ _ E2).
    by rewrite (bind_ok _ _ _ _ _ (run_gets utcnow w2)). }
  pose proof (framed_update_many (rows_of g u) deactivate w2) as (Hc3 & Hu3 & Ht3 & Herr3 & Hev3).
  pose proof (safe_update_many (rows_of g u) deactivate w2 (uncancelled_calm _ Hev2))
    as [_ Hsafe3].
  destruct (update_many (rows_of g u) deactivate w2) as [[n|e|] w3] eqn:E3;
    simpl in Hc3, Hu3, Ht3, Herr3, Hev3, Hsafe3; [| |done].
  2: { intros Herr. exfalso. apply (Hfail e w3); try done; [|congruence].
       rewrite Hprefix. by apply bind_exc. }
  specialize (Hev3 Hev2).
  pose proof (framed_insert_one a w3) as (Hc4 & Hu4 & Ht4 & Herr4 & Hev4).
  pose proof (safe_insert_one a w3 (uncancelled_calm _ Hev3)) as [_ Hsafe4].
  destruct (insert_one a w3) as [[[]|e|] w4] eqn:E4;
    simpl in Hc4, Hu4, Ht4, Herr4, Hev4, Hsafe4; [| |done].
  2: { intros Herr. exfalso. apply (Hfail e w4); try done; [|congruence].
       rewrite Hprefix. rewrite (bind_ok _ _ _ _ _ E3). by apply bind_exc. }
  assert (Hbody : body w = (Ok (Some (bot_id sel)), w4)).
  { rewrite Hprefix. rewrite (bind_ok _ _ _ _ _ E3). by rewrite (bind_ok _ _ _ _ _ E4). }
  intros _. unfold try_except. rewrite Hbody. cbn [fst snd].
  exists a. repeat split.
  - apply (is_available_of_elem (first :: others) sel), min_from_elem.
  - unfold active_for. simpl. by rewrite !String.eqb_refl.
  - rewrite (insert_one_ok _ _ _ E4).
    rewrite (update_many_deactivate_ok _ _ _ _ _ E3). by rewrite Hrows2.
  - auto.
  - congruence.
Qed.

Lemma run_rewrite_existing (id : nat)
    (f : Z → MemberBotAssignment → MemberBotAssignment) (b : string)
    (k : option string → M World (option string)) (w1 : World)
    (a : MemberBotAssignment) :
  events w1 = [] → assignments w1 !! id = Some a →
  same_key a (f (utcnow w1) a) = true →
  (found ← (t ← gets utcnow; update_one id (f t) ;; mret (Some b)); k found) w1
  = k (Some b) (set_assignments (<[id := f (utcnow w1) a]> (assignments w1))
                                (consume_event w1)).
Proof.
  intros He Ha Hk.
  rewrite (bind_ok _ _ w1
             (set_assignments (<[id := f (utcnow w1) a]> (assignments w1))
                              (consume_event w1)) (Some b)); [done|].
  rewrite (bind_ok _ _ _ _ _ (run_gets utcnow w1)).
  by rewrite (bind_ok _ _ _ _ _ (run_update_one id (f (utcnow w1)) w1 a He Ha Hk)).
Qed.

(** A resolution that logged no error leaves an active document for the
    pair whose primary bot is the one it returned, and that bot was
    offered. *)
Lemma first_call_settles (g u : string) (bots : list Bot) (w : World) :
  events w = [] → bots ≠ [] →
  errors (snd (get_or_create_assignment g u bots w)) = errors w →
  ∃ id a,
    fst (get_or_create_assignment g u bots w) = Ok (Some (assigned_bot_id a))
    ∧ is_available bots (assigned_bot_id a) = true
    ∧ list_find (fun x => active_for g u x = true)
        (assignments (snd (get_or_create_assignment g u bots w))) = Some (id, a)
    ∧ events (snd (get_or_create_assignment g u bots w)) = []
    ∧ db_connected (snd (get_or_create_assignment g u bots w)) = true.
Proof.
  intros He Hne.
  unfold get_or_create_assignment.
  match goal with |- context [try_except ?b ?h] =>
    set (body := b); set (handler := h) end.
  destruct (db_connected w) eqn:Hc.
  2: { intros Herr. exfalso.
       assert (Hb : body w = (Exc RuntimeError, w)).
       { unfold body. apply bind_exc. unfold get_collection. simpl. by rewrite Hc. }
       unfold try_except in Herr. rewrite Hb in Herr. simpl in Herr.
       by apply errors_never_shrink_by_one in Herr. }
  set (w1 := consume_event w).
  assert (He1 : events w1 = []) by (simpl; by rewrite He).
  assert (Hstart : ∀ k : option (nat * MemberBotAssignment) → M World (option string),
    (get_collection ;; existing ← find_one (active_for g u); k existing) w
    = k (list_find (fun a => active_for g u a = true) (assignments w)) w1).
  { intros k. rewrite (bind_ok _ _ _ _ _ (run_get_collection w Hc)).
    by rewrite (bind_ok _ _ _ _ _ (run_find_one _ w He)). }
  (* the paths that rewrite the existing document *)
  assert (Hkeep : ∀ id a a' w2,
    list_find (fun x => active_for g u x = true) (assignments w) = Some (id, a) →
    active_for g u a' = true →
    is_available bots (assigned_bot_id a') = true →
    body w = (Ok (Some (assigned_bot_id a')), w2) →
    assignments w2 = <[id := a']> (assignments w) →
    events w2 = [] → db_connected w2 = true →
    ∃ id' a'',
      fst (try_except body handler w) = Ok (Some (assigned_bot_id a''))
      ∧ is_available bots (assigned_bot_id a'') = true
      ∧ list_find (fun x => active_for g u x = true)
          (assignments (snd (try_except body handler w))) = Some (id', a'')
      ∧ events (snd (try_except body handler w)) = []
      ∧ db_connected (snd (try_except body handler w)) = true).
  { intros id a a' w2 Hfind Hact Hav Hbody Hrows Hev Hcon. exists id, a'.
    unfold try_except. rewrite Hbody. cbn [fst snd]. repeat split; try done.
    rewrite Hrows. by apply (list_find_insert_same _ _ _ a). }
  (* the path that creates a document *)
  assert (Hcreate :
    body w = _create_new_assignment g u bots w1 →
    errors (snd (try_except body handler w)) = errors w →
    ∃ id' a'',
      fst (try_except body handler w) = Ok (Some (assigned_bot_id a''))
      ∧ is_available bots (assigned_bot_id a'') = true
      ∧ list_find (fun x => active_for g u x = true)
          (assignments (snd (try_except body handler w))) = Some (id', a'')
      ∧ events (snd (try_except body handler w)) = []
      ∧ db_connected (snd (try_except body handler w)) = true).
  { intros Hbody.
    destruct (total_create_new_assignment g u bots Hne w1 (uncancelled_calm _ He1))
      as (_ & v & Hv & _).
    unfold try_except. rewrite Hbody.
    destruct (_create_new_assignment g u bots w1) as [r w2] eqn:E.
    simpl in Hv. subst r. cbn [fst snd]. intros Herr.
    pose proof (create_settles g u bots w1 He1 Hne) as Hset.
    rewrite E in Hset. cbn [fst snd] in Hset.
    destruct (Hset Herr) as (a & Hr & Hav & Hact & Hrows & Hev & Hcon).
    exists (length (map (rewrite_with (rows_of g u) deactivate) (assignments w1))), a.
    repeat split; try done.
    rewrite Hrows. apply list_find_snoc; [|done]. apply deactivated_all. }
  destruct (list_find (fun a => active_for g u a = true) (assignments w))
    as [[id a]|] eqn:Hfind.
  - pose proof Hfind as Hfound. apply list_find_Some in Hfound as (Ha & Hact & _).
    destruct (is_available bots (assigned_bot_id a)) eqn:Hav.
    + intros _.
      apply (Hkeep id a (touch (utcnow w) a)
               (set_assignments (<[id := touch (utcnow w) a]> (assignments w))
                                (consume_event w1))); try done.
      * unfold body. rewrite Hstart. cbn beta iota. rewrite Hav.
        by rewrite (run_rewrite_existing id touch (assigned_bot_id a) _ w1 a He1 Ha
                      (same_key_refl_on _ _ eq_refl eq_refl eq_refl)).
      * simpl. by rewrite He.
    + destruct (find (is_available bots) (fallback_bot_ids a)) as [fb|] eqn:Hfb.
      * intros _. pose proof (find_some _ _ Hfb) as [_ Hfbav].
        apply (Hkeep id a (use_fallback fb (utcnow w) a)
                 (set_assignments (<[id := use_fallback fb (utcnow w) a]> (assignments w))
                                  (consume_event w1))); try done.
        -- unfold body. rewrite Hstart. cbn beta iota. rewrite Hav, Hfb.
           by rewrite (run_rewrite_existing id (use_fallback fb) fb _ w1 a He1 Ha
                         (same_key_refl_on _ _ eq_refl eq_refl eq_refl)).
        -- simpl. by rewrite He.
      * apply Hcreate. unfold body. rewrite Hstart. cbn beta iota.
        rewrite Hav, Hfb. by rewrite (bind_ok (mret None : M World (option string)) _ w1 w1 None eq_refl).
  - apply Hcreate. unfold body. rewrite Hstart.
    by rewrite (bind_ok (mret None : M World (option string)) _ w1 w1 None eq_refl).
Qed.

(** With an active document whose primary bot is offered, a resolution in
    which nothing fails returns that bot. *)
Lemma settled_call (g u : string) (bots : list Bot) (w : World)
    (id : nat) (a : MemberBotAssignment) :
  db_connected w = true → events w = [] →
  list_find (fun x => active_for g u x = true) (assignments w) = Some (id, a) →
  is_available bots (assigned_bot_id a) = true →
  fst (get_or_create_assignment g u bots w) = Ok (Some (assigned_bot_id a)).
Proof.
  intros Hc He Hfind Hav.
  pose proof Hfind as Hfound. apply list_find_Some in Hfound as (Ha & _ & _).
  unfold get_or_create_assignment, try_except.
  rewrite (bind_ok _ _ _ _ _ (run_get_collection w Hc)).
  rewrite (bind_ok _ _ _ _ _ (run_find_one _ w He)).
  rewrite Hfind. cbn beta iota. rewrite Hav.
  assert (He1 : events (consume_event w) = []) by (simpl; by rewrite He).
  by rewrite (run_rewrite_existing id touch (assigned_bot_id a) _ (consume_event w) a
                He1 Ha (same_key_refl_on _ _ eq_refl eq_refl eq_refl)).
Qed.

(** C9: two resolutions for the same pair and the same non-empty list of
    bots, the second run on the state the first left, return the same bot,
    provided nothing fails: no store event is pending and the first
    resolution logs no error. *)
Theorem resolve_twice_same_bot (g u : string) (bots : list Bot) (w : World) :
  bots ≠ [] →
  events w = [] →
  errors (snd (get_or_create_assignment g u bots w)) = errors w →
  ∃ b, fst (get_or_create_assignment g u bots w) = Ok (Some b)
       ∧ fst (get_or_create_assignment g u bots
                (snd (get_or_create_assignment g u bots w))) = Ok (Some b).
Proof.
  intros Hne He Herr.
  destruct (first_call_settles g u bots w He Hne Herr)
    as (id & a & Hr & Hav & Hfind & He' & Hc').
  exists (assigned_bot_id a). split; [done|].
  by apply (settled_call g u bots _ id a).
Qed.

Lemma resolve_twice_same_bot_witness :
  let bots := [mkBot "b1" "one" 3; mkBot "b2" "two" 0] in
  let w := mkWorld true true
             [mkAssignment "g" "v" "b1" 0 None 1 "new_assignment" [] true 0]
             5 [1%nat] [] [] [] in
  ∃ b, fst (get_or_create_assignment "g" "u" bots w) = Ok (Some b)
       ∧ fst (get_or_create_assignment "g" "u" bots
                (snd (get_or_create_assignment "g" "u" bots w))) = Ok (Some b).
Proof.
  intros bots w. apply (resolve_twice_same_bot "g" "u" bots w).
  - discriminate.
  - reflexivity.
  - reflexivity.
Defined.

End AssignmentFacts.

(** ** The worker and the campaign controller *)

Module DispatchFacts.
Import Dispatch.

Lemma not_cancel_head (e : event) (es : list event) :
  never_cancelled (e :: es) → cancels e = false ∧ never_cancelled es.
Proof. apply never_cancelled_cons. Qed.

(** Unfold one controller operation down to the store. *)
Ltac unfold_run :=
  unfold try_except, mbind, M_bind, bind, get_collection, find_campaign,
    update_campaign, store_call, utcnow, gets, modify, log_error, mret, M_ret, ret.

(** Case on the next pending event, dropping the cancellation case. *)
Ltac next_event :=
  try match goal with
  | Hc : never_cancelled ?l |- _ =>
      is_var l; destruct l as [|[] ?]; cbn [head_event tail] in *;
      try (apply not_cancel_head in Hc as [? Hc]; cbn [cancels] in *; try congruence)
  end.

(** *** The guards of start and pause *)

Lemma start_campaign_guarded (cid who : string) (w : World) :
  never_cancelled (events w) →
  ∃ r, fst (start_campaign cid who w) = Ok r
       ∧ (success r = true → stored_status cid w = Some CampaignStatus.PENDING)
       ∧ (stored_status cid w ≠ Some CampaignStatus.PENDING →
          success r = false
          ∧ campaigns (snd (start_campaign cid who w)) = campaigns w).
Proof.
  intros Hc. unfold start_campaign, stored_status. unfold_run.
  destruct w as [c cs ts ss ws tk ac l ev h er]. cbn in Hc |- *.
  destruct c; cbn.
  2: { eexists. split; [reflexivity|]. cbn. split; [discriminate|done]. }
  next_event; cbn.
  all: try (eexists; split; [reflexivity|]; cbn; split; [discriminate|done]).
  all: destruct (cs !! cid) as [cc|] eqn:E; cbn.
  all: try (eexists; split; [reflexivity|]; cbn; split; [discriminate|done]).
  all: destruct (decide (status cc ≠ CampaignStatus.PENDING)) as [Hs|Hs]; cbn.
  all: try (eexists; split; [reflexivity|]; cbn; split; [discriminate|done]).
  all: apply dec_stable in Hs.
  all: next_event; cbn; rewrite ?E; cbn.
  all: eexists; (split; [reflexivity|]); cbn;
       (split; [intros _; by f_equal | intros Hn; destruct Hn; by f_equal]).
Qed.

Lemma pause_campaign_guarded (cid who : string) (w : World) :
  never_cancelled (events w) →
  ∃ r, fst (pause_campaign cid who w) = Ok r
       ∧ (success r = true → stored_status cid w = Some CampaignStatus.RUNNING)
       ∧ (stored_status cid w ≠ Some CampaignStatus.RUNNING →
          success r = false
          ∧ campaigns (snd (pause_campaign cid who w)) = campaigns w).
Proof.
  intros Hc. unfold pause_campaign, stored_status. unfold_run.
  destruct w as [c cs ts ss ws tk ac l ev h er]. cbn in Hc |- *.
  destruct c; cbn.
  2: { eexists. split; [reflexivity|]. cbn. split; [discriminate|done]. }
  next_event; cbn.
  all: try (eexists; split; [reflexivity|]; cbn; split; [discriminate|done]).
  all: destruct (cs !! cid) as [cc|] eqn:E; cbn.
  all: try (eexists; split; [reflexivity|]; cbn; split; [discriminate|done]).
  all: destruct (bool_decide (status cc = CampaignStatus.RUNNING)) eqn:Hs; cbn.
  all: try (apply bool_decide_eq_true in Hs).
  all: try (apply bool_decide_eq_false in Hs).
  all: eexists; (split; [reflexivity|]); cbn;
       (split; [try discriminate; intros _; by f_equal
               | intros Hn; try done; destruct Hn; by f_equal]).
Qed.

(** C8: as long as the calling task is not cancelled, [start_campaign]
    and [pause_campaign] return a result; [start] reports success only for
    a campaign stored as pending and [pause] only for one stored as
    running; for any other stored status (or no such campaign) the result
    is unsuccessful and the campaign collection is left as it was. *)
Theorem start_and_pause_guarded (cid who : string) (w : World) :
  never_cancelled (events w) →
  (∃ r, fst (start_campaign cid who w) = Ok r
        ∧ (success r = true → stored_status cid w = Some CampaignStatus.PENDING)
        ∧ (stored_status cid w ≠ Some CampaignStatus.PENDING →
           success r = false
           ∧ campaigns (snd (start_campaign cid who w)) = campaigns w))
  ∧ (∃ r, fst (pause_campaign cid who w) = Ok r
          ∧ (success r = true → stored_status cid w = Some CampaignStatus.RUNNING)
          ∧ (stored_status cid w ≠ Some CampaignStatus.RUNNING →
             success r = false
             ∧ campaigns (snd (pause_campaign cid who w)) = campaigns w)).
Proof.
  intros Hc. split; [by apply start_campaign_guarded | by apply pause_campaign_guarded].
Qed.

(** A campaign stored with status [s], one worker, two targets. *)
Definition sample_campaign (m : CampaignMode.t) (s : CampaignStatus.t) : Campaign :=
  mkCampaign (Some "c1") "g" "promo" "hello" None m 60 None s 2 0 0 0.

Definition sample_world (m : CampaignMode.t) (s : CampaignStatus.t)
    (pending_events : list event) : World :=
  mkWorld true {["c1" := sample_campaign m s]}
    [mkTarget "c1" "1001" (Some "b1") TargetStatus.PENDING 0 None None;
     mkTarget "c1" "1002" (Some "b1") TargetStatus.PENDING 0 None None]
    []
    {["b1" := mkWorker "b1" (RateLimiter.new_limiter "b1") [] 0 0 0]}
    ∅ ∅ (RateLimiter.mkLoop 0 []) pending_events [] [].

Lemma start_and_pause_guarded_witness :
  let w := sample_world CampaignMode.INSTANT CampaignStatus.PAUSED [] in
  (∃ r, fst (start_campaign "c1" "admin" w) = Ok r
        ∧ (success r = true → stored_status "c1" w = Some CampaignStatus.PENDING)
        ∧ (stored_status "c1" w ≠ Some CampaignStatus.PENDING →
           success r = false
           ∧ campaigns (snd (start_campaign "c1" "admin" w)) = campaigns w))
  ∧ (∃ r, fst (pause_campaign "c1" "admin" w) = Ok r
          ∧ (success r = true → stored_status "c1" w = Some CampaignStatus.RUNNING)
          ∧ (stored_status "c1" w ≠ Some CampaignStatus.RUNNING →
             success r = false
             ∧ campaigns (snd (pause_campaign "c1" "admin" w)) = campaigns w)).
Proof.
  intros w. apply (start_and_pause_guarded "c1" "admin" w).
  simpl. split; rewrite list_elem_of_In; simpl; intros [].
Defined.

(** On that paused campaign both guards answer, and nothing is written. *)
Example paused_campaign_rejects_start_and_pause :
  let w := sample_world CampaignMode.INSTANT CampaignStatus.PAUSED [] in
  fst (start_campaign "c1" "admin" w)
  = Ok (mkResult false "can only start pending campaigns" None)
  ∧ fst (pause_campaign "c1" "admin" w)
    = Ok (mkResult false "Campaign not found or not running" None)
  ∧ stored_status "c1" (snd (start_campaign "c1" "admin" w)) = Some CampaignStatus.PAUSED
  ∧ stored_status "c1" (snd (pause_campaign "c1" "admin" w)) = Some CampaignStatus.PAUSED
  ∧ errors (snd (start_campaign "c1" "admin" w)) = []
  ∧ errors (snd (pause_campaign "c1" "admin" w)) = [].
Proof. vm_compute. repeat split. Qed.

(** *** Cancellation *)

(** C5, as the spec states it, fails: cancelling a campaign that is already
    completed overwrites its stored status. *)
Lemma cancel_overwrites_completed :
  ¬ (∀ (cid who : string) (w : World),
       stored_status cid w = Some CampaignStatus.COMPLETED →
       stored_status cid (snd (cancel_campaign cid who w))
         = Some CampaignStatus.COMPLETED).
Proof.
  intros H.
  specialize (H "c1" "admin"
                (sample_world CampaignMode.INSTANT CampaignStatus.COMPLETED [])
                eq_refl).
  vm_compute in H. discriminate.
Qed.

Lemma cancel_campaign_any_status (cid who : string) (w : World) (c : Campaign) :
  campaigns w !! cid = Some c →
  db_connected w = true →
  head_event (events w) = Proceed →
  fst (cancel_campaign cid who w)
    = Ok (mkResult true "Campaign cancelled successfully"
            (Some CampaignStatus.CANCELLED))
  ∧ stored_status cid (snd (cancel_campaign cid who w))
    = Some CampaignStatus.CANCELLED.
Proof.
  intros Hc Hdb Hev. unfold cancel_campaign, stored_status. unfold_run.
  destruct w as [db cs ts ss ws tk ac l ev h er]. cbn in Hc, Hdb, Hev |- *.
  subst db. destruct ev as [|[] ev]; try discriminate; cbn; rewrite Hc; cbn.
  all: split; [done|]; by rewrite lookup_insert_eq.
Qed.

(** [m] neither writes a campaign nor suspends. *)
Definition inert {A} (m : M World A) : Prop :=
  ∀ w, campaigns (snd (m w)) = campaigns w ∧ history (snd (m w)) = history w.

(** The task is cancelled at one of the suspensions in [t]. *)
Definition cancelled (t : list event) : Prop := Cancel ∈ t ∨ CancelAfter ∈ t.

Lemma cancelled_singleton (e : event) : cancelled [e] → cancels e = true.
Proof. by intros [<-%list_elem_of_singleton | <-%list_elem_of_singleton]. Qed.

Lemma cancelled_app (t1 t2 : list event) :
  cancelled (t1 ++ t2) → cancelled t1 ∨ cancelled t2.
Proof.
  unfold cancelled. rewrite !elem_of_app. tauto.
Qed.

Lemma cancelled_cons (e : event) (t : list event) :
  cancelled (e :: t) → cancels e = true ∨ cancelled t.
Proof.
  unfold cancelled. rewrite !elem_of_cons.
  intros [[<-|?]|[<-|?]]; solve [by left | right; by left | right; by right].
Qed.

(** [m] writes no campaign, and if the task is cancelled at one of its
    suspensions the [CancelledError] comes out of it. *)
Definition discreet {A} (m : M World A) : Prop :=
  ∀ w, campaigns (snd (m w)) = campaigns w
       ∧ ∃ t, history (snd (m w)) = history w ++ t
              ∧ (cancelled t → fst (m w) = Exc CancelledError).

(** The completion write of campaign [cid] has been applied to [cs]. *)
Definition completion_applied (cid : string) (cs cs' : gmap string Campaign) : Prop :=
  ∃ c sent failed now,
    cs !! cid = Some c ∧ cs' = <[cid := completed_with sent failed now c]> cs.

(** If the task is cancelled at one of the suspensions of [m], then [m]
    has written no campaign, unless the cancellation came last, on the
    completion write, and the driver had the write already. *)
Definition guarded {A} (cid : string) (m : M World A) : Prop :=
  ∀ w, ∃ t, history (snd (m w)) = history w ++ t
            ∧ (cancelled t →
               campaigns (snd (m w)) = campaigns w
               ∨ (last t = Some CancelAfter
                  ∧ completion_applied cid (campaigns w) (campaigns (snd (m w))))).

Lemma inert_discreet {A} (m : M World A) : inert m → discreet m.
Proof.
  intros Hm w. destruct (Hm w) as [Hc Hh]. split; [done|].
  exists []. rewrite app_nil_r. split; [done|].
  by intros [?%elem_of_nil | ?%elem_of_nil].
Qed.

Lemma discreet_guarded {A} (cid : string) (m : M World A) :
  discreet m → guarded cid m.
Proof. intros Hm w. destruct (Hm w) as (Hc & t & Ht & _). exists t. eauto. Qed.

Lemma inert_ret {A} (a : A) : inert (mret a : M World A).
Proof. by intros w. Qed.

Lemma inert_raise {A} (e : exn) : inert (raise e : M World A).
Proof. by intros w. Qed.

Lemma inert_gets {A} (f : World → A) : inert (gets f).
Proof. by intros w. Qed.

Lemma inert_modify (f : World → World) :
  (∀ w, campaigns (f w) = campaigns w ∧ history (f w) = history w) →
  inert (modify f).
Proof. intros Hf w. apply Hf. Qed.

Lemma inert_log_error (line : string) : inert (log_error line).
Proof. by apply inert_modify. Qed.

Lemma inert_get_collection : inert (get_collection : M World unit).
Proof. intros w. unfold get_collection. by destruct (connected w). Qed.

Lemma inert_bind {A B} (m : M World A) (k : A → M World B) :
  inert m → (∀ a, inert (k a)) → inert (m ≫= k).
Proof.
  intros Hm Hk w. destruct (Hm w) as [Hc Hh].
  unfold mbind, M_bind, bind. destruct (m w) as [[a|e|] w1]; simpl in *; try done.
  destruct (Hk a w1) as [Hc' Hh']. split; congruence.
Qed.

Lemma discreet_bind {A B} (m : M World A) (k : A → M World B) :
  discreet m → (∀ a, discreet (k a)) → discreet (m ≫= k).
Proof.
  intros Hm Hk w. destruct (Hm w) as (Hc & t1 & Ht1 & Hx1).
  unfold mbind, M_bind, bind. destruct (m w) as [[a|e|] w1]; simpl in *.
  - destruct (Hk a w1) as (Hc' & t2 & Ht2 & Hx2). split; [congruence|].
    exists (t1 ++ t2). split; [by rewrite Ht2, Ht1, app_assoc|].
    intros [Hin|Hin]%cancelled_app; [specialize (Hx1 Hin); discriminate Hx1 | by apply Hx2].
  - split; [done|]. exists t1. split; [exact Ht1|]. intros Hin. specialize (Hx1 Hin). by inversion Hx1.
  - split; [done|]. exists t1. split; [exact Ht1|]. intros Hin. specialize (Hx1 Hin). by inversion Hx1.
Qed.

Lemma discreet_try_except {A} (body : M World A) (handler : exn → M World A) :
  discreet body → (∀ e, discreet (handler e)) → discreet (try_except body handler).
Proof.
  intros Hb Hh w. destruct (Hb w) as (Hc & t1 & Ht1 & Hx1). unfold try_except.
  destruct (body w) as [[a|e|] w1]; simpl in *.
  - split; [done|]. exists t1. split; [exact Ht1 | exact Hx1].
  - destruct (is_Exception e) eqn:He.
    + destruct (Hh e w1) as (Hc' & t2 & Ht2 & Hx2). split; [congruence|].
      exists (t1 ++ t2). split; [by rewrite Ht2, Ht1, app_assoc|].
      intros [Hin|Hin]%cancelled_app; [|by apply Hx2].
      specialize (Hx1 Hin). inversion Hx1; subst. discriminate.
    + split; [done|]. exists t1. split; [exact Ht1 | exact Hx1].
  - split; [done|]. exists t1. split; [exact Ht1 | exact Hx1].
Qed.

Lemma discreet_store_call {A} (op : M World A) : inert op → discreet (store_call op).
Proof.
  intros Hop w. destruct (Hop (consume_event w)) as [Hc Hh]. unfold store_call.
  destruct (head_event (oracle w)) eqn:He; simpl in *.
  - split; [done|]. exists [Proceed]. rewrite Hh, He. split; [done|].
    by intros [=]%cancelled_singleton.
  - split; [done|]. exists [FailBefore]. rewrite He. split; [done|].
    by intros [=]%cancelled_singleton.
  - split; [done|]. exists [FailAfter]. rewrite Hh, He. split; [done|].
    by intros [=]%cancelled_singleton.
  - split; [done|]. exists [Cancel]. rewrite He. by split.
  - split; [done|]. exists [CancelAfter]. rewrite Hh, He. by split.
Qed.

Lemma guarded_after_discreet {A B} (cid : string) (m : M World A)
    (k : A → M World B) :
  discreet m → (∀ a, guarded cid (k a)) → guarded cid (m ≫= k).
Proof.
  intros Hm Hk w. destruct (Hm w) as (Hc & t1 & Ht1 & Hx1).
  unfold mbind, M_bind, bind. destruct (m w) as [[a|e|] w1]; simpl in *.
  - destruct (Hk a w1) as (t2 & Ht2 & Hx2).
    exists (t1 ++ t2). split; [by rewrite Ht2, Ht1, app_assoc|].
    intros [Hin|Hin]%cancelled_app; [specialize (Hx1 Hin); discriminate Hx1|].
    destruct (Hx2 Hin) as [Hsame|[Hlast Hdone]]; [left; congruence|].
    right. rewrite Hc in Hdone. split; [|done].
    rewrite last_app, Hlast. done.
  - exists t1. split; [exact Ht1|]. intros _. by left.
  - exists t1. split; [exact Ht1|]. intros _. by left.
Qed.

Lemma inert_self_worker self : inert (self_worker self).
Proof. intros w. unfold self_worker. by destruct (active_workers w !! self). Qed.

Lemma inert_put_worker self wk : inert (put_worker self wk).
Proof. by apply inert_modify. Qed.

Lemma inert_queue_message self user text embed campaign :
  inert (queue_message self user text embed campaign).
Proof.
  apply inert_bind; [apply inert_gets | intros t].
  apply inert_bind; [apply inert_self_worker | intros wk; apply inert_put_worker].
Qed.

Lemma discreet_update_target cid u f : discreet (update_target cid u f).
Proof.
  apply discreet_store_call, inert_modify. intros w.
  by destruct (list_find _ _) as [[i t]|].
Qed.

Lemma discreet_send_campaign_message campaign target_doc :
  discreet (_send_campaign_message campaign target_doc).
Proof.
  apply discreet_try_except.
  - apply discreet_bind; [apply inert_discreet, inert_gets | intros [worker|]].
    + apply discreet_bind; [apply inert_discreet, inert_queue_message | intros _].
      apply discreet_bind; [apply inert_discreet, inert_get_collection | intros _].
      apply discreet_bind; [apply inert_discreet, inert_gets | intros t].
      apply discreet_update_target.
    + apply inert_discreet, inert_raise.
  - intros e.
    apply discreet_bind; [apply inert_discreet, inert_get_collection | intros _].
    apply discreet_bind; [apply discreet_update_target | intros _].
    apply inert_discreet, inert_raise.
Qed.

Lemma discreet_cursor_next : discreet cursor_next.
Proof. apply discreet_store_call, inert_ret. Qed.

Lemma discreet_instant_loop campaign docs sent_count failed_count :
  discreet (instant_loop campaign docs sent_count failed_count).
Proof.
  revert sent_count failed_count.
  induction docs as [|target_doc docs IH]; intros sent_count failed_count.
  - apply discreet_bind; [apply discreet_cursor_next | intros _].
    apply inert_discreet, inert_ret.
  - cbn [instant_loop].
    apply discreet_bind; [apply discreet_cursor_next | intros _].
    apply discreet_bind.
    + apply discreet_try_except.
      * apply discreet_bind; [apply discreet_send_campaign_message | intros _].
        apply inert_discreet, inert_ret.
      * intros e. apply inert_discreet, inert_bind; [apply inert_log_error | intros _].
        apply inert_ret.
    + intros [|]; apply IH.
Qed.

(** The completion write and the clean-up after it. *)
Lemma guarded_completion cid (counts : Z * Z) :
  guarded cid (t ← utcnow;
           update_campaign cid (fun _ => true)
             (completed_with (fst counts) (snd counts) t) ;;
           modify (fun w => set_memory (delete cid (campaign_tasks w))
                                       (delete cid (active_campaigns w)) w)).
Proof.
  intros w. unfold utcnow. unfold_run.
  destruct w as [db cs ts ss ws tk ac l ev h er]. cbn.
  destruct (head_event ev) eqn:He; cbn.
  - exists [Proceed]. split; [by destruct (cs !! cid)|].
    by intros [=]%cancelled_singleton.
  - exists [FailBefore]. split; [done|]. by intros [=]%cancelled_singleton.
  - exists [FailAfter]. split; [by destruct (cs !! cid)|].
    by intros [=]%cancelled_singleton.
  - exists [Cancel]. split; [done|]. intros _. by left.
  - exists [CancelAfter]. split; [by destruct (cs !! cid)|]. intros _.
    destruct (cs !! cid) as [c|] eqn:E; cbn; [right|by left].
    split; [done|]. by exists c, (fst counts), (snd counts), (RateLimiter.now l).
Qed.

(** What is left of [execute_body] once an INSTANT campaign has been read. *)
Lemma guarded_instant_run cid campaign :
  guarded cid
    (docs ← gets (pending_targets cid);
     counts ← instant_loop campaign docs 0 0;
     t ← utcnow;
     update_campaign cid (fun _ => true)
       (completed_with (fst counts) (snd counts) t) ;;
     modify (fun w => set_memory (delete cid (campaign_tasks w))
                                 (delete cid (active_campaigns w)) w)).
Proof.
  apply guarded_after_discreet; [apply inert_discreet, inert_gets | intros docs].
  apply guarded_after_discreet; [apply discreet_instant_loop | intros counts].
  apply guarded_completion.
Qed.

(** The same for a SCHEDULED campaign, which has no loop. *)
Lemma guarded_scheduled_run cid :
  guarded cid
    (docs ← gets (pending_targets cid);
     counts ← mret (0, 0);
     t ← utcnow;
     update_campaign cid (fun _ => true)
       (completed_with (fst counts) (snd counts) t) ;;
     modify (fun w => set_memory (delete cid (campaign_tasks w))
                                 (delete cid (active_campaigns w)) w)).
Proof.
  apply guarded_after_discreet; [apply inert_discreet, inert_gets | intros docs].
  apply guarded_after_discreet; [apply inert_discreet, inert_ret | intros counts].
  apply guarded_completion.
Qed.

Lemma guarded_find_then {B} (cid : string) (k : option Campaign → M World B)
    (w : World) :
  guarded cid (k (campaigns w !! cid)) →
  ∃ t, history (snd ((find_campaign cid ≫= k) w)) = history w ++ t
       ∧ (cancelled t →
          campaigns (snd ((find_campaign cid ≫= k) w)) = campaigns w
          ∨ (last t = Some CancelAfter
             ∧ completion_applied cid (campaigns w)
                 (campaigns (snd ((find_campaign cid ≫= k) w))))).
Proof.
  intros Hk.
  destruct (Hk (consume_event w)) as (t & Ht & Hx).
  unfold find_campaign, store_call, mbind, M_bind, bind, gets.
  destruct (head_event (oracle w)) eqn:He; simpl in He.
  - exists (Proceed :: t). split.
    + etrans; [exact Ht|]. simpl. rewrite He. by rewrite <- app_assoc.
    + intros [[=]|Hin]%cancelled_cons.
      destruct (Hx Hin) as [?|[Hlast ?]]; [by left|right].
      split; [|done]. destruct t; [done|]. exact Hlast.
  - exists [FailBefore]. split; [simpl; by rewrite He|].
    by intros [=]%cancelled_singleton.
  - exists [FailAfter]. split; [simpl; by rewrite He|].
    by intros [=]%cancelled_singleton.
  - exists [Cancel]. split; [simpl; by rewrite He|]. by left.
  - exists [CancelAfter]. split; [simpl; by rewrite He|]. by left.
Qed.

Lemma guarded_execute_body (cid : string) (w : World) (c : Campaign) :
  campaigns w !! cid = Some c →
  mode c ≠ CampaignMode.PACED →
  ∃ t, history (snd (execute_body cid w)) = history w ++ t
       ∧ (cancelled t →
          campaigns (snd (execute_body cid w)) = campaigns w
          ∨ (last t = Some CancelAfter
             ∧ completion_applied cid (campaigns w)
                 (campaigns (snd (execute_body cid w))))).
Proof.
  intros Hc Hm. unfold execute_body.
  destruct (db_connected w) eqn:Hdb.
  - assert (Hg : get_collection w = (Ok tt, w)).
    { unfold get_collection. simpl. by rewrite Hdb. }
    rewrite (bind_ok _ _ _ _ _ Hg).
    rewrite (bind_ok _ _ _ _ _ Hg).
    apply guarded_find_then. rewrite Hc.
    destruct (mode c); [apply guarded_instant_run | done | apply guarded_scheduled_run].
  - assert (Hg : get_collection w = (Exc RuntimeError, w)).
    { unfold get_collection. simpl. by rewrite Hdb. }
    rewrite (bind_exc _ _ _ _ _ Hg).
    exists []. rewrite app_nil_r. split; [done|]. by left.
Qed.

(** The handlers around [execute_body] only log. *)
Lemma execute_campaign_effect (cid : string) (w : World) :
  campaigns (snd (_execute_campaign cid w)) = campaigns (snd (execute_body cid w))
  ∧ history (snd (_execute_campaign cid w)) = history (snd (execute_body cid w)).
Proof.
  unfold _execute_campaign, try_except, try_cancelled.
  destruct (execute_body cid w) as [[a|e|] w1]; simpl; [done| |done].
  by destruct e.
Qed.

(** C5 (amended): [cancel_campaign] sets a campaign to cancelled from
    whatever status is stored, terminal ones included; and an execution in
    INSTANT or SCHEDULED mode that is cancelled at one of its suspensions
    writes nothing to the campaign collection, so the status written by the
    cancel operation stays, with one exception: when the cancellation
    arrives last, on the completion write, and that write was already
    handed to the driver, the campaign is stored as completed and no other
    campaign is touched. *)
Theorem cancel_from_any_status_and_cancelled_run_keeps_it (cid who : string)
    (w : World) (c : Campaign) :
  campaigns w !! cid = Some c →
  (db_connected w = true → head_event (events w) = Proceed →
   fst (cancel_campaign cid who w)
     = Ok (mkResult true "Campaign cancelled successfully"
             (Some CampaignStatus.CANCELLED))
   ∧ stored_status cid (snd (cancel_campaign cid who w))
     = Some CampaignStatus.CANCELLED)
  ∧ (mode c ≠ CampaignMode.PACED →
     ∀ t, history (snd (_execute_campaign cid w)) = history w ++ t →
          cancelled t →
          campaigns (snd (_execute_campaign cid w)) = campaigns w
          ∨ (last t = Some CancelAfter
             ∧ stored_status cid (snd (_execute_campaign cid w))
               = Some CampaignStatus.COMPLETED
             ∧ ∀ other, other ≠ cid →
                 campaigns (snd (_execute_campaign cid w)) !! other
                 = campaigns w !! other)).
Proof.
  intros Hc. split.
  - intros Hdb Hev. by apply (cancel_campaign_any_status cid who w c).
  - intros Hm t Ht Hin.
    destruct (execute_campaign_effect cid w) as [Hcs Hh].
    destruct (guarded_execute_body cid w c Hc Hm) as (t' & Ht' & Hx).
    rewrite Hh, Ht' in Ht. apply app_inv_head in Ht as ->.
    destruct (Hx Hin) as [Hsame|(Hlast & c' & sent & failed & now & _ & Hdone)].
    + left. by rewrite Hcs.
    + right. split; [done|]. unfold stored_status. rewrite Hcs, Hdone. split.
      * by rewrite lookup_insert_eq.
      * intros other Hne. by rewrite lookup_insert_ne.
Qed.

Lemma cancel_from_any_status_and_cancelled_run_keeps_it_witness :
  let w := sample_world CampaignMode.INSTANT CampaignStatus.COMPLETED [] in
  let w1 := sample_world CampaignMode.INSTANT CampaignStatus.CANCELLED
              [Proceed; Proceed; Cancel] in
  (fst (cancel_campaign "c1" "admin" w)
     = Ok (mkResult true "Campaign cancelled successfully"
             (Some CampaignStatus.CANCELLED))
   ∧ stored_status "c1" (snd (cancel_campaign "c1" "admin" w))
     = Some CampaignStatus.CANCELLED)
  ∧ history (snd (_execute_campaign "c1" w1)) = history w1 ++ [Proceed; Proceed; Cancel]
  ∧ campaigns (snd (_execute_campaign "c1" w1)) = campaigns w1
  ∧ stored_status "c1" (snd (_execute_campaign "c1" w1))
    = Some CampaignStatus.CANCELLED.
Proof.
  intros w w1.
  assert (Hrun : campaigns (snd (_execute_campaign "c1" w1)) = campaigns w1).
  { assert (Hcut : cancelled [Proceed; Proceed; Cancel]).
    { left. apply list_elem_of_In. simpl. tauto. }
    destruct (proj2 (cancel_from_any_status_and_cancelled_run_keeps_it "c1" "admin" w1
                       (sample_campaign CampaignMode.INSTANT CampaignStatus.CANCELLED)
                       eq_refl)
                    ltac:(discriminate) [Proceed; Proceed; Cancel] eq_refl Hcut)
      as [Hsame|[Hlast _]]; [exact Hsame | discriminate Hlast]. }
  split; [|split; [|split]].
  - apply (cancel_from_any_status_and_cancelled_run_keeps_it "c1" "admin" w
             (sample_campaign CampaignMode.INSTANT CampaignStatus.COMPLETED) eq_refl);
      reflexivity.
  - reflexivity.
  - exact Hrun.
  - unfold stored_status. rewrite Hrun. reflexivity.
Defined.

(** The PACED branch is different: its loop catches the cancellation and
    falls through to the completion write, which replaces the cancelled
    status. *)
Example paced_run_overwrites_cancelled :
  stored_status "c1"
    (snd (_execute_campaign "c1"
            (sample_world CampaignMode.PACED CampaignStatus.CANCELLED
               [Proceed; Proceed; Proceed; Cancel])))
  = Some CampaignStatus.COMPLETED.
Proof. vm_compute. reflexivity. Qed.

(** The exception is real: an INSTANT run that is cancelled while its
    completion write is with the driver stores completed over cancelled. *)
Example completion_write_in_flight_overwrites_cancelled :
  stored_status "c1"
    (snd (_execute_campaign "c1"
            (sample_world CampaignMode.INSTANT CampaignStatus.CANCELLED
               [Proceed; Proceed; Proceed; Proceed; Proceed; Proceed; CancelAfter])))
  = Some CampaignStatus.COMPLETED.
Proof. vm_compute. reflexivity. Qed.

(** *** Who marks a target as sent *)

(** The claim of the spec, in its two halves. *)
Definition worker_advances_target : Prop :=
  ∀ (w : World) (b : string) (wk : Worker) (msg : Message) (rest : list Message)
    (mid cid : string),
    active_workers w !! b = Some wk →
    message_queue wk = msg :: rest →
    msg_campaign_id msg = Some cid →
    is_Some (status_of_target cid (msg_user_id msg) w) →
    delivered cid (msg_user_id msg) (snd (message_processor b (Delivered mid) w)) →
    status_of_target cid (msg_user_id msg)
      (snd (message_processor b (Delivered mid) w)) = Some TargetStatus.SENT.

Definition sent_only_after_delivery : Prop :=
  ∀ (campaign : Campaign) (target_doc : CampaignTarget) (w : World) (cid : string),
    id campaign = Some cid →
    status_of_target cid (user_id target_doc)
      (snd (_send_campaign_message campaign target_doc w)) = Some TargetStatus.SENT →
    delivered cid (user_id target_doc)
      (snd (_send_campaign_message campaign target_doc w)).

(** The sample world with the first target's message already queued. *)
Definition queued_world : World :=
  mkWorld true
    {["c1" := sample_campaign CampaignMode.INSTANT CampaignStatus.RUNNING]}
    [mkTarget "c1" "1001" (Some "b1") TargetStatus.PENDING 0 None None]
    []
    {["b1" := mkWorker "b1" (RateLimiter.new_limiter "b1")
                [mkMessage "1001" "hello" None (Some "c1") 0] 0 0 0]}
    ∅ ∅ (RateLimiter.mkLoop 0 []) [] [] [].

(** C4, as the spec states it, fails: a worker that delivers a queued
    campaign message and logs the success leaves the target pending. *)
Lemma delivery_leaves_target_pending : ¬ worker_advances_target.
Proof.
  intros H.
  specialize (H queued_world "b1"
                (mkWorker "b1" (RateLimiter.new_limiter "b1")
                   [mkMessage "1001" "hello" None (Some "c1") 0] 0 0 0)
                (mkMessage "1001" "hello" None (Some "c1") 0) [] "m1" "c1"
                eq_refl eq_refl eq_refl).
  assert (Hsome : is_Some (status_of_target "c1" "1001" queued_world))
    by (vm_compute; eauto).
  assert (Hdel : delivered "c1" "1001"
                   (snd (message_processor "b1" (Delivered "m1") queued_world))).
  { eexists. split; [|repeat split].
    - vm_compute. apply list_elem_of_here.
    - reflexivity.
    - reflexivity.
    - reflexivity. }
  specialize (H Hsome Hdel). vm_compute in H. discriminate.
Qed.

(** Queueing the message already marks the target sent, although nothing
    has been delivered. *)
Example enqueue_marks_target_sent : ¬ sent_only_after_delivery.
Proof.
  intros H.
  specialize (H (sample_campaign CampaignMode.INSTANT CampaignStatus.RUNNING)
                (mkTarget "c1" "1001" (Some "b1") TargetStatus.PENDING 0 None None)
                (sample_world CampaignMode.INSTANT CampaignStatus.RUNNING [])
                "c1" eq_refl eq_refl).
  destruct H as (s & Hin & _). vm_compute in Hin. by apply elem_of_nil in Hin.
Qed.

(** [m] writes no target. *)
Definition keeps_targets {A} (m : M World A) : Prop :=
  ∀ w, targets (snd (m w)) = targets w.

Lemma keeps_ret {A} (a : A) : keeps_targets (mret a : M World A).
Proof. by intros w. Qed.

Lemma keeps_raise {A} (e : exn) : keeps_targets (raise e : M World A).
Proof. by intros w. Qed.

Lemma keeps_gets {A} (f : World → A) : keeps_targets (gets f).
Proof. by intros w. Qed.

Lemma keeps_modify (f : World → World) :
  (∀ w, targets (f w) = targets w) → keeps_targets (modify f).
Proof. intros Hf w. apply Hf. Qed.

Lemma keeps_get_collection : keeps_targets (get_collection : M World unit).
Proof. intros w. unfold get_collection. by destruct (connected w). Qed.

Lemma keeps_bind {A B} (m : M World A) (k : A → M World B) :
  keeps_targets m → (∀ a, keeps_targets (k a)) → keeps_targets (m ≫= k).
Proof.
  intros Hm Hk w. specialize (Hm w).
  unfold mbind, M_bind, bind. destruct (m w) as [[a|e|] w1]; simpl in *; try done.
  by rewrite Hk.
Qed.

Lemma keeps_try_except {A} (body : M World A) (handler : exn → M World A) :
  keeps_targets body → (∀ e, keeps_targets (handler e)) →
  keeps_targets (try_except body handler).
Proof.
  intros Hb Hh w. specialize (Hb w). unfold try_except.
  destruct (body w) as [[a|e|] w1]; simpl in *; try done.
  destruct (is_Exception e); [|done]. by rewrite Hh.
Qed.

Lemma keeps_store_call {A} (op : M World A) :
  keeps_targets op → keeps_targets (store_call op).
Proof.
  intros Hop w. pose proof (Hop (consume_event w)) as H. unfold store_call.
  by destruct (head_event (oracle w)).
Qed.

Lemma keeps_self_worker self : keeps_targets (self_worker self).
Proof. intros w. unfold self_worker. by destruct (active_workers w !! self). Qed.

Lemma keeps_put_worker self wk : keeps_targets (put_worker self wk).
Proof. by apply keeps_modify. Qed.

Lemma keeps_log_error line : keeps_targets (log_error line).
Proof. by apply keeps_modify. Qed.

Lemma keeps_sleep d : keeps_targets (sleep d).
Proof. intros w. unfold sleep. by destruct (head_event (events w)). Qed.

Lemma keeps_queue_put self m : keeps_targets (queue_put self m).
Proof.
  apply keeps_bind; [apply keeps_self_worker | intros wk; apply keeps_put_worker].
Qed.

Lemma keeps_limiter_acquire self method endpoint :
  keeps_targets (limiter_acquire self method endpoint).
Proof.
  intros w. unfold limiter_acquire, bind, self_worker.
  destruct (active_workers w !! self) as [wk|]; [|done].
  by destruct (RateLimiter.acquire _ _ _ _) as [r [l' rl']].
Qed.

Lemma keeps_record_send self campaign user st code msg :
  keeps_targets (_record_send self campaign user st code msg).
Proof.
  apply keeps_try_except; [|intros e; apply keeps_log_error].
  apply keeps_bind; [apply keeps_get_collection | intros _].
  apply keeps_bind; [apply keeps_self_worker | intros wk].
  by apply keeps_store_call, keeps_modify.
Qed.

Lemma keeps_bump self p f e : keeps_targets (bump self p f e).
Proof.
  apply keeps_bind; [apply keeps_self_worker | intros wk; apply keeps_put_worker].
Qed.

Lemma keeps_send_dm_body self user text embed campaign d :
  keeps_targets (send_dm_body self user text embed campaign d).
Proof.
  apply keeps_bind; [apply keeps_limiter_acquire | intros _].
  destruct (PyStr.int user); [apply keeps_ret|].
  destruct d as [|mid| |status_code h str_e|str_e].
  - apply keeps_ret.
  - apply keeps_bind; [apply keeps_record_send | intros _].
    apply keeps_bind; [apply keeps_bump | intros _; apply keeps_ret].
  - apply keeps_bind; [apply keeps_record_send | intros _; apply keeps_ret].
  - destruct (status_code =? 429).
    + apply keeps_bind; [apply keeps_self_worker | intros wk].
      apply keeps_bind; [apply keeps_gets | intros t].
      destruct (RateLimiter.update_rate_limits _ _ _ _ _ _); [apply keeps_raise|].
      apply keeps_bind; [apply keeps_put_worker | intros _].
      apply keeps_bind; [apply keeps_record_send | intros _; apply keeps_ret].
    + apply keeps_bind; [apply keeps_record_send | intros _; apply keeps_ret].
  - apply keeps_ret.
Qed.

Lemma keeps_send_dm self user text embed campaign d :
  keeps_targets (send_dm self user text embed campaign d).
Proof.
  apply keeps_bind.
  - apply keeps_try_except; [apply keeps_send_dm_body | intros e; apply keeps_ret].
  - intros [error|result]; [|apply keeps_ret].
    apply keeps_bind; [apply keeps_log_error | intros _].
    apply keeps_bind; [apply keeps_record_send | intros _].
    apply keeps_bind; [apply keeps_bump | intros _; apply keeps_ret].
Qed.

(** Whatever the platform answers, the worker's loop writes no target. *)
Lemma message_processor_keeps_targets (self : string) (d : delivery) :
  keeps_targets (message_processor self d).
Proof.
  apply keeps_try_except; [|intros e; apply keeps_log_error].
  apply keeps_bind; [apply keeps_self_worker | intros wk].
  destruct (message_queue wk) as [|message_data rest]; [apply keeps_ret|].
  apply keeps_bind; [apply keeps_put_worker | intros _].
  apply keeps_bind; [apply keeps_send_dm | intros result].
  destruct (decide _); [|apply keeps_ret].
  apply keeps_bind; [apply keeps_sleep | intros _; apply keeps_queue_put].
Qed.

(** The message built by [queue_message]. *)
Definition the_message (campaign : Campaign) (target_doc : CampaignTarget) (t : Z)
  : Message :=
  mkMessage (user_id target_doc) (message_content campaign) (embed_data campaign)
            (id campaign) t.

(** The id is one that [int] accepts, as the ids of the platform are. *)
Definition numeric (s : string) : Prop := ∃ n, PyStr.int s = inr n.

(** The targets once [_send_campaign_message] has queued the message: the
    first target of the campaign object's id and the user is marked sent. *)
Definition targets_after_enqueue (campaign : Campaign) (target_doc : CampaignTarget)
    (w : World) : list CampaignTarget :=
  match list_find (fun t => target_matches (id campaign) (user_id target_doc) t = true)
                  (targets w) with
  | Some (i, t) => <[i := mark_sent (RateLimiter.now (loop w)) t]> (targets w)
  | None => targets w
  end.

Lemma run_send_campaign_message (campaign : Campaign) (target_doc : CampaignTarget)
    (w : World) (b : string) (wk : Worker) :
  db_connected w = true → events w = [] →
  assigned_bot_id target_doc = Some b →
  active_workers w !! b = Some wk →
  _send_campaign_message campaign target_doc w
  = (Ok tt,
     set_targets (targets_after_enqueue campaign target_doc w)
       (consume_event
          (set_workers
             (<[b := mkWorker (bot_id wk) (rate_limiter wk)
                       (message_queue wk
                          ++ [the_message campaign target_doc (RateLimiter.now (loop w))])
                       (processed_messages wk) (failed_messages wk)
                       (errors_last_hour wk)]>
                (active_workers w)) w))).
Proof.
  intros Hdb Hev Hb Hwk.
  unfold _send_campaign_message, try_except, get_bot_worker, queue_message, queue_put,
    self_worker, put_worker, update_target, targets_after_enqueue, the_message.
  unfold mbind, M_bind, bind, get_collection, store_call, utcnow, gets, modify,
    mret, M_ret, ret.
  destruct w as [db cs ts ss ws tk ac l ev h er]. cbn in Hdb, Hev, Hwk |- *. subst db ev.
  rewrite Hb, Hwk. cbn. rewrite Hwk. cbn.
  destruct (list_find _ ts) as [[i t]|]; reflexivity.
Qed.

Lemma acquire_dm_channels (l : RateLimiter.Loop) (rl : RateLimiter.DiscordRateLimiter) :
  RateLimiter.locks rl !! "dm_channels" ≠ Some true →
  ∃ l' rl',
    RateLimiter.acquire "POST" "/users/@me/channels" None (l, rl) = (Ok true, (l', rl')).
Proof.
  intros Hlock. unfold RateLimiter.acquire.
  change (RateLimiter._get_bucket_key "POST" "/users/@me/channels" None)
    with (inr "dm_channels" : exn + string).
  cbv beta iota.
  destruct (RateLimiter.locks rl !! "dm_channels") as [[|]|] eqn:El; [done| |].
  - rewrite El.
    destruct (RateLimiter.wait_for_global _ _), (RateLimiter.wait_for_bucket _ _). eauto.
  - rewrite lookup_insert_eq.
    destruct (RateLimiter.wait_for_global _ _), (RateLimiter.wait_for_bucket _ _). eauto.
Qed.

Lemma run_message_processor_delivered (w : World) (b : string) (wk : Worker)
    (msg : Message) (rest : list Message) (mid : string) :
  db_connected w = true → events w = [] →
  active_workers w !! b = Some wk →
  message_queue wk = msg :: rest →
  numeric (msg_user_id msg) →
  RateLimiter.locks (rate_limiter wk) !! "dm_channels" ≠ Some true →
  ∃ l' rl',
    message_processor b (Delivered mid) w
    = (Ok tt,
       set_workers
         (<[b := mkWorker (bot_id wk) rl' rest (processed_messages wk + 1)
                          (failed_messages wk + 0) (errors_last_hour wk + 0)]>
            (active_workers w))
         (set_sends
            (sends w ++ [mkSend (default "" (msg_campaign_id msg)) (msg_user_id msg)
                                (bot_id wk) SendStatus.SUCCESS None None])
            (consume_event (set_loop l' w)))).
Proof.
  intros Hdb Hev Hwk Hq [n Hn] Hlock.
  destruct (acquire_dm_channels (loop w) (rate_limiter wk) Hlock) as (l' & rl' & Hacq).
  exists l', rl'.
  unfold message_processor, send_dm, send_dm_body, limiter_acquire, _record_send, bump,
    try_except, self_worker, put_worker.
  unfold mbind, M_bind, bind, get_collection, store_call, utcnow, gets, modify,
    mret, M_ret, ret.
  destruct w as [db cs ts ss ws tk ac l ev h er]. cbn in Hdb, Hev, Hwk, Hacq |- *.
  subst db ev.
  rewrite Hwk, Hq. cbn. rewrite lookup_insert_eq. cbn. rewrite Hacq. cbn.
  rewrite Hn. cbn.
  rewrite !lookup_insert_eq. cbn. rewrite !lookup_insert_eq. cbn.
  rewrite !insert_insert_eq. reflexivity.
Qed.

(** The target the controller marks is found again, and is sent. *)
Lemma status_after_enqueue (campaign : Campaign) (target_doc : CampaignTarget)
    (w : World) (cid : string) :
  id campaign = Some cid →
  campaign_id target_doc = cid →
  target_doc ∈ targets w →
  target_status
  <$> (snd <$> list_find
                 (fun t => target_matches (Some cid) (user_id target_doc) t = true)
                 (targets_after_enqueue campaign target_doc w))
  = Some TargetStatus.SENT.
Proof.
  intros Hid Hcid Hin. unfold targets_after_enqueue. rewrite Hid.
  destruct (list_find _ (targets w)) as [[i t]|] eqn:E.
  - pose proof E as E'. apply list_find_Some in E' as (_ & Ht & _).
    erewrite AssignmentFacts.list_find_insert_same; [reflexivity|exact E|]. exact Ht.
  - apply list_find_None in E. rewrite Forall_forall in E. destruct (E _ Hin).
    unfold target_matches. by rewrite Hcid, !String.eqb_refl.
Qed.

(** C4 (amended): with the store working, [_send_campaign_message] puts
    the message on the worker's queue and at once sets the target of the
    campaign and the user to sent, before any delivery is attempted and
    without any Send record; when the worker, whose queue was empty, then
    delivers the message, it appends a Send record with outcome success and
    leaves the targets as they are. Whatever the outcome of a delivery, the
    worker's loop never writes a target. *)
Theorem target_sent_on_enqueue_send_logged_on_delivery (campaign : Campaign)
    (target_doc : CampaignTarget) (w : World) (b : string) (wk : Worker)
    (mid cid : string) :
  db_connected w = true →
  events w = [] →
  id campaign = Some cid →
  campaign_id target_doc = cid →
  target_doc ∈ targets w →
  numeric (user_id target_doc) →
  assigned_bot_id target_doc = Some b →
  active_workers w !! b = Some wk →
  message_queue wk = [] →
  RateLimiter.locks (rate_limiter wk) !! "dm_channels" ≠ Some true →
  let w1 := snd (_send_campaign_message campaign target_doc w) in
  let w2 := snd (message_processor b (Delivered mid) w1) in
  fst (_send_campaign_message campaign target_doc w) = Ok tt
  ∧ status_of_target cid (user_id target_doc) w1 = Some TargetStatus.SENT
  ∧ targets w1 = targets_after_enqueue campaign target_doc w
  ∧ sends w1 = sends w
  ∧ message_queue <$> active_workers w1 !! b
    = Some [the_message campaign target_doc (RateLimiter.now (loop w))]
  ∧ fst (message_processor b (Delivered mid) w1) = Ok tt
  ∧ sends w2
    = sends w ++ [mkSend cid (user_id target_doc) (bot_id wk)
                         SendStatus.SUCCESS None None]
  ∧ targets w2 = targets w1
  ∧ status_of_target cid (user_id target_doc) w2 = Some TargetStatus.SENT
  ∧ (∀ self d w', targets (snd (message_processor self d w')) = targets w').
Proof.
  intros Hdb Hev Hid Hcid Hin Hnum Hb Hwk Hq Hlock. cbv zeta.
  pose proof (run_send_campaign_message campaign target_doc w b wk Hdb Hev Hb Hwk) as Hrun.
  rewrite Hq in Hrun. cbn [app] in Hrun. rewrite Hrun. cbn [fst snd].
  set (msg := the_message campaign target_doc (RateLimiter.now (loop w))).
  set (wk1 := mkWorker (bot_id wk) (rate_limiter wk) [msg] (processed_messages wk)
                (failed_messages wk) (errors_last_hour wk)).
  set (w1 := set_targets (targets_after_enqueue campaign target_doc w)
               (consume_event (set_workers (<[b := wk1]> (active_workers w)) w))).
  assert (Hdb1 : db_connected w1 = true) by done.
  assert (Hev1 : events w1 = []) by (simpl; by rewrite Hev).
  assert (Hwk1 : active_workers w1 !! b = Some wk1) by (simpl; by rewrite lookup_insert_eq).
  destruct (run_message_processor_delivered w1 b wk1 msg [] mid Hdb1 Hev1 Hwk1 eq_refl
              Hnum Hlock) as (l' & rl' & Hrun2).
  rewrite Hrun2. cbn [fst snd].
  assert (Hsent : status_of_target cid (user_id target_doc) w1 = Some TargetStatus.SENT)
    by (by apply status_after_enqueue).
  split; [done|]. split; [exact Hsent|]. split; [done|]. split; [done|].
  split; [by rewrite Hwk1|]. split; [done|].
  split; [cbn; by rewrite Hid|]. split; [done|]. split; [exact Hsent|].
  intros self d w'. apply message_processor_keeps_targets.
Qed.

Lemma target_sent_on_enqueue_send_logged_on_delivery_witness :
  let campaign := sample_campaign CampaignMode.INSTANT CampaignStatus.RUNNING in
  let target_doc := mkTarget "c1" "1001" (Some "b1") TargetStatus.PENDING 0 None None in
  let w := sample_world CampaignMode.INSTANT CampaignStatus.RUNNING [] in
  let wk := mkWorker "b1" (RateLimiter.new_limiter "b1") [] 0 0 0 in
  let w1 := snd (_send_campaign_message campaign target_doc w) in
  let w2 := snd (message_processor "b1" (Delivered "m1") w1) in
  fst (_send_campaign_message campaign target_doc w) = Ok tt
  ∧ status_of_target "c1" (user_id target_doc) w1 = Some TargetStatus.SENT
  ∧ targets w1 = targets_after_enqueue campaign target_doc w
  ∧ sends w1 = sends w
  ∧ message_queue <$> active_workers w1 !! "b1"
    = Some [the_message campaign target_doc (RateLimiter.now (loop w))]
  ∧ fst (message_processor "b1" (Delivered "m1") w1) = Ok tt
  ∧ sends w2
    = sends w ++ [mkSend "c1" (user_id target_doc) (bot_id wk)
                         SendStatus.SUCCESS None None]
  ∧ targets w2 = targets w1
  ∧ status_of_target "c1" (user_id target_doc) w2 = Some TargetStatus.SENT
  ∧ (∀ self d w', targets (snd (message_processor self d w')) = targets w').
Proof.
  intros campaign target_doc w wk.
  apply (target_sent_on_enqueue_send_logged_on_delivery campaign target_doc w "b1" wk
           "m1" "c1").
  - reflexivity.
  - reflexivity.
  - reflexivity.
  - reflexivity.
  - simpl. apply list_elem_of_here.
  - eexists. vm_compute. reflexivity.
  - reflexivity.
  - reflexivity.
  - reflexivity.
  - vm_compute. discriminate.
Defined.

End DispatchFacts.

(** ** The limiter, further *)

Module LimiterLaws.
Import RateLimiter RateLimiterFacts.

(** *** Waiting on a bucket *)

(** X1: a bucket with a positive limit is never rate limited at the time the
    wait of [acquire] ends; and if it was rate limited when the wait began,
    the clock has moved forward. *)
Theorem wait_for_bucket_clears (l : Loop) (b : RateLimitBucket) :
  0 < limit b →
  is_rate_limited (now (fst (wait_for_bucket l b))) (snd (wait_for_bucket l b)) = false
  ∧ (is_rate_limited (now l) b = true → now l < now (fst (wait_for_bucket l b))).
Proof.
  intros Hlim. unfold wait_for_bucket.
  destruct (is_rate_limited (now l) b) eqn:E; cbn [fst snd]; [|split; [done|discriminate]].
  split.
  - unfold is_rate_limited, retry_pending, refill. cbn.
    destruct (Z.leb_spec (limit b) 0); [lia|done].
  - intros _. unfold is_rate_limited, retry_pending in E. unfold time_until_reset. cbn.
    destruct (retry_after b) as [r|].
    + destruct (negb (r =? 0) && (now l <? r)) eqn:Er.
      * apply andb_true_iff in Er as [_ Hlt]. apply Z.ltb_lt in Hlt. lia.
      * destruct (Z.ltb_spec (now l) (reset_timestamp b)); [lia|].
        rewrite andb_false_r in E. discriminate.
    + destruct (Z.ltb_spec (now l) (reset_timestamp b)); [lia|].
      rewrite andb_false_r in E. discriminate.
Qed.

Lemma wait_for_bucket_clears_witness :
  let b := mkBucket 0 5 0 900 None in
  let l := mkLoop 100 [] in
  is_rate_limited (now (fst (wait_for_bucket l b))) (snd (wait_for_bucket l b)) = false
  ∧ (is_rate_limited (now l) b = true → now l < now (fst (wait_for_bucket l b))).
Proof.
  intros b l. apply (wait_for_bucket_clears l b). simpl. lia.
Defined.

(** *** Bucket keys of channel routes *)

(** [c] has no slash in it. *)
Fixpoint slashless (c : string) : bool :=
  match c with
  | EmptyString => true
  | String a c' => negb (Ascii.eqb a "/") && slashless c'
  end.

Lemma split_on_slashless (c rest : string) :
  slashless c = true →
  PyStr.split_on "/" (c +:+ String "/" rest)
  = (c, fst (PyStr.split_on "/" rest) :: snd (PyStr.split_on "/" rest)).
Proof.
  intros Hc. induction c as [|a c IH]; cbv [append]; fold append.
  - cbn [PyStr.split_on]. rewrite Ascii.eqb_refl.
    by destruct (PyStr.split_on "/" rest).
  - cbn [slashless] in Hc. apply andb_true_iff in Hc as [Ha Hc].
    cbn [PyStr.split_on]. specialize (IH Hc). cbv [append] in IH; fold append in IH.
    unfold String.app in *. rewrite IH.
    apply negb_true_iff in Ha. by rewrite Ha.
Qed.

Lemma prefix_append (p s : string) : String.prefix p (p +:+ s) = true.
Proof.
  induction p as [|a p IH]; [by destruct s|].
  cbv [append]; fold append. cbn [String.prefix].
  destruct (ascii_dec a a); [exact IH|done].
Qed.

Lemma contains_append (sub p s : string) :
  PyStr.contains sub (p +:+ sub +:+ s) = true.
Proof.
  induction p as [|a p IH].
  - change ("" +:+ sub +:+ s) with (sub +:+ s).
    destruct (sub +:+ s) eqn:E; cbn [PyStr.contains]; rewrite <- E, prefix_append; done.
  - cbv [append]; fold append. cbn [PyStr.contains]. 
    cbv [append] in IH; fold append in IH. unfold String.app in *. rewrite IH. apply orb_true_r.
Qed.

Lemma contains_later (sub : string) (a : ascii) (s : string) :
  PyStr.contains sub s = true → PyStr.contains sub (String a s) = true.
Proof. intros H. cbn [PyStr.contains]. rewrite H. apply orb_true_r. Qed.

(** X2: every route under [/channels/<c>/...] whose path contains
    [/messages] after the channel id gets the key [channel_messages:<c>],
    whatever the method, the rest of the path and the guild argument: sending,
    editing and deleting messages of one channel draw on one bucket. *)
Theorem channel_messages_share_a_bucket (method c suffix : string)
    (guild_id : option string) :
  slashless c = true →
  _get_bucket_key method ("/channels/" +:+ c +:+ "/messages" +:+ suffix) guild_id
  = inr ("channel_messages:" +:+ c).
Proof.
  intros Hc. unfold _get_bucket_key.
  assert (Hp : PyStr.startswith ("/channels/" +:+ c +:+ "/messages" +:+ suffix)
                 "/channels/" = true) by apply prefix_append.
  rewrite Hp.
  assert (Hm : PyStr.contains "/messages"
                 ("/channels/" +:+ c +:+ "/messages" +:+ suffix) = true).
  { cbv [append]; fold append. do 10 apply contains_later.
    apply (contains_append "/messages" c suffix). }
  rewrite Hm.
  assert (Hs : PyStr.split "/" ("/channels/" +:+ c +:+ "/messages" +:+ suffix) !! 2%nat
               = Some c).
  { unfold PyStr.split. cbv [append]; fold append. cbn [PyStr.split_on Ascii.eqb Bool.eqb].
    pose proof (split_on_slashless c ("messages" +:+ suffix) Hc) as E.
    cbv [append] in E; fold append in E. unfold String.app in *. rewrite E. reflexivity. }
  unfold PyStr.index. rewrite Hs. reflexivity.
Qed.

Lemma channel_messages_share_a_bucket_witness :
  _get_bucket_key "DELETE" ("/channels/" +:+ "42" +:+ "/messages" +:+ "/7") None
  = inr ("channel_messages:" +:+ "42").
Proof. apply (channel_messages_share_a_bucket "DELETE" "42" "/7" None). reflexivity. Defined.

(** *** What a call leaves alone *)

(** X3: a call to [acquire] leaves every bucket and every lock other than
    those of its own key as they were, and never changes the bot id. *)
Theorem acquire_touches_one_bucket (method endpoint : string)
    (guild_id : option string) (key other : string) (l : Loop)
    (rl : DiscordRateLimiter) :
  _get_bucket_key method endpoint guild_id = inr key →
  other ≠ key →
  let rl' := snd (snd (acquire method endpoint guild_id (l, rl))) in
  buckets rl' !! other = buckets rl !! other
  ∧ locks rl' !! other = locks rl !! other
  ∧ bot_id rl' = bot_id rl.
Proof.
  intros Hk Hne. unfold acquire. rewrite Hk.
  assert (Hl : ∀ m : gmap string bool,
             match m !! key with Some _ => m | None => <[key := false]> m end !! other
             = m !! other).
  { intros m. destruct (m !! key); [done|]. by rewrite lookup_insert_ne. }
  destruct (_ !! key) as [[|]|] eqn:El; cbn [snd locks buckets bot_id].
  - rewrite Hl. done.
  - destruct (wait_for_global _ _) as [l1 g1], (wait_for_bucket _ _) as [l2 b2].
    cbn [snd locks buckets bot_id]. rewrite Hl, lookup_insert_ne by done.
    destruct (buckets rl !! key); [done|]. by rewrite lookup_insert_ne.
  - destruct (wait_for_global _ _) as [l1 g1], (wait_for_bucket _ _) as [l2 b2].
    cbn [snd locks buckets bot_id]. rewrite Hl, lookup_insert_ne by done.
    destruct (buckets rl !! key); [done|]. by rewrite lookup_insert_ne.
Qed.

Lemma acquire_touches_one_bucket_witness :
  let rl := mkLimiter "bot" {["guild:1" := mkBucket 0 5 0 900 None]} ∅ None in
  let rl' := snd (snd (acquire "POST" "/users/@me/channels" None (mkLoop 100 [], rl))) in
  buckets rl' !! "guild:1" = buckets rl !! "guild:1"
  ∧ locks rl' !! "guild:1" = locks rl !! "guild:1"
  ∧ bot_id rl' = bot_id rl.
Proof.
  intros rl.
  apply (acquire_touches_one_bucket "POST" "/users/@me/channels" None "dm_channels"
           "guild:1" (mkLoop 100 []) rl).
  - reflexivity.
  - discriminate.
Defined.

(** *** The budget never goes below zero *)

Definition sane (b : RateLimitBucket) : Prop := 0 ≤ remaining b ∧ 0 ≤ limit b.

Lemma sane_consume (b : RateLimitBucket) : sane b → sane (consume b).
Proof.
  unfold sane, consume. destruct (Z.ltb_spec 0 (remaining b)); simpl; lia.
Qed.

Lemma sane_wait_for_bucket (l : Loop) (b : RateLimitBucket) :
  sane b → sane (snd (wait_for_bucket l b)).
Proof.
  unfold sane, wait_for_bucket. destruct (is_rate_limited _ _); simpl; lia.
Qed.

Definition budgets_sane (rl : DiscordRateLimiter) : Prop :=
  map_Forall (fun _ b => sane b) (buckets rl).

(** X4: if no bucket of a limiter has a negative [remaining] or [limit],
    none has one after [acquire], whether the call waits, creates a bucket or
    finds its lock taken. *)
Theorem acquire_keeps_budgets_sane (method endpoint : string)
    (guild_id : option string) (l : Loop) (rl : DiscordRateLimiter) :
  budgets_sane rl →
  budgets_sane (snd (snd (acquire method endpoint guild_id (l, rl)))).
Proof.
  unfold budgets_sane. intros Hall. unfold acquire.
  destruct (_get_bucket_key method endpoint guild_id) as [e|key]; [apply Hall|].
  set (locks1 := match locks rl !! key with Some _ => _ | None => _ end).
  assert (Hnew : sane new_bucket) by (unfold sane; simpl; lia).
  assert (Hall1 : map_Forall (fun _ b => sane b)
            match buckets rl !! key with
            | Some _ => buckets rl
            | None => <[key := new_bucket]> (buckets rl)
            end).
  { destruct (buckets rl !! key); [done|]. by apply map_Forall_insert_2. }
  destruct (locks1 !! key) as [[|]|]; cbn [snd buckets]; [apply Hall| |].
  all: destruct (wait_for_global _ _) as [l1 g1].
  all: destruct (wait_for_bucket _ _) as [l2 b2] eqn:Ew; cbn [snd buckets].
  all: apply map_Forall_insert_2; [|done].
  all: apply sane_consume; change b2 with (snd (l2, b2)); rewrite <- Ew.
  all: apply sane_wait_for_bucket.
  all: destruct (buckets rl !! key) as [b0|] eqn:Eb;
    [rewrite Eb; by apply (Hall key) | by rewrite lookup_insert_eq].
Qed.

Lemma acquire_keeps_budgets_sane_witness :
  budgets_sane
    (snd (snd (acquire "POST" "/users/@me/channels" None
                 (mkLoop 100 [],
                  mkLimiter "bot" {["dm_channels" := mkBucket 1 5 0 900 None]} ∅ None)))).
Proof.
  apply (acquire_keeps_budgets_sane "POST" "/users/@me/channels" None (mkLoop 100 [])).
  unfold budgets_sane. cbn [buckets]. apply map_Forall_singleton. unfold sane. simpl. lia.
Defined.

(** *** A 429 is served by the next call *)

(** X5: a global 429 recorded by [update_rate_limits] at time [t] touches no
    bucket; the next [acquire], on any route whose lock is free and called
    before the cooldown is over, first sleeps until [t + retry-after] (one
    second when the header is missing), returns [True] and clears the global
    limit. *)
Theorem global_cooldown_is_served (method endpoint : string) (h : Headers)
    (t : Z) (rl : DiscordRateLimiter) (method' endpoint' : string)
    (guild_id : option string) (key : string) (l : Loop) :
  x_ratelimit_global h = true →
  0 < t →
  _get_bucket_key method' endpoint' guild_id = inr key →
  locks rl !! key ≠ Some true →
  t ≤ now l →
  now l < t + default 1000 (header_retry_after h) →
  ∃ rl1 l2 rl2 more,
    update_rate_limits method endpoint h 429 t rl = inr rl1
    ∧ buckets rl1 = buckets rl
    ∧ acquire method' endpoint' guild_id (l, rl1) = (Ok true, (l2, rl2))
    ∧ slept l2 = slept l ++ (t + default 1000 (header_retry_after h) - now l) :: more
    ∧ t + default 1000 (header_retry_after h) ≤ now l2
    ∧ global_rate_limit rl2 = None.
Proof.
  intros Hglob Ht Hk Hlock Hle Hlt.
  set (retry := default 1000 (header_retry_after h)) in *.
  destruct (bucket_key_total method endpoint None) as [key0 Hk0].
  exists (mkLimiter (bot_id rl) (buckets rl) (locks rl) (Some (t + retry))).
  unfold update_rate_limits. rewrite Hk0, Hglob. cbn [Z.eqb Pos.eqb].
  unfold acquire. rewrite Hk. cbn [locks buckets global_rate_limit bot_id].
  assert (Hfree : match locks rl !! key with
                  | Some _ => locks rl
                  | None => <[key := false]> (locks rl)
                  end !! key ≠ Some true).
  { destruct (locks rl !! key) eqn:E; [by rewrite E|by rewrite lookup_insert_eq]. }
  set (locks1 := match locks rl !! key with Some _ => _ | None => _ end) in *.
  unfold wait_for_global.
  destruct (Z.eqb_spec (t + retry) 0); [lia|].
  destruct (Z.ltb_spec (now l) (t + retry)); [|lia]. cbn [negb andb].
  set (l1 := sleep (t + retry - now l) l).
  destruct (wait_for_bucket l1 _) as [l2 b2] eqn:Ew.
  assert (Hl2 : ∃ more, slept l2 = slept l1 ++ more ∧ now l1 ≤ now l2).
  { unfold wait_for_bucket in Ew. destruct (is_rate_limited _ _); injection Ew as <- <-.
    - eexists [_]. split; [reflexivity|]. simpl. lia.
    - exists []. split; [by rewrite app_nil_r|lia]. }
  destruct Hl2 as (more & Hs & Hn).
  exists l2, (mkLimiter (bot_id rl)
                (<[key := consume b2]>
                   match buckets rl !! key with
                   | Some _ => buckets rl
                   | None => <[key := new_bucket]> (buckets rl)
                   end) locks1 None), more.
  split; [reflexivity|]. split; [reflexivity|]. split.
  - destruct (locks1 !! key) as [[|]|]; [done|reflexivity|reflexivity].
  - split; [|split; [|reflexivity]].
    + rewrite Hs. subst l1. simpl. by rewrite <- app_assoc.
    + subst l1. simpl in Hn. lia.
Qed.

Lemma global_cooldown_is_served_witness :
  ∃ rl1 l2 rl2 more,
    update_rate_limits "POST" "/users/@me/channels"
      (mkHeaders None None None (Some 2000) true) 429 5000 (new_limiter "bot") = inr rl1
    ∧ buckets rl1 = buckets (new_limiter "bot")
    ∧ acquire "GET" "/guilds/9/members" None (mkLoop 5500 [], rl1) = (Ok true, (l2, rl2))
    ∧ slept l2 = slept (mkLoop 5500 [])
                 ++ (5000 + default 1000 (header_retry_after
                                            (mkHeaders None None None (Some 2000) true))
                     - now (mkLoop 5500 [])) :: more
    ∧ 5000 + default 1000 (header_retry_after (mkHeaders None None None (Some 2000) true))
      ≤ now l2
    ∧ global_rate_limit rl2 = None.
Proof.
  apply (global_cooldown_is_served "POST" "/users/@me/channels"
           (mkHeaders None None None (Some 2000) true) 5000 (new_limiter "bot")
           "GET" "/guilds/9/members" None "guild_members:9" (mkLoop 5500 [])).
  - reflexivity.
  - lia.
  - reflexivity.
  - vm_compute. discriminate.
  - simpl. lia.
  - simpl. lia.
Defined.

(** X6: a 429 that is not global, with a retry-after header [r], recorded at
    time [t]: the next [acquire] on the same route, called before [t + r]
    with its lock free and no global cooldown, sleeps exactly until [t + r],
    returns [True] and leaves the bucket without a retry-after. *)
Theorem retry_after_is_served (method endpoint : string) (h : Headers) (r t : Z)
    (rl : DiscordRateLimiter) (guild_id : option string) (key : string) (l : Loop) :
  x_ratelimit_global h = false →
  header_retry_after h = Some r →
  0 < t →
  _get_bucket_key method endpoint None = inr key →
  locks rl !! key ≠ Some true →
  global_idle (now l) (global_rate_limit rl) →
  t ≤ now l →
  now l < t + r →
  ∃ rl1 l2 rl2 b2,
    update_rate_limits method endpoint h 429 t rl = inr rl1
    ∧ acquire method endpoint guild_id (l, rl1) = (Ok true, (l2, rl2))
    ∧ slept l2 = slept l ++ [t + r - now l]
    ∧ now l2 = t + r
    ∧ buckets rl2 !! key = Some b2
    ∧ retry_after b2 = None.
Proof.
  intros Hglob Hr Ht Hk Hlock Hidle Hle Hlt.
  set (b := update_from_headers t h (default new_bucket (buckets rl !! key))).
  set (rl1 := mkLimiter (bot_id rl) (<[key := b]> (buckets rl)) (locks rl)
                (global_rate_limit rl)).
  assert (Hupd : update_rate_limits method endpoint h 429 t rl = inr rl1).
  { unfold update_rate_limits. rewrite Hk, Hglob. reflexivity. }
  assert (Hk' : _get_bucket_key method endpoint guild_id = inr key) by exact Hk.
  assert (Hb : buckets rl1 !! key = Some b) by apply lookup_insert_eq.
  destruct (acquire_unlocked _ _ _ _ l rl1 b Hk' Hb Hlock Hidle)
    as (rl2 & Hacq & Hb2 & _ & _).
  assert (Hret : retry_after b = Some (t + r)).
  { unfold b, update_from_headers. by rewrite Hr. }
  assert (Hw : wait_for_bucket l b = (sleep (t + r - now l) l, refill b)).
  { unfold wait_for_bucket, is_rate_limited, retry_pending, time_until_reset.
    rewrite Hret. destruct (Z.eqb_spec (t + r) 0); [lia|].
    destruct (Z.ltb_spec (now l) (t + r)); [|lia]. reflexivity. }
  rewrite Hw in Hacq, Hb2. cbn [fst snd] in Hacq, Hb2.
  exists rl1, (sleep (t + r - now l) l), rl2, (consume (refill b)).
  repeat split; try done.
  - simpl. lia.
  - unfold consume. by destruct (0 <? remaining (refill b)).
Qed.

Lemma retry_after_is_served_witness :
  ∃ rl1 l2 rl2 b2,
    update_rate_limits "POST" "/users/@me/channels"
      (mkHeaders None None None (Some 2000) false) 429 5000 (new_limiter "bot") = inr rl1
    ∧ acquire "POST" "/users/@me/channels" None (mkLoop 5500 [], rl1)
      = (Ok true, (l2, rl2))
    ∧ slept l2 = slept (mkLoop 5500 []) ++ [5000 + 2000 - now (mkLoop 5500 [])]
    ∧ now l2 = 5000 + 2000
    ∧ buckets rl2 !! "dm_channels" = Some b2
    ∧ retry_after b2 = None.
Proof.
  apply (retry_after_is_served "POST" "/users/@me/channels"
           (mkHeaders None None None (Some 2000) false) 2000 5000 (new_limiter "bot")
           None "dm_channels" (mkLoop 5500 [])).
  - reflexivity.
  - reflexivity.
  - lia.
  - reflexivity.
  - vm_compute. discriminate.
  - exact I.
  - simpl. lia.
  - simpl. lia.
Defined.

(** *** The pacer's window *)

(** X7: a call to the campaign pacer that returns has not slept: it has
    dropped the times older than a minute from the window, added its own,
    kept the pace and released the lock. A call that has to wait never
    returns, so no returning call has waited. (How many times the window
    then holds depends on the rounding of the wait in the source, which the
    clock of whole milliseconds does not show; nothing is stated about
    it.) *)
Theorem pacer_returns_without_sleeping (fuel : nat) (l l' : Loop)
    (p p' : CampaignRateLimiter) (v : bool) :
  pacer_acquire fuel (l, p) = Some (Ok v, (l', p')) →
  v = true
  ∧ l' = l
  ∧ message_times p'
    = filter (fun t => now l - minute < t) (message_times p) ++ [now l]
  ∧ messages_per_minute p' = messages_per_minute p
  ∧ lock p = false
  ∧ lock p' = false.
Proof.
  destruct fuel as [|fuel]; [discriminate|].
  cbn [pacer_acquire]. destruct (lock p); [discriminate|].
  set (times := filter (fun t => now l - minute < t) (message_times p)).
  assert (Hleave : ∀ l0,
    Some (Ok true, (l0, mkPacer (messages_per_minute p) (times ++ [now l]) false))
    = Some (Ok v, (l', p')) →
    v = true
    ∧ l' = l0
    ∧ message_times p' = times ++ [now l]
    ∧ messages_per_minute p' = messages_per_minute p
    ∧ false = false
    ∧ lock p' = false).
  { by intros l0 [= <- <- <-]. }
  destruct (Z.of_nat (length times) >=? messages_per_minute p); [|by apply Hleave].
  destruct (py_min times) as [e|oldest]; [discriminate|].
  destruct (0 <? minute - (now l - oldest)); [|by apply Hleave].
  destruct fuel as [|fuel]; [discriminate|].
  cbn [pacer_acquire lock]. discriminate.
Qed.

Lemma pacer_returns_without_sleeping_witness :
  true = true
  ∧ mkLoop 70000 [] = mkLoop 70000 []
  ∧ message_times (mkPacer 2 [69000; 70000] false)
    = filter (fun t => now (mkLoop 70000 []) - minute < t)
        (message_times (mkPacer 2 [5000; 69000] false)) ++ [now (mkLoop 70000 [])]
  ∧ messages_per_minute (mkPacer 2 [69000; 70000] false)
    = messages_per_minute (mkPacer 2 [5000; 69000] false)
  ∧ lock (mkPacer 2 [5000; 69000] false) = false
  ∧ lock (mkPacer 2 [69000; 70000] false) = false.
Proof.
  apply (pacer_returns_without_sleeping 1 (mkLoop 70000 []) (mkLoop 70000 [])
           (mkPacer 2 [5000; 69000] false) (mkPacer 2 [69000; 70000] false) true).
  vm_compute. reflexivity.
Defined.

(** X8: a pacer whose pace is zero or less cannot serve a call made when no
    recorded time is younger than a minute (the first call, for one): the
    window is empty, [len([]) >= pace] holds, and [min([])] raises
    [ValueError]; the lock is released and nothing is recorded. *)
Theorem pacer_without_pace_raises (fuel : nat) (l : Loop) (p : CampaignRateLimiter) :
  messages_per_minute p ≤ 0 →
  lock p = false →
  Forall (fun t => t ≤ now l - minute) (message_times p) →
  pacer_acquire (S fuel) (l, p)
  = Some (Exc ValueError, (l, mkPacer (messages_per_minute p) [] false)).
Proof.
  intros Hpace Hlock Hold. cbn [pacer_acquire]. rewrite Hlock.
  assert (Hempty : filter (fun t => now l - minute < t) (message_times p) = []).
  { induction Hold as [|t ts Ht _ IH]; [done|].
    rewrite filter_cons. destruct (decide (now l - minute < t)); [lia|done]. }
  rewrite Hempty. cbn [length py_min].
  destruct (Z.geb_spec (Z.of_nat 0) (messages_per_minute p)); [done|lia].
Qed.

Lemma pacer_without_pace_raises_witness :
  pacer_acquire 1 (mkLoop 0 [], new_pacer 0)
  = Some (Exc ValueError, (mkLoop 0 [], mkPacer (messages_per_minute (new_pacer 0)) [] false)).
Proof.
  apply (pacer_without_pace_raises 0 (mkLoop 0 []) (new_pacer 0)).
  - simpl. lia.
  - reflexivity.
  - constructor.
Defined.

End LimiterLaws.

(** ** Assignments, further *)

Module AssignmentLaws.
Import Assignment AssignmentFacts.

(** *** Bulk updates that cannot collide *)

Lemma update_many_loop_keeps_keys (uniq : bool) (P : MemberBotAssignment → bool)
    (f : MemberBotAssignment → MemberBotAssignment)
    (todo done : list MemberBotAssignment) (n : nat) :
  Forall (fun a => P a = true → same_key a (f a) = true ∧ f a ≠ a) todo →
  update_many_loop uniq P f done todo n
  = (Ok (n + length (filter (fun a => P a = true) todo))%nat,
     done ++ map (rewrite_with P f) todo).
Proof.
  revert done n. induction todo as [|a todo IH]; intros done n Hall.
  - simpl. by rewrite Nat.add_0_r, app_nil_r.
  - apply Forall_cons in Hall as [Ha Hall]. cbn [update_many_loop map].
    rewrite filter_cons. unfold rewrite_with at 1.
    destruct (P a) eqn:HP.
    + destruct (Ha eq_refl) as [Hk Hm].
      unfold rejected. rewrite Hk. rewrite andb_false_r. cbn [andb negb].
      destruct (decide (f a = a)) as [|_]; [done|].
      rewrite IH by done. destruct (decide (true = true)); [|done].
      rewrite <- app_assoc. simpl. f_equal. f_equal. lia.
    + rewrite IH by done. destruct (decide (false = true)); [done|].
      by rewrite <- app_assoc.
Qed.

Lemma run_update_many (P : MemberBotAssignment → bool)
    (f : MemberBotAssignment → MemberBotAssignment) (w : World) :
  events w = [] →
  Forall (fun a => P a = true → same_key a (f a) = true ∧ f a ≠ a) (assignments w) →
  update_many P f w
  = (Ok (length (filter (fun a => P a = true) (assignments w))),
     set_assignments (map (rewrite_with P f) (assignments w)) (consume_event w)).
Proof.
  intros He Hall. unfold update_many. rewrite run_store_call by done.
  cbn [assignments consume_event assignment_world_suspendable unique_index].
  by rewrite update_many_loop_keeps_keys.
Qed.

Lemma map_rewrite_none (P : MemberBotAssignment → bool)
    (f : MemberBotAssignment → MemberBotAssignment) (rows : list MemberBotAssignment) :
  Forall (fun a => P a = false) rows → map (rewrite_with P f) rows = rows.
Proof.
  induction 1 as [|a rows Ha _ IH]; [done|]. simpl. unfold rewrite_with at 1.
  by rewrite Ha, IH.
Qed.

Lemma filter_none {A} (P : A → bool) (l : list A) :
  Forall (fun a => P a = false) l → filter (fun a => P a = true) l = [].
Proof.
  induction 1 as [|a l Ha _ IH]; [done|]. rewrite filter_cons, IH.
  destruct (decide _); [congruence|done].
Qed.

(** *** Shuffling permutes *)

Lemma insert_front_perm {A} (xs : list A) (j : nat) (a b : A) :
  xs !! j = Some b → b :: <[j := a]> xs ≡ₚ a :: xs.
Proof.
  revert j. induction xs as [|c xs IH]; intros [|j] Hj; simplify_eq/=.
  - apply perm_swap.
  - rewrite perm_swap. rewrite (IH j Hj). apply perm_swap.
Qed.

Lemma swap_perm {A} (x : list A) (i j : nat) : swap x i j ≡ₚ x.
Proof.
  unfold swap. destruct (x !! i) as [a|] eqn:Ei; [|done].
  destruct (x !! j) as [b|] eqn:Ej; [|done].
  revert i j Ei Ej. induction x as [|c x IH]; intros [|i] [|j] Ei Ej; simplify_eq/=.
  - done.
  - by apply insert_front_perm.
  - by apply insert_front_perm.
  - f_equiv. by apply IH.
Qed.

Lemma run_shuffle_from_perm {A} (i : nat) (x : list A) (w : World) :
  ∃ x' w', shuffle_from i x w = (Ok x', w') ∧ quiet w w' ∧ x' ≡ₚ x.
Proof.
  revert x w. induction i as [|i IH]; intros x w.
  - exists x, w. split; [done|]. split; [apply quiet_refl | done].
  - destruct (run_randbelow (S (S i)) w) as (j & w1 & E1 & Q1).
    destruct (IH (swap x (S i) j) w1) as (x' & w2 & E2 & Q2 & Hp).
    exists x', w2. split; [|split; [by eapply quiet_trans|]].
    + cbn [shuffle_from]. by rewrite (bind_ok _ _ _ _ _ E1).
    + by rewrite Hp, swap_perm.
Qed.

(** *** Counting the load of each bot *)

(** Active documents of guild [g] assigned to bot [b]. *)
Definition load (g b : string) (rows : list MemberBotAssignment) : nat :=
  length (filter (fun a => active_on_bot g b a = true) rows).

Definition record_load (g : string) (rows : list MemberBotAssignment)
    (counts : gmap string nat) (bot : Bot) : gmap string nat :=
  <[bot_id bot := load g (bot_id bot) rows]> counts.

Lemma run_count_assignments_exact (g : string) (bots : list Bot)
    (counts : gmap string nat) (w : World) :
  events w = [] →
  ∃ w', count_assignments g bots counts w
        = (Ok (foldl (record_load g (assignments w)) counts bots), w')
        ∧ quiet w w'.
Proof.
  revert counts w. induction bots as [|bot bots IH]; intros counts w He.
  - exists w. split; [done | apply quiet_refl].
  - destruct (IH (record_load g (assignments w) counts bot) (consume_event w))
      as (w2 & E2 & Q2).
    { simpl. by rewrite He. }
    exists w2. split; [|eapply quiet_trans; [apply quiet_consume | done]].
    cbn [count_assignments foldl].
    assert (E1 : count_documents (active_on_bot g (bot_id bot)) w
                 = (Ok (load g (bot_id bot) (assignments w)), consume_event w)).
    { unfold count_documents. by rewrite run_store_call. }
    rewrite (bind_ok _ _ _ _ _ E1). exact E2.
Qed.

Lemma foldl_record_load_other (g : string) rows (bots : list Bot)
    (counts : gmap string nat) (b : string) :
  b ∉ map bot_id bots →
  foldl (record_load g rows) counts bots !! b = counts !! b.
Proof.
  revert counts. induction bots as [|bot bots IH]; intros counts Hb; [done|].
  simpl in *. apply not_elem_of_cons in Hb as [Hne Hb].
  rewrite IH by done. unfold record_load. by rewrite lookup_insert_ne.
Qed.

Lemma foldl_record_load (g : string) rows (bots : list Bot)
    (counts : gmap string nat) (b : string) :
  b ∈ map bot_id bots →
  foldl (record_load g rows) counts bots !! b = Some (load g b rows).
Proof.
  revert counts. induction bots as [|bot bots IH]; intros counts Hb; simpl in *.
  - by apply elem_of_nil in Hb.
  - destruct (decide (b ∈ map bot_id bots)) as [Hin|Hout]; [by apply IH|].
    apply elem_of_cons in Hb as [->|]; [|done].
    rewrite foldl_record_load_other by done. unfold record_load.
    by rewrite lookup_insert_eq.
Qed.

Lemma min_from_ext {A} (key key' : A → nat) (best : A) (xs : list A) :
  (∀ x, x ∈ best :: xs → key x = key' x) →
  min_from key best xs = min_from key' best xs.
Proof.
  revert best. induction xs as [|x xs IH]; intros best Heq; [done|].
  cbn [min_from]. rewrite !Heq by (repeat constructor).
  destruct (_ <? _)%nat; apply IH; intros y Hy; apply Heq;
    apply elem_of_cons in Hy as [->|Hy]; repeat constructor; done.
Qed.

Lemma min_from_le {A} (key : A → nat) (best : A) (xs : list A) (x : A) :
  x ∈ best :: xs → (key (min_from key best xs) ≤ key x)%nat.
Proof.
  revert best x. induction xs as [|y xs IH]; intros best x Hx.
  - apply list_elem_of_singleton in Hx. by subst.
  - cbn [min_from]. destruct (Nat.ltb_spec (key y) (key best)).
    + apply elem_of_cons in Hx as [Hx|Hx].
      * subst x. transitivity (key y); [|lia]. apply IH. constructor.
      * by apply IH.
    + apply elem_of_cons in Hx as [Hx|Hx].
      * subst x. apply IH. constructor.
      * apply elem_of_cons in Hx as [Hx|Hx].
        -- subst x. transitivity (key best); [|lia]. apply IH. constructor.
        -- apply IH. by constructor.
Qed.

(** *** The first resolution of a member *)

(** The document written for a member that has none yet. *)
Definition first_document (g u : string) (sel : Bot) (fallbacks : list string)
    (t : Z) : MemberBotAssignment :=
  mkAssignment g u (bot_id sel) t (Some t) 1 "new_assignment" fallbacks true t.

Lemma run_first_resolution (g u : string) (first : Bot) (others : list Bot)
    (w : World) :
  events w = [] →
  db_connected w = true →
  Forall (fun a => rows_of g u a = false) (assignments w) →
  let sel := min_from (fun bot => load g (bot_id bot) (assignments w)) first others in
  ∃ shuffled w',
    get_or_create_assignment g u (first :: others) w = (Ok (Some (bot_id sel)), w')
    ∧ shuffled ≡ₚ filter (fun b => b ≠ bot_id sel) (map bot_id (first :: others))
    ∧ assignments w'
      = assignments w ++ [first_document g u sel (take 3 shuffled) (utcnow w)]
    ∧ errors w' = errors w.
Proof.
  intros He Hc Hnew sel. pose (bots := first :: others).
  assert (Hfind : find_one (active_for g u) w = (Ok None, consume_event w)).
  { rewrite run_find_one by done. f_equal. f_equal.
    apply list_find_None. eapply Forall_impl; [exact Hnew|].
    intros a Ha. unfold active_for. unfold rows_of in Ha. rewrite Ha. done. }
  set (w0 := consume_event w).
  assert (He0 : events w0 = []) by (simpl; by rewrite He).
  assert (Hc0 : db_connected w0 = true) by done.
  destruct (run_count_assignments_exact g bots ∅ w0 He0) as (w1 & Ecount & Q1).
  set (counts := foldl (record_load g (assignments w0)) ∅ bots) in *.
  assert (Hsel : min_from (fun bot => default 0%nat (counts !! bot_id bot)) first others
                 = sel).
  { apply min_from_ext. intros x Hx. unfold counts.
    rewrite foldl_record_load; [done|]. by apply list_elem_of_fmap_2. }
  destruct Q1 as [(Hc1 & Hu1 & Ht1 & Herr1 & He1) Hrows1].
  destruct (run_shuffle_from_perm
              (length (filter (fun b => b ≠ bot_id sel) (map bot_id bots)) - 1)
              (filter (fun b => b ≠ bot_id sel) (map bot_id bots)) w1)
    as (shuffled & w2 & Eshuf & [(Hc2 & Hu2 & Ht2 & Herr2 & He2) Hrows2] & Hperm).
  specialize (He1 He0). specialize (He2 He1).
  assert (Hnew2 : Forall (fun a => rows_of g u a = false) (assignments w2)).
  { by rewrite Hrows2, Hrows1. }
  assert (Hupd : update_many (rows_of g u) deactivate w2
                 = (Ok 0%nat, consume_event w2)).
  { rewrite run_update_many; [|done|].
    - rewrite map_rewrite_none, filter_none by done. reflexivity.
    - eapply Forall_impl; [exact Hnew2|]. intros a Ha. by rewrite Ha. }
  set (w3 := consume_event w2).
  set (doc := first_document g u sel (take 3 shuffled) (utcnow w)).
  assert (Hins : insert_one doc w3
                 = (Ok tt, set_assignments (assignments w3 ++ [doc]) (consume_event w3))).
  { unfold insert_one. rewrite run_store_call by (simpl; by rewrite He2).
    assert (Hno : existsb (same_key doc) (assignments (consume_event w3)) = false).
    { apply not_true_is_false. intros Hex. apply existsb_exists in Hex as (a & Hin & Hk).
      apply list_elem_of_In in Hin. simpl in Hin.
      rewrite Forall_forall in Hnew2. specialize (Hnew2 a Hin).
      unfold same_key, doc in Hk. simpl in Hk. unfold rows_of in Hnew2.
      rewrite (String.eqb_sym g), (String.eqb_sym u) in Hk.
      rewrite Hnew2 in Hk. done. }
    rewrite Hno, andb_false_r. reflexivity. }
  exists shuffled, (set_assignments (assignments w3 ++ [doc]) (consume_event w3)).
  split; [|split; [done|split]].
  - unfold get_or_create_assignment, try_except.
    rewrite (bind_ok _ _ _ _ _ (run_get_collection w Hc)).
    rewrite (bind_ok _ _ _ _ _ Hfind).
    rewrite (bind_ok (mret None : M World (option string)) _ w0 w0 None eq_refl).
    unfold _create_new_assignment, try_except.
    rewrite (bind_ok _ _ _ _ _ (run_get_collection w0 Hc0)).
    rewrite (bind_ok _ _ _ _ _ Ecount). rewrite Hsel.
    unfold shuffle. rewrite (bind_ok _ _ _ _ _ Eshuf).
    rewrite (bind_ok _ _ _ _ _ (run_gets utcnow w2)).
    rewrite (bind_ok _ _ _ _ _ Hupd).
    assert (Ht : utcnow w2 = utcnow w) by (rewrite Ht2, Ht1; done).
    rewrite Ht. fold doc. fold w3.
    rewrite (bind_ok _ _ _ _ _ Hins). reflexivity.
  - simpl. by rewrite Hrows2, Hrows1.
  - simpl. by rewrite Herr2, Herr1.
Qed.


Lemma load_snoc (g b : string) (rows : list MemberBotAssignment)
    (a : MemberBotAssignment) :
  load g b (rows ++ [a])
  = (load g b rows + if active_on_bot g b a then 1 else 0)%nat.
Proof.
  unfold load. rewrite filter_app, length_app, filter_cons, filter_nil.
  destruct (decide _) as [->|Hn]; [done|].
  by destruct (active_on_bot g b a).
Qed.

(** X9: with nothing failing, the first resolution for a member picks an
    available bot with the fewest active assignments in the guild, raises
    that bot's load by one, and leaves the member with exactly one active
    assignment. *)
Theorem first_resolution_balances_load (g u : string) (bots : list Bot) (w : World) :
  events w = [] →
  db_connected w = true →
  bots ≠ [] →
  Forall (fun a => rows_of g u a = false) (assignments w) →
  ∃ sel w',
    get_or_create_assignment g u bots w = (Ok (Some (bot_id sel)), w')
    ∧ sel ∈ bots
    ∧ (∀ b, b ∈ bots →
            (load g (bot_id sel) (assignments w) ≤ load g (bot_id b) (assignments w))%nat)
    ∧ load g (bot_id sel) (assignments w') = S (load g (bot_id sel) (assignments w))
    ∧ count g u w' = 1%nat.
Proof.
  intros He Hc Hne Hnew. destruct bots as [|first others]; [done|].
  destruct (run_first_resolution g u first others w He Hc Hnew)
    as (shuffled & w' & Hrun & _ & Hrows & _).
  set (sel := min_from (fun bot => load g (bot_id bot) (assignments w)) first others) in *.
  exists sel, w'. split; [done|]. split; [apply min_from_elem|]. split; [|split].
  - intros b Hb.
    apply (min_from_le (fun bot => load g (bot_id bot) (assignments w)) first others b Hb).
  - rewrite Hrows, load_snoc. unfold active_on_bot, first_document. simpl.
    rewrite !String.eqb_refl. simpl. lia.
  - unfold count, active_rows. rewrite Hrows, filter_app, length_app.
    rewrite filter_cons, filter_nil.
    assert (Hnone : filter (fun a => active_for g u a = true) (assignments w) = []).
    { apply filter_none. eapply Forall_impl; [exact Hnew|].
      intros a Ha. unfold active_for. unfold rows_of in Ha. by rewrite Ha. }
    rewrite Hnone. unfold active_for, first_document. simpl.
    rewrite !String.eqb_refl. reflexivity.
Qed.

Lemma first_resolution_balances_load_witness :
  ∃ sel w',
    get_or_create_assignment "g" "u2" [mkBot "b1" "one" 0; mkBot "b2" "two" 0]
      (mkWorld true true
         [mkAssignment "g" "u1" "b1" 0 None 1 "new_assignment" [] true 0] 5 [] [] [] [])
    = (Ok (Some (bot_id sel)), w')
    ∧ sel ∈ [mkBot "b1" "one" 0; mkBot "b2" "two" 0]
    ∧ (∀ b, b ∈ [mkBot "b1" "one" 0; mkBot "b2" "two" 0] →
            (load "g" (bot_id sel)
               (assignments
                  (mkWorld true true
                     [mkAssignment "g" "u1" "b1" 0 None 1 "new_assignment" [] true 0]
                     5 [] [] [] []))
             ≤ load "g" (bot_id b)
                 (assignments
                    (mkWorld true true
                       [mkAssignment "g" "u1" "b1" 0 None 1 "new_assignment" [] true 0]
                       5 [] [] [] [])))%nat)
    ∧ load "g" (bot_id sel) (assignments w')
      = S (load "g" (bot_id sel)
             (assignments
                (mkWorld true true
                   [mkAssignment "g" "u1" "b1" 0 None 1 "new_assignment" [] true 0]
                   5 [] [] [] [])))
    ∧ count "g" "u2" w' = 1%nat.
Proof.
  apply (first_resolution_balances_load "g" "u2"
           [mkBot "b1" "one" 0; mkBot "b2" "two" 0]
           (mkWorld true true
              [mkAssignment "g" "u1" "b1" 0 None 1 "new_assignment" [] true 0]
              5 [] [] [] [])).
  - reflexivity.
  - reflexivity.
  - discriminate.
  - repeat constructor.
Defined.

(** X10: the assignment stored by a first resolution lists as fallbacks
    available bots other than the chosen one: three of them, or all of them
    when fewer than three remain, and never one twice when the available
    bots have distinct ids. *)
Theorem first_resolution_fallbacks (g u : string) (bots : list Bot) (w : World) :
  events w = [] →
  db_connected w = true →
  bots ≠ [] →
  Forall (fun a => rows_of g u a = false) (assignments w) →
  ∃ a,
    assignments (snd (get_or_create_assignment g u bots w)) = assignments w ++ [a]
    ∧ fst (get_or_create_assignment g u bots w) = Ok (Some (assigned_bot_id a))
    ∧ length (fallback_bot_ids a)
      = Nat.min 3 (length (filter (fun b => b ≠ assigned_bot_id a) (map bot_id bots)))
    ∧ (assigned_bot_id a ∉ fallback_bot_ids a)
    ∧ (∀ b, b ∈ fallback_bot_ids a → is_available bots b = true)
    ∧ (NoDup (map bot_id bots) → NoDup (fallback_bot_ids a)).
Proof.
  intros He Hc Hne Hnew. destruct bots as [|first others]; [done|].
  destruct (run_first_resolution g u first others w He Hc Hnew)
    as (shuffled & w' & Hrun & Hperm & Hrows & _).
  set (sel := min_from (fun bot => load g (bot_id bot) (assignments w)) first others) in *.
  exists (first_document g u sel (take 3 shuffled) (utcnow w)).
  rewrite Hrun. cbn [fst snd first_document assigned_bot_id fallback_bot_ids].
  split; [done|]. split; [done|].
  assert (Hsub : ∀ b, b ∈ take 3 shuffled →
            b ≠ bot_id sel ∧ b ∈ map bot_id (first :: others)).
  { intros b Hb. apply elem_of_take in Hb as (i & Hb & _).
    apply list_elem_of_lookup_2 in Hb. rewrite Hperm in Hb.
    by apply list_elem_of_filter in Hb. }
  split; [|split; [|split]].
  - rewrite length_take. by rewrite Hperm.
  - intros Hin. by destruct (Hsub _ Hin).
  - intros b Hb. destruct (Hsub _ Hb) as [_ Hin].
    apply list_elem_of_fmap in Hin as (bot & -> & Hbot).
    by apply is_available_of_elem.
  - intros Hnd. assert (Hs : NoDup shuffled) by (rewrite Hperm; by apply NoDup_filter).
    apply (sublist_NoDup _ shuffled Hs), sublist_take.
Qed.

Lemma first_resolution_fallbacks_witness :
  ∃ a,
    assignments
      (snd (get_or_create_assignment "g" "u"
              [mkBot "b1" "one" 0; mkBot "b2" "two" 0; mkBot "b3" "three" 0]
              (mkWorld true true [] 5 [1%nat] [] [] [])))
    = assignments (mkWorld true true [] 5 [1%nat] [] [] []) ++ [a]
    ∧ fst (get_or_create_assignment "g" "u"
             [mkBot "b1" "one" 0; mkBot "b2" "two" 0; mkBot "b3" "three" 0]
             (mkWorld true true [] 5 [1%nat] [] [] []))
      = Ok (Some (assigned_bot_id a))
    ∧ length (fallback_bot_ids a)
      = Nat.min 3 (length (filter (fun b => b ≠ assigned_bot_id a)
                             (map bot_id [mkBot "b1" "one" 0; mkBot "b2" "two" 0;
                                          mkBot "b3" "three" 0])))
    ∧ (assigned_bot_id a ∉ fallback_bot_ids a)
    ∧ (∀ b, b ∈ fallback_bot_ids a →
            is_available [mkBot "b1" "one" 0; mkBot "b2" "two" 0; mkBot "b3" "three" 0] b
            = true)
    ∧ (NoDup (map bot_id [mkBot "b1" "one" 0; mkBot "b2" "two" 0; mkBot "b3" "three" 0]) →
       NoDup (fallback_bot_ids a)).
Proof.
  apply (first_resolution_fallbacks "g" "u"
           [mkBot "b1" "one" 0; mkBot "b2" "two" 0; mkBot "b3" "three" 0]
           (mkWorld true true [] 5 [1%nat] [] [] [])).
  - reflexivity.
  - reflexivity.
  - discriminate.
  - constructor.
Defined.

(** *** Moving the members of a failed bot *)

Lemma same_key_move_to (new : string) (t : Z) (a : MemberBotAssignment) :
  same_key a (move_to new t a) = true.
Proof. by apply same_key_refl_on. Qed.

Lemma load_moved_from (g old new : string) (t : Z) (rows : list MemberBotAssignment) :
  old ≠ new →
  load g old (map (rewrite_with (active_on_bot g old) (move_to new t)) rows) = 0%nat.
Proof.
  intros Hne. unfold load. induction rows as [|a rows IH]; [done|].
  cbn [map]. rewrite filter_cons. destruct (decide _) as [Hact|]; [|done].
  exfalso. unfold rewrite_with in Hact.
  destruct (active_on_bot g old a) eqn:E; [|congruence].
  unfold active_on_bot, move_to in Hact. simpl in Hact.
  apply andb_true_iff in Hact as [Hact _]. apply andb_true_iff in Hact as [_ Hact].
  apply String.eqb_eq in Hact. congruence.
Qed.

Lemma load_moved_to (g old new : string) (t : Z) (rows : list MemberBotAssignment) :
  old ≠ new →
  load g new (map (rewrite_with (active_on_bot g old) (move_to new t)) rows)
  = (load g new rows + load g old rows)%nat.
Proof.
  intros Hne. unfold load. induction rows as [|a rows IH]; [done|].
  cbn [map]. rewrite !filter_cons.
  assert (Hrw : rewrite_with (active_on_bot g old) (move_to new t) a
                = if active_on_bot g old a then move_to new t a else a) by done.
  rewrite Hrw. clear Hrw.
  destruct (active_on_bot g old a) eqn:Eold.
  - assert (Hnew : active_on_bot g new (move_to new t a) = true).
    { unfold active_on_bot in *. simpl. rewrite String.eqb_refl.
      apply andb_true_iff in Eold as [Eold ->]. apply andb_true_iff in Eold as [-> _].
      done. }
    assert (Hnot : active_on_bot g new a ≠ true).
    { unfold active_on_bot in *. intros H.
      apply andb_true_iff in Eold as [Eold _]. apply andb_true_iff in Eold as [_ Eold].
      apply andb_true_iff in H as [H _]. apply andb_true_iff in H as [_ H].
      apply String.eqb_eq in Eold, H. congruence. }
    rewrite Hnew. repeat destruct (decide _); try done. cbn [length]. rewrite IH. lia.
  - repeat destruct (decide _); try done; cbn [length]; rewrite IH; lia.
Qed.

Lemma active_rows_rewrite (P : MemberBotAssignment → bool)
    (f : MemberBotAssignment → MemberBotAssignment) (g u : string)
    (rows : list MemberBotAssignment) :
  (∀ a, active_for g u (f a) = active_for g u a) →
  length (active_rows g u (map (rewrite_with P f) rows)) = length (active_rows g u rows).
Proof.
  intros Hf. unfold active_rows. induction rows as [|a rows IH]; [done|].
  cbn [map]. rewrite !filter_cons.
  assert (E : active_for g u (rewrite_with P f a) = active_for g u a).
  { unfold rewrite_with. destruct (P a); [apply Hf | done]. }
  rewrite E. destruct (decide _); simpl; by rewrite IH.
Qed.

(** X11: with nothing failing, [reassign_bot_members] returns the number of
    active assignments the old bot had in the guild; afterwards the old bot
    has none there, the new bot has its own and those, no member's number of
    active assignments has changed, and nothing is logged. *)
Theorem reassign_moves_every_member (old_bot_id new_bot_id g : string) (w : World) :
  events w = [] →
  db_connected w = true →
  old_bot_id ≠ new_bot_id →
  ∃ w',
    reassign_bot_members old_bot_id new_bot_id g w
    = (Ok (load g old_bot_id (assignments w)), w')
    ∧ load g old_bot_id (assignments w') = 0%nat
    ∧ load g new_bot_id (assignments w')
      = (load g new_bot_id (assignments w) + load g old_bot_id (assignments w))%nat
    ∧ (∀ g' u', count g' u' w' = count g' u' w)
    ∧ errors w' = errors w.
Proof.
  intros He Hc Hne.
  set (t := utcnow w).
  set (rows := map (rewrite_with (active_on_bot g old_bot_id) (move_to new_bot_id t))
                   (assignments w)).
  exists (set_assignments rows (consume_event w)).
  assert (Hupd : update_many (active_on_bot g old_bot_id) (move_to new_bot_id t) w
                 = (Ok (load g old_bot_id (assignments w)),
                    set_assignments rows (consume_event w))).
  { apply run_update_many; [done|]. apply Forall_forall. intros a _ Ha.
    split; [apply same_key_move_to|]. intros Hsame.
    unfold active_on_bot in Ha.
    apply andb_prop in Ha as [Ha _]. apply andb_prop in Ha as [_ Ha].
    apply String.eqb_eq in Ha. apply Hne.
    rewrite <- Ha, <- Hsame. reflexivity. }
  split; [|split; [|split; [|split]]].
  - unfold reassign_bot_members, try_except.
    rewrite (bind_ok _ _ _ _ _ (run_get_collection w Hc)).
    rewrite (bind_ok _ _ _ _ _ (run_gets utcnow w)). fold t.
    rewrite (bind_ok _ _ _ _ _ Hupd). reflexivity.
  - cbn [assignments set_assignments]. by apply load_moved_from.
  - cbn [assignments set_assignments]. by apply load_moved_to.
  - intros g' u'. unfold count. cbn [assignments set_assignments].
    apply active_rows_rewrite. intros a. reflexivity.
  - reflexivity.
Qed.

Lemma reassign_moves_every_member_witness :
  ∃ w',
    reassign_bot_members "b1" "b2" "g"
      (mkWorld true true
         [mkAssignment "g" "u1" "b1" 0 None 1 "new_assignment" [] true 0;
          mkAssignment "g" "u2" "b2" 0 None 1 "new_assignment" [] true 0] 5 [] [] [] [])
    = (Ok (load "g" "b1"
             (assignments
                (mkWorld true true
                   [mkAssignment "g" "u1" "b1" 0 None 1 "new_assignment" [] true 0;
                    mkAssignment "g" "u2" "b2" 0 None 1 "new_assignment" [] true 0]
                   5 [] [] [] []))), w')
    ∧ load "g" "b1" (assignments w') = 0%nat
    ∧ load "g" "b2" (assignments w')
      = (load "g" "b2"
           (assignments
              (mkWorld true true
                 [mkAssignment "g" "u1" "b1" 0 None 1 "new_assignment" [] true 0;
                  mkAssignment "g" "u2" "b2" 0 None 1 "new_assignment" [] true 0]
                 5 [] [] [] []))
         + load "g" "b1"
             (assignments
                (mkWorld true true
                   [mkAssignment "g" "u1" "b1" 0 None 1 "new_assignment" [] true 0;
                    mkAssignment "g" "u2" "b2" 0 None 1 "new_assignment" [] true 0]
                   5 [] [] [] [])))%nat
    ∧ (∀ g' u',
         count g' u' w'
         = count g' u'
             (mkWorld true true
                [mkAssignment "g" "u1" "b1" 0 None 1 "new_assignment" [] true 0;
                 mkAssignment "g" "u2" "b2" 0 None 1 "new_assignment" [] true 0]
                5 [] [] [] []))
    ∧ errors w'
      = errors
          (mkWorld true true
             [mkAssignment "g" "u1" "b1" 0 None 1 "new_assignment" [] true 0;
              mkAssignment "g" "u2" "b2" 0 None 1 "new_assignment" [] true 0]
             5 [] [] [] []).
Proof.
  apply (reassign_moves_every_member "b1" "b2" "g"
           (mkWorld true true
              [mkAssignment "g" "u1" "b1" 0 None 1 "new_assignment" [] true 0;
               mkAssignment "g" "u2" "b2" 0 None 1 "new_assignment" [] true 0]
              5 [] [] [] [])).
  - reflexivity.
  - reflexivity.
  - discriminate.
Defined.

(** *** A member leaves *)

(** Documents of the pair, active or not. *)
Definition documents (g u : string) (rows : list MemberBotAssignment)
  : list MemberBotAssignment :=
  filter (fun a => rows_of g u a = true) rows.

Lemma same_key_rows_of (g u : string) (a b : MemberBotAssignment) :
  rows_of g u a = true → same_key a b = true → rows_of g u b = true.
Proof.
  unfold rows_of, same_key. intros Ha Hk.
  apply andb_true_iff in Ha as [Hg Hu]. apply andb_true_iff in Hk as [Hk _].
  apply andb_true_iff in Hk as [Hg' Hu'].
  apply String.eqb_eq in Hg, Hu, Hg', Hu'. rewrite <- Hg', <- Hu', Hg, Hu.
  by rewrite !String.eqb_refl.
Qed.

Lemma update_many_loop_single (uniq : bool) (g u : string) (t : Z)
    (todo done : list MemberBotAssignment) (n : nat) :
  (length (documents g u (done ++ todo)) ≤ 1)%nat →
  ∃ k, update_many_loop uniq (rows_of g u) (deactivate_at t) done todo n
       = (Ok k, done ++ map (rewrite_with (rows_of g u) (deactivate_at t)) todo).
Proof.
  unfold documents.
  revert done n. induction todo as [|a todo IH]; intros done n Hone.
  - exists n. simpl. by rewrite app_nil_r.
  - cbn [update_many_loop map].
    assert (Hrw : rewrite_with (rows_of g u) (deactivate_at t) a
                  = if rows_of g u a then deactivate_at t a else a) by done.
    rewrite Hrw. clear Hrw.
    rewrite filter_app, filter_cons, length_app in Hone.
    destruct (rows_of g u a) eqn:HP.
    + destruct (decide (true = true)); [|done]. cbn [length] in Hone.
      assert (Hdone : filter (fun a => rows_of g u a = true) done = [])
        by (apply length_zero_iff_nil; lia).
      assert (Htodo : filter (fun a => rows_of g u a = true) todo = [])
        by (apply length_zero_iff_nil; lia).
      assert (Hno : existsb (same_key (deactivate_at t a)) (done ++ todo) = false).
      { apply not_true_is_false. intros Hex.
        apply existsb_exists in Hex as (b & Hin & Hk).
        apply list_elem_of_In in Hin.
        assert (Hb : rows_of g u b = true) by (eapply same_key_rows_of; [|exact Hk]; done).
        assert (Hb' : b ∈ filter (fun a => rows_of g u a = true) (done ++ todo))
          by (by apply list_elem_of_filter).
        rewrite filter_app, Hdone, Htodo in Hb'. by apply elem_of_nil in Hb'. }
      unfold rejected. rewrite Hno, andb_false_r.
      destruct (IH (done ++ [deactivate_at t a])
                   (if decide (deactivate_at t a = a) then n else S n))
        as (k & Hk).
      * rewrite !filter_app, Hdone, Htodo, filter_cons, filter_nil.
        assert (rows_of g u (deactivate_at t a) = true) as -> by done.
        destruct (decide _); simpl; lia.
      * exists k. rewrite Hk. by rewrite <- app_assoc.
    + destruct (decide (false = true)); [done|].
      destruct (IH (done ++ [a]) n) as (k & Hk).
      * rewrite !filter_app, filter_cons, filter_nil, HP.
        destruct (decide _); [done|]. rewrite app_nil_r, length_app. lia.
      * exists k. rewrite Hk. by rewrite <- app_assoc.
Qed.

Lemma update_many_loop_free (P : MemberBotAssignment → bool)
    (f : MemberBotAssignment → MemberBotAssignment)
    (todo done : list MemberBotAssignment) (n : nat) :
  ∃ k, update_many_loop false P f done todo n
       = (Ok k, done ++ map (rewrite_with P f) todo).
Proof.
  revert done n. induction todo as [|a todo IH]; intros done n.
  - exists n. simpl. by rewrite app_nil_r.
  - cbn [update_many_loop map rejected andb].
    assert (Hrw : rewrite_with P f a = if P a then f a else a) by done.
    rewrite Hrw. clear Hrw.
    destruct (P a) eqn:HP.
    + destruct (IH (done ++ [f a]) (if decide (f a = a) then n else S n)) as (k & Hk).
      exists k. rewrite Hk. by rewrite <- app_assoc.
    + destruct (IH (done ++ [a]) n) as (k & Hk).
      exists k. rewrite Hk. by rewrite <- app_assoc.
Qed.

Lemma deactivated_at_all (g u : string) (t : Z) (rows : list MemberBotAssignment) :
  active_rows g u (map (rewrite_with (rows_of g u) (deactivate_at t)) rows) = [].
Proof.
  unfold active_rows. induction rows as [|a rows IH]; [done|].
  simpl. rewrite filter_cons, IH.
  destruct (decide _) as [Hact|]; [|done]. exfalso.
  unfold rewrite_with, rows_of, active_for in Hact.
  destruct (String.eqb (guild_id a) g && String.eqb (user_id a) u) eqn:E.
  - simpl in Hact. rewrite andb_false_r in Hact. discriminate.
  - rewrite E in Hact. discriminate.
Qed.

Lemma others_keep_their_rows (g u g' u' : string) (t : Z)
    (rows : list MemberBotAssignment) :
  (g', u') ≠ (g, u) →
  active_rows g' u' (map (rewrite_with (rows_of g u) (deactivate_at t)) rows)
  = active_rows g' u' rows.
Proof.
  intros Hne. unfold active_rows. induction rows as [|a rows IH]; [done|].
  cbn [map]. rewrite !filter_cons, IH.
  assert (Hrw : rewrite_with (rows_of g u) (deactivate_at t) a
                = if rows_of g u a then deactivate_at t a else a) by done.
  rewrite Hrw. clear Hrw.
  destruct (rows_of g u a) eqn:HP; [|done].
  assert (Ha : active_for g' u' a = false).
  { unfold rows_of in HP. apply andb_true_iff in HP as [Hg Hu].
    apply String.eqb_eq in Hg, Hu. unfold active_for. rewrite Hg, Hu.
    destruct (String.eqb_spec g g'), (String.eqb_spec u u'); try done. congruence. }
  assert (Hd : active_for g' u' (deactivate_at t a) = false).
  { unfold active_for. simpl. apply andb_false_r. }
  rewrite Ha, Hd. by repeat destruct (decide _).
Qed.

(** X12: with nothing failing, [_deactivate_member_assignment] leaves the
    member without an active assignment in the guild and changes no other
    pair's active assignments. Under the unique index this needs the pair to
    have at most one document. *)
Theorem member_left_deactivates (g u : string) (w : World) :
  events w = [] →
  db_connected w = true →
  (unique_index w = true → (length (documents g u (assignments w)) ≤ 1)%nat) →
  ∃ w',
    _deactivate_member_assignment g u w = (Ok tt, w')
    ∧ count g u w' = 0%nat
    ∧ (∀ g' u', (g', u') ≠ (g, u) →
                active_rows g' u' (assignments w') = active_rows g' u' (assignments w))
    ∧ errors w' = errors w.
Proof.
  intros He Hc Hone. set (t := utcnow w).
  set (rows := map (rewrite_with (rows_of g u) (deactivate_at t)) (assignments w)).
  assert (Hupd : ∃ k, update_many (rows_of g u) (deactivate_at t) w
                      = (Ok k, set_assignments rows (consume_event w))).
  { unfold update_many. rewrite run_store_call by done.
    cbn [assignments consume_event assignment_world_suspendable unique_index].
    destruct (unique_index w) eqn:Eu.
    - destruct (update_many_loop_single true g u t (assignments w) [] 0) as (k & Hk);
        [by apply Hone|].
      exists k. by rewrite Hk.
    - destruct (update_many_loop_free (rows_of g u) (deactivate_at t)
                  (assignments w) [] 0) as (k & Hk).
      exists k. by rewrite Hk. }
  destruct Hupd as (k & Hupd).
  exists (set_assignments rows (consume_event w)).
  split; [|split; [|split]].
  - unfold _deactivate_member_assignment, try_except.
    rewrite (bind_ok _ _ _ _ _ (run_get_collection w Hc)).
    rewrite (bind_ok _ _ _ _ _ (run_gets utcnow w)). fold t.
    rewrite (bind_ok _ _ _ _ _ Hupd). reflexivity.
  - unfold count. cbn [assignments set_assignments]. unfold rows.
    by rewrite deactivated_at_all.
  - intros g' u' Hne. cbn [assignments set_assignments].
    by apply others_keep_their_rows.
  - reflexivity.
Qed.

Lemma member_left_deactivates_witness :
  ∃ w',
    _deactivate_member_assignment "g" "u1"
      (mkWorld true true
         [mkAssignment "g" "u1" "b1" 0 None 1 "new_assignment" [] true 0;
          mkAssignment "g" "u2" "b2" 0 None 1 "new_assignment" [] true 0] 5 [] [] [] [])
    = (Ok tt, w')
    ∧ count "g" "u1" w' = 0%nat
    ∧ (∀ g' u', (g', u') ≠ ("g", "u1") →
         active_rows g' u' (assignments w')
         = active_rows g' u'
             (assignments
                (mkWorld true true
                   [mkAssignment "g" "u1" "b1" 0 None 1 "new_assignment" [] true 0;
                    mkAssignment "g" "u2" "b2" 0 None 1 "new_assignment" [] true 0]
                   5 [] [] [] [])))
    ∧ errors w'
      = errors
          (mkWorld true true
             [mkAssignment "g" "u1" "b1" 0 None 1 "new_assignment" [] true 0;
              mkAssignment "g" "u2" "b2" 0 None 1 "new_assignment" [] true 0]
             5 [] [] [] []).
Proof.
  apply (member_left_deactivates "g" "u1"
           (mkWorld true true
              [mkAssignment "g" "u1" "b1" 0 None 1 "new_assignment" [] true 0;
               mkAssignment "g" "u2" "b2" 0 None 1 "new_assignment" [] true 0]
              5 [] [] [] [])).
  - reflexivity.
  - reflexivity.
  - intros _. vm_compute. lia.
Defined.

(** Under the unique index a pair can hold one inactive document only, so
    once it has one, its active document can no longer be switched off. *)
Lemma update_many_loop_blocked (g u : string) (t : Z)
    (todo done : list MemberBotAssignment) (n : nat) :
  (∃ d, d ∈ done ++ todo ∧ rows_of g u d = true ∧ is_active d = false) →
  (∃ a, a ∈ todo ∧ active_for g u a = true) →
  fst (update_many_loop true (rows_of g u) (deactivate_at t) done todo n)
  = Exc DuplicateKeyError
  ∧ ∀ a, is_active a = true →
         (a ∈ snd (update_many_loop true (rows_of g u) (deactivate_at t) done todo n)
          ↔ a ∈ done ++ todo).
Proof.
  revert done n. induction todo as [|a todo IH]; intros done n Hd Ha.
  - destruct Ha as (a & Ha & _). by apply elem_of_nil in Ha.
  - cbn [update_many_loop].
    destruct (rows_of g u a) eqn:HP.
    + destruct (is_active a) eqn:Hact.
      * (* the first active document of the pair: the write is rejected *)
        assert (Hrej : rejected true a (deactivate_at t a) (done ++ todo) = true).
        { unfold rejected. cbn [andb].
          assert (Hk : same_key a (deactivate_at t a) = false).
          { unfold same_key. simpl. rewrite Hact. apply andb_false_r. }
          rewrite Hk. cbn [negb andb].
          destruct Hd as (d & Hin & Hrow & Hoff).
          apply existsb_exists. exists d. split.
          - apply list_elem_of_In. apply elem_of_app in Hin as [Hin|Hin];
              [apply elem_of_app; by left|].
            apply elem_of_cons in Hin as [->|Hin]; [congruence|].
            apply elem_of_app; by right.
          - unfold same_key, rows_of in *. simpl. rewrite Hoff.
            apply andb_true_iff in HP as [Hg Hu], Hrow as [Hg' Hu'].
            apply String.eqb_eq in Hg, Hu, Hg', Hu'. rewrite Hg, Hu, Hg', Hu'.
            by rewrite !String.eqb_refl. }
        rewrite Hrej. split; [done|]. intros b _. reflexivity.
      * (* an inactive document of the pair: rewritten, still inactive *)
        assert (Hrej : rejected true a (deactivate_at t a) (done ++ todo) = false).
        { unfold rejected.
          assert (Hk : same_key a (deactivate_at t a) = true)
            by (by apply same_key_refl_on).
          rewrite Hk. reflexivity. }
        rewrite Hrej.
        destruct (IH (done ++ [deactivate_at t a])
                     (if decide (deactivate_at t a = a) then n else S n))
          as [Hfst Hsnd].
        -- exists (deactivate_at t a). split; [|done].
           apply elem_of_app. left. apply elem_of_app. right. constructor.
        -- destruct Ha as (b & Hin & Hb). exists b. split; [|done].
           apply elem_of_cons in Hin as [->|Hin]; [|done].
           unfold active_for in Hb. rewrite Hact in Hb. rewrite andb_false_r in Hb.
           discriminate.
        -- split; [done|]. intros b Hb. rewrite (Hsnd b Hb).
           rewrite !elem_of_app, !elem_of_cons, elem_of_nil.
           split; intros H; destruct_or!; subst; simpl in *; try congruence; auto.
    + destruct (IH (done ++ [a]) n) as [Hfst Hsnd].
      * destruct Hd as (d & Hin & Hd). exists d. split; [|done].
        rewrite <- app_assoc. done.
      * destruct Ha as (b & Hin & Hb). exists b. split; [|done].
        apply elem_of_cons in Hin as [->|Hin]; [|done].
        unfold active_for, rows_of in *. rewrite HP in Hb. discriminate.
      * split; [done|]. intros b Hb. rewrite (Hsnd b Hb). by rewrite <- app_assoc.
Qed.

(** X13: under the unique index, a pair that has an inactive document beside
    its active one cannot be deactivated: the update fails on the duplicate
    key, the failure is logged and swallowed, and the active assignment
    stays. *)
Theorem member_left_blocked_by_older_document (g u : string) (w : World)
    (d a : MemberBotAssignment) :
  events w = [] →
  db_connected w = true →
  unique_index w = true →
  d ∈ assignments w → rows_of g u d = true → is_active d = false →
  a ∈ assignments w → active_for g u a = true →
  ∃ w',
    _deactivate_member_assignment g u w = (Ok tt, w')
    ∧ a ∈ assignments w'
    ∧ errors w' = errors w ++ ["Could not deactivate assignment"].
Proof.
  intros He Hc Hu Hd Hrow Hoff Ha Hact.
  set (t := utcnow w).
  destruct (update_many_loop_blocked g u t (assignments w) [] 0) as [Hfst Hsnd].
  { exists d. done. }
  { exists a. done. }
  destruct (update_many_loop true (rows_of g u) (deactivate_at t) [] (assignments w) 0)
    as [r rows] eqn:El. cbn [fst snd] in Hfst, Hsnd. subst r.
  assert (Hupd : update_many (rows_of g u) (deactivate_at t) w
                 = (Exc DuplicateKeyError, set_assignments rows (consume_event w))).
  { unfold update_many. rewrite run_store_call by done.
    cbn [assignments consume_event assignment_world_suspendable unique_index].
    by rewrite Hu, El. }
  eexists. split; [|split].
  - unfold _deactivate_member_assignment, try_except.
    rewrite (bind_ok _ _ _ _ _ (run_get_collection w Hc)).
    rewrite (bind_ok _ _ _ _ _ (run_gets utcnow w)). fold t.
    rewrite (bind_exc _ _ _ _ _ Hupd). cbn [is_Exception]. reflexivity.
  - cbn [assignments set_assignments log_error modify snd].
    apply Hsnd; [|done]. unfold active_for in Hact.
    by apply andb_true_iff in Hact as [_ ->].
  - reflexivity.
Qed.

Lemma member_left_blocked_by_older_document_witness :
  ∃ w',
    _deactivate_member_assignment "g" "u"
      (mkWorld true true
         [mkAssignment "g" "u" "b1" 0 None 1 "new_assignment" [] false 0;
          mkAssignment "g" "u" "b2" 3 None 1 "new_assignment" [] true 3] 5 [] [] [] [])
    = (Ok tt, w')
    ∧ mkAssignment "g" "u" "b2" 3 None 1 "new_assignment" [] true 3 ∈ assignments w'
    ∧ errors w'
      = errors
          (mkWorld true true
             [mkAssignment "g" "u" "b1" 0 None 1 "new_assignment" [] false 0;
              mkAssignment "g" "u" "b2" 3 None 1 "new_assignment" [] true 3]
             5 [] [] [] [])
        ++ ["Could not deactivate assignment"].
Proof.
  apply (member_left_blocked_by_older_document "g" "u"
           (mkWorld true true
              [mkAssignment "g" "u" "b1" 0 None 1 "new_assignment" [] false 0;
               mkAssignment "g" "u" "b2" 3 None 1 "new_assignment" [] true 3]
              5 [] [] [] [])
           (mkAssignment "g" "u" "b1" 0 None 1 "new_assignment" [] false 0)
           (mkAssignment "g" "u" "b2" 3 None 1 "new_assignment" [] true 3)).
  - reflexivity.
  - reflexivity.
  - reflexivity.
  - simpl. apply list_elem_of_here.
  - reflexivity.
  - reflexivity.
  - simpl. apply list_elem_of_further, list_elem_of_here.
  - reflexivity.
Defined.

End AssignmentLaws.

(** ** Membership checks *)

Module MembershipFacts.
Import Membership.

(** The guild knows the user as a bot account. *)
Definition is_bot_account (a : answer) : bool :=
  match a with
  | Cached m | Uncached (Fetched m) => bot m
  | _ => false
  end.

Definition uncancelled (w : World) : Prop := never_cancelled (oracle w).

Lemma membership_uncancelled_consume (w : World) :
  uncancelled w → uncancelled (consume_event w).
Proof. unfold uncancelled. simpl. apply never_cancelled_tail. Qed.

(** The upsert never fails its caller and never touches an assignment. *)
Lemma run_update_member_info (g u : string) (m : Member) (w : World) :
  uncancelled w →
  ∃ w', _update_member_info g u m w = (Ok tt, w')
        ∧ uncancelled w'
        ∧ Assignment.assignments (store w') = Assignment.assignments (store w).
Proof.
  intros Hu. unfold _update_member_info, try_except, get_collection.
  unfold mbind, M_bind, bind. cbn [connected membership_world_suspendable].
  destruct (connected (store w)); [|eexists; split; [reflexivity|done]].
  cbn [gets]. unfold upsert_member, store_call.
  pose proof (membership_uncancelled_consume w Hu) as Hu'.
  assert (Hh : cancels (head_event (oracle w)) = false)
    by (by apply never_cancelled_head).
  destruct (head_event (oracle w)); try done; cbn [modify snd is_Exception mret M_ret ret].
  - destruct (list_find _ _) as [[i d]|]; eexists; (split; [reflexivity|done]).
  - eexists; split; [reflexivity|done].
  - destruct (list_find _ _) as [[i d]|]; eexists; (split; [reflexivity|done]).
Qed.

Lemma discord_is_unbound : bound "discord" = false.
Proof. reflexivity. Qed.

Lemma run_checked (g u : string) (m : Member) (verified : list string) (w : World) :
  uncancelled w →
  ∃ w', checked g u m verified w
        = (Ok (inr (if bot m then verified else verified ++ [u])), w')
        ∧ uncancelled w'
        ∧ Assignment.assignments (store w') = Assignment.assignments (store w).
Proof.
  intros Hu. unfold checked. destruct (bot m); cbn [negb].
  - exists w. done.
  - destruct (run_update_member_info g u m w Hu) as (w' & E & Hu' & Hrows).
    exists w'. by rewrite (bind_ok _ _ _ _ _ E).
Qed.

Lemma run_verify_one (g u : string) (a : answer) (verified : list string) (w : World) :
  uncancelled w →
  ∃ w', verify_one g u a verified w
        = (Ok (if is_bot_account a then verified else verified ++ [u]), w')
        ∧ uncancelled w'
        ∧ Assignment.assignments (store w') = Assignment.assignments (store w).
Proof.
  intros Hu. unfold verify_one.
  assert (Hkeep : ∀ e : raised,
    ((r ← try_except (mret (inl e) : M World (raised + list string))
                      (fun e => mret (inl (Store e)));
      match r with
      | inr verified_members => mret verified_members
      | inl _ => mret (verified ++ [u])
      end) : M World (list string)) w = (Ok (verified ++ [u]), w)) by done.
  assert (Hchecked : ∀ m,
    ∃ w', ((r ← try_except (checked g u m verified) (fun e => mret (inl (Store e)));
            match r with
            | inr verified_members => mret verified_members
            | inl _ => mret (verified ++ [u])
            end) : M World (list string)) w
          = (Ok (if bot m then verified else verified ++ [u]), w')
          ∧ uncancelled w'
          ∧ Assignment.assignments (store w') = Assignment.assignments (store w)).
  { intros m. destruct (run_checked g u m verified w Hu) as (w' & E & Hu' & Hrows).
    exists w'. split; [|done].
    unfold mbind, M_bind, bind, try_except. rewrite E. reflexivity. }
  destruct a as [|m|[m| | | |]]; cbn [is_bot_account].
  - exists w. split; [apply Hkeep|done].
  - apply Hchecked.
  - destruct (Hchecked m) as (w' & E & ?). exists w'. split; [|done]. exact E.
  - exists w. rewrite discord_is_unbound. split; [apply (Hkeep PyNameError)|done].
  - exists w. rewrite discord_is_unbound. split; [apply (Hkeep PyNameError)|done].
  - exists w. rewrite discord_is_unbound. split; [apply (Hkeep PyNameError)|done].
  - exists w. rewrite discord_is_unbound. split; [apply (Hkeep PyNameError)|done].
Qed.

Lemma run_verify_loop (g : string) (guild : string → answer) (user_ids : list string) :
  ∀ (verified : list string) (w : World),
    uncancelled w →
    ∃ w', verify_loop g user_ids guild verified w
          = (Ok (verified ++ filter (fun u => is_bot_account (guild u) = false) user_ids),
             w')
          ∧ Assignment.assignments (store w') = Assignment.assignments (store w).
Proof.
  induction user_ids as [|u rest IH]; intros verified w Hu.
  - exists w. simpl. by rewrite app_nil_r.
  - destruct (run_verify_one g u (guild u) verified w Hu) as (w1 & E1 & Hu1 & Hrows1).
    destruct (IH (if is_bot_account (guild u) then verified else verified ++ [u]) w1
                Hu1) as (w2 & E2 & Hrows2).
    exists w2. split; [|congruence].
    cbn [verify_loop]. rewrite (bind_ok _ _ _ _ _ E1), E2.
    rewrite filter_cons. destruct (is_bot_account (guild u)); destruct (decide _);
      try done. by rewrite <- app_assoc.
Qed.

(** X14: whatever the guild answers for a user short of a bot account (no
    answer, an error, not found, even a cancellation while the member is
    fetched), the user stays in the returned list, and no assignment is
    deactivated: the handler of [discord.NotFound] is never reached,
    because the module does not bind the name [discord]. The one hypothesis
    is that the task is not cancelled while it waits on the store. *)
Theorem verify_keeps_everyone_but_bots (g : string) (user_ids : list string)
    (guild : string → answer) (w : World) :
  uncancelled w →
  ∃ w',
    verify_server_membership g user_ids guild w
    = (Ok (filter (fun u => is_bot_account (guild u) = false) user_ids), w')
    ∧ Assignment.assignments (store w') = Assignment.assignments (store w).
Proof.
  intros Hu.
  destruct (run_verify_loop g guild user_ids [] w Hu) as (w' & E & Hrows).
  exists w'. split; [|done]. unfold verify_server_membership, try_except.
  by rewrite E.
Qed.

Definition sample_guild (u : string) : answer :=
  if String.eqb u "1" then Cached (mkMember false "ann" "Ann")
  else if String.eqb u "2" then Uncached FetchNotFound
  else if String.eqb u "3" then Cached (mkMember true "bot" "Bot")
  else if String.eqb u "4" then Uncached FetchCancelled
  else BadId.

Lemma verify_keeps_everyone_but_bots_witness :
  ∃ w',
    verify_server_membership "g" ["1"; "2"; "3"; "4"; "x"] sample_guild
      (mkWorld (Assignment.mkWorld true true
                  [Assignment.mkAssignment "g" "2" "b1" 0 None 1 "new_assignment" [] true 0]
                  5 [] [FailBefore] [] []) [])
    = (Ok (filter (fun u => is_bot_account (sample_guild u) = false) ["1"; "2"; "3"; "4"; "x"]),
       w')
    ∧ Assignment.assignments (store w')
      = Assignment.assignments
          (store (mkWorld (Assignment.mkWorld true true
                   [Assignment.mkAssignment "g" "2" "b1" 0 None 1 "new_assignment" []
                      true 0]
                   5 [] [FailBefore] [] []) [])).
Proof.
  apply verify_keeps_everyone_but_bots.
  unfold uncancelled. simpl. split; rewrite list_elem_of_In; simpl; intros [?|[]]; discriminate.
Defined.

(** In that run the member, the user who was not found, the user whose fetch
    was cancelled and the user with an unreadable id are kept; the bot is
    dropped. *)
Example verified_sample :
  fst (verify_server_membership "g" ["1"; "2"; "3"; "4"; "x"] sample_guild
         (mkWorld (Assignment.mkWorld true true
                     [Assignment.mkAssignment "g" "2" "b1" 0 None 1 "new_assignment" []
                        true 0]
                     5 [] [FailBefore] [] []) []))
  = Ok ["1"; "2"; "4"; "x"].
Proof. vm_compute. reflexivity. Qed.

End MembershipFacts.

(** ** Dispatch, further *)

Module DispatchLaws.
Import Dispatch DispatchFacts.

(** *** What becomes of the message at the head of the queue *)

(** X15: when Discord answers a queued message with a 429, the worker logs a
    rate-limited Send with code 429 and the text of the exception, sleeps
    for the retry-after and puts the message back at the end of its queue;
    the message counts neither as processed nor as an error, and no target
    is touched. The user id is one that [int] accepts. *)
Theorem rate_limited_message_is_requeued (w : World) (b : string) (wk : Worker)
    (msg : Message) (rest : list Message) (h : RateLimiter.Headers)
    (str_e : string) :
  db_connected w = true →
  events w = [] →
  active_workers w !! b = Some wk →
  message_queue wk = msg :: rest →
  numeric (msg_user_id msg) →
  RateLimiter.locks (rate_limiter wk) !! "dm_channels" ≠ Some true →
  ∃ w' wk',
    message_processor b (HTTPException 429 h str_e) w = (Ok tt, w')
    ∧ active_workers w' !! b = Some wk'
    ∧ message_queue wk' = rest ++ [msg]
    ∧ processed_messages wk' = processed_messages wk
    ∧ failed_messages wk' = failed_messages wk
    ∧ errors_last_hour wk' = errors_last_hour wk
    ∧ sends w'
      = sends w ++ [mkSend (default "" (msg_campaign_id msg)) (msg_user_id msg)
                           (bot_id wk) SendStatus.RATE_LIMITED (Some "429")
                           (Some (Text str_e))]
    ∧ last (RateLimiter.slept (loop w'))
      = Some (default 1000 (RateLimiter.header_retry_after h))
    ∧ targets w' = targets w.
Proof.
  intros Hdb Hev Hwk Hq [n Hn] Hlock.
  destruct (acquire_dm_channels (loop w) (rate_limiter wk) Hlock) as (l' & rl' & Hacq).
  unfold message_processor, send_dm, send_dm_body, limiter_acquire, _record_send, bump,
    queue_put, try_except, self_worker, put_worker, sleep.
  unfold mbind, M_bind, bind, get_collection, store_call, utcnow, gets, modify,
    mret, M_ret, ret.
  destruct w as [db cs ts ss ws tk ac l ev hi er].
  cbn -[RateLimiter.acquire PyStr.int] in Hdb, Hev, Hwk, Hacq |- *.
  subst db ev.
  rewrite Hwk, Hq. cbn -[RateLimiter.acquire PyStr.int]. rewrite lookup_insert_eq.
  cbn -[RateLimiter.acquire PyStr.int]. rewrite Hacq. cbn -[PyStr.int]. rewrite Hn.
  cbn. rewrite !lookup_insert_eq. cbn.
  destruct (RateLimiter.x_ratelimit_global h); cbn.
  all: rewrite !lookup_insert_eq; cbn.
  all: destruct (decide (SendStatus.RATE_LIMITED = SendStatus.RATE_LIMITED)); [|done].
  all: cbn; rewrite ?lookup_insert_eq; cbn.
  all: eexists _, _; (split; [reflexivity|]); cbn; rewrite ?lookup_insert_eq.
  all: split; [reflexivity|]; cbn; repeat split; try done.
  all: by rewrite last_snoc.
Qed.

(** A worker with two queued messages, and nothing else. *)
Definition two_queued : World :=
  mkWorld true ∅ [] []
    {["b1" := mkWorker "b1" (RateLimiter.new_limiter "b1")
                [mkMessage "1001" "hello" None (Some "c1") 0;
                 mkMessage "1002" "hello" None (Some "c1") 0] 0 0 0]}
    ∅ ∅ (RateLimiter.mkLoop 0 []) [] [] [].

Lemma rate_limited_message_is_requeued_witness :
  ∃ w' wk',
    message_processor "b1"
      (HTTPException 429 (RateLimiter.mkHeaders None None None (Some 2000) false)
         "429 Too Many Requests")
      two_queued
    = (Ok tt, w')
    ∧ active_workers w' !! "b1" = Some wk'
    ∧ message_queue wk'
      = [mkMessage "1002" "hello" None (Some "c1") 0]
        ++ [mkMessage "1001" "hello" None (Some "c1") 0]
    ∧ processed_messages wk' = 0
    ∧ failed_messages wk' = 0
    ∧ errors_last_hour wk' = 0
    ∧ sends w'
      = sends two_queued
        ++ [mkSend (default "" (Some "c1")) "1001" "b1" SendStatus.RATE_LIMITED
              (Some "429") (Some (Text "429 Too Many Requests"))]
    ∧ last (RateLimiter.slept (loop w'))
      = Some (default 1000
                (RateLimiter.header_retry_after
                   (RateLimiter.mkHeaders None None None (Some 2000) false)))
    ∧ targets w' = targets two_queued.
Proof.
  apply (rate_limited_message_is_requeued two_queued "b1"
           (mkWorker "b1" (RateLimiter.new_limiter "b1")
              [mkMessage "1001" "hello" None (Some "c1") 0;
               mkMessage "1002" "hello" None (Some "c1") 0] 0 0 0)
           (mkMessage "1001" "hello" None (Some "c1") 0)
           [mkMessage "1002" "hello" None (Some "c1") 0]
           (RateLimiter.mkHeaders None None None (Some 2000) false)
           "429 Too Many Requests").
  - reflexivity.
  - reflexivity.
  - reflexivity.
  - reflexivity.
  - eexists. vm_compute. reflexivity.
  - vm_compute. discriminate.
Defined.

(** The platform's answer is a 429. *)
Definition rate_limited (d : delivery) : bool :=
  match d with
  | HTTPException status_code _ _ => status_code =? 429
  | _ => false
  end.

(** X16: for a user id that [int] accepts, any answer other than a 429
    consumes the message: it is not put back, whether it was delivered or
    not. Only a delivery counts as processed, and only an exception outside
    the two handled classes counts as failed and as an error of the hour. *)
Theorem failed_message_is_not_retried (w : World) (b : string) (wk : Worker)
    (msg : Message) (rest : list Message) (d : delivery) :
  db_connected w = true →
  events w = [] →
  active_workers w !! b = Some wk →
  message_queue wk = msg :: rest →
  numeric (msg_user_id msg) →
  RateLimiter.locks (rate_limiter wk) !! "dm_channels" ≠ Some true →
  rate_limited d = false →
  ∃ w' wk',
    message_processor b d w = (Ok tt, w')
    ∧ active_workers w' !! b = Some wk'
    ∧ message_queue wk' = rest
    ∧ processed_messages wk'
      = processed_messages wk + (match d with Delivered _ => 1 | _ => 0 end)
    ∧ failed_messages wk'
      = failed_messages wk + (match d with Failure _ => 1 | _ => 0 end)
    ∧ errors_last_hour wk'
      = errors_last_hour wk + (match d with Failure _ => 1 | _ => 0 end).
Proof.
  intros Hdb Hev Hwk Hq [n Hn] Hlock Hd.
  destruct (acquire_dm_channels (loop w) (rate_limiter wk) Hlock) as (l' & rl' & Hacq).
  unfold message_processor, send_dm, send_dm_body, limiter_acquire, _record_send, bump,
    queue_put, try_except, self_worker, put_worker, sleep.
  unfold mbind, M_bind, bind, get_collection, store_call, utcnow, gets, modify, raise,
    log_error, mret, M_ret, ret.
  destruct w as [db cs ts ss ws tk ac l ev hi er].
  cbn -[RateLimiter.acquire PyStr.int] in Hdb, Hev, Hwk, Hacq |- *.
  subst db ev.
  rewrite Hwk, Hq. cbn -[RateLimiter.acquire PyStr.int]. rewrite lookup_insert_eq.
  cbn -[RateLimiter.acquire PyStr.int]. rewrite Hacq. cbn -[PyStr.int]. rewrite Hn.
  destruct d as [|mid| |status_code h str_e|str_e]; cbn -[pretty] in Hd |- *;
    rewrite ?Hd; cbn -[pretty];
    rewrite ?lookup_insert_eq; cbn -[pretty]; rewrite ?lookup_insert_eq; cbn -[pretty].
  all: eexists _, _; (split; [reflexivity|]); cbn; rewrite ?lookup_insert_eq.
  all: split; [reflexivity|]; cbn; repeat split; lia.
Qed.

Lemma failed_message_is_not_retried_witness :
  ∃ w' wk',
    message_processor "b1" (Failure "connection reset") two_queued = (Ok tt, w')
    ∧ active_workers w' !! "b1" = Some wk'
    ∧ message_queue wk' = [mkMessage "1002" "hello" None (Some "c1") 0]
    ∧ processed_messages wk'
      = 0 + (match Failure "connection reset" with Delivered _ => 1 | _ => 0 end)
    ∧ failed_messages wk'
      = 0 + (match Failure "connection reset" with Failure _ => 1 | _ => 0 end)
    ∧ errors_last_hour wk'
      = 0 + (match Failure "connection reset" with Failure _ => 1 | _ => 0 end).
Proof.
  apply (failed_message_is_not_retried two_queued "b1"
           (mkWorker "b1" (RateLimiter.new_limiter "b1")
              [mkMessage "1001" "hello" None (Some "c1") 0;
               mkMessage "1002" "hello" None (Some "c1") 0] 0 0 0)
           (mkMessage "1001" "hello" None (Some "c1") 0)
           [mkMessage "1002" "hello" None (Some "c1") 0]
           (Failure "connection reset")).
  - reflexivity.
  - reflexivity.
  - reflexivity.
  - reflexivity.
  - eexists. vm_compute. reflexivity.
  - vm_compute. discriminate.
  - reflexivity.
Defined.

(** *** Modes in which nothing is dispatched *)

(** The coroutine that [start_campaign] hands to [asyncio.create_task]. *)
Definition run_task (cid : string) (task : Task) : M World unit :=
  match task with
  | Execute => _execute_campaign cid
  | Scheduled delay => _schedule_campaign cid delay
  end.

Lemma execute_scheduled_mode (cid : string) (w : World) (c : Campaign) :
  campaigns w !! cid = Some c →
  mode c = CampaignMode.SCHEDULED →
  active_workers (snd (_execute_campaign cid w)) = active_workers w
  ∧ targets (snd (_execute_campaign cid w)) = targets w
  ∧ sends (snd (_execute_campaign cid w)) = sends w
  ∧ (db_connected w = true → events w = [] →
     campaigns (snd (_execute_campaign cid w)) !! cid
     = Some (completed_with 0 0 (RateLimiter.now (loop w)) c)).
Proof.
  intros Hc Hm. unfold _execute_campaign, execute_body, try_cancelled. unfold_run.
  destruct w as [db cs ts ss ws tk ac l ev h er]. cbn in Hc |- *.
  destruct db; cbn; [|repeat split; discriminate].
  destruct ev as [|e1 [|e2 ev]]; [|destruct e1|destruct e1, e2].
  all: cbn; rewrite ?Hc; cbn; rewrite ?Hm; cbn; rewrite ?Hc; cbn.
  all: repeat split; try done.
  intros _ _. by rewrite lookup_insert_eq.
Qed.

(** X17: [_execute_campaign] has a branch for INSTANT and one for PACED. A
    campaign stored with mode SCHEDULED falls through both: whichever task
    [start_campaign] created for it and whatever happens at the store, no
    message is queued and no target or Send record is written; when nothing
    fails, the campaign is nevertheless stored as completed, with zero sent
    and zero failed. *)
Theorem scheduled_campaign_dispatches_nothing (cid : string) (task : Task)
    (w : World) (c : Campaign) :
  campaigns w !! cid = Some c →
  mode c = CampaignMode.SCHEDULED →
  active_workers (snd (run_task cid task w)) = active_workers w
  ∧ targets (snd (run_task cid task w)) = targets w
  ∧ sends (snd (run_task cid task w)) = sends w
  ∧ (db_connected w = true → events w = [] →
     status <$> campaigns (snd (run_task cid task w)) !! cid
     = Some CampaignStatus.COMPLETED
     ∧ completed_targets <$> campaigns (snd (run_task cid task w)) !! cid = Some 0
     ∧ failed_targets <$> campaigns (snd (run_task cid task w)) !! cid = Some 0).
Proof.
  intros Hc Hm. destruct task as [|delay]; cbn [run_task].
  - destruct (execute_scheduled_mode cid w c Hc Hm) as (Hw & Ht & Hs & Hdone).
    split; [done|]. split; [done|]. split; [done|].
    intros Hdb Hev. by rewrite (Hdone Hdb Hev).
  - unfold _schedule_campaign, try_except, try_cancelled, mbind, M_bind, bind, sleep.
    set (w1 := set_loop (RateLimiter.sleep delay (loop (consume_event w)))
                        (consume_event w)).
    assert (Hc1 : campaigns w1 !! cid = Some c) by done.
    destruct (execute_scheduled_mode cid w1 c Hc1 Hm) as (Hw & Ht & Hs & Hdone).
    assert (Hcalm : db_connected w = true → events w = [] →
                    db_connected w1 = true ∧ events w1 = []).
    { intros Hdb Hev. split; [done|]. simpl. by rewrite Hev. }
    destruct (head_event (events w)) eqn:Eh; cbn [cancels]; fold w1.
    4, 5: (split; [done|]; split; [done|]; split; [done|];
           intros _ Hev; by rewrite Hev in Eh).
    all: destruct (_execute_campaign cid w1) as [[[]|e|] w2] eqn:E;
      cbn [fst snd] in *.
    all: try destruct e; cbn [is_Exception fst snd log_error modify mret M_ret ret
                               active_workers targets sends campaigns].
    all: split; [done|]; split; [done|]; split; [done|].
    all: intros Hdb Hev; destruct (Hcalm Hdb Hev) as [Hdb1 Hev1];
      by rewrite (Hdone Hdb1 Hev1).
Qed.

Lemma scheduled_campaign_dispatches_nothing_witness :
  let w := sample_world CampaignMode.SCHEDULED CampaignStatus.RUNNING [] in
  active_workers (snd (run_task "c1" (Scheduled 5000) w)) = active_workers w
  ∧ targets (snd (run_task "c1" (Scheduled 5000) w)) = targets w
  ∧ sends (snd (run_task "c1" (Scheduled 5000) w)) = sends w
  ∧ (db_connected w = true → events w = [] →
     status <$> campaigns (snd (run_task "c1" (Scheduled 5000) w)) !! "c1"
     = Some CampaignStatus.COMPLETED
     ∧ completed_targets <$> campaigns (snd (run_task "c1" (Scheduled 5000) w)) !! "c1"
       = Some 0
     ∧ failed_targets <$> campaigns (snd (run_task "c1" (Scheduled 5000) w)) !! "c1"
       = Some 0).
Proof.
  intros w.
  apply (scheduled_campaign_dispatches_nothing "c1" (Scheduled 5000) w
           (sample_campaign CampaignMode.SCHEDULED CampaignStatus.RUNNING)).
  - reflexivity.
  - reflexivity.
Defined.

(** X18: a PACED campaign stored with [pace = 0]: the interval [60.0 / pace]
    cannot be computed. Nothing is queued, the campaign keeps the status it
    had, its task entry is not cleaned up, and one error is logged. *)
Theorem paced_campaign_without_pace_stalls (cid : string) (w : World) (c : Campaign) :
  campaigns w !! cid = Some c →
  mode c = CampaignMode.PACED →
  pace c = 0 →
  db_connected w = true →
  events w = [] →
  ∃ w',
    _execute_campaign cid w = (Ok tt, w')
    ∧ campaigns w' = campaigns w
    ∧ campaign_tasks w' = campaign_tasks w
    ∧ active_workers w' = active_workers w
    ∧ targets w' = targets w
    ∧ errors w' = errors w ++ ["Error executing campaign"].
Proof.
  intros Hc Hm Hp Hdb Hev. unfold _execute_campaign, execute_body, try_cancelled.
  unfold_run. unfold raise.
  destruct w as [db cs ts ss ws tk ac l ev h er]. cbn in Hc, Hdb, Hev |- *.
  subst db ev. cbn. rewrite Hc. cbn. rewrite Hm, Hp. cbn.
  eexists. split; [reflexivity|]. done.
Qed.

Lemma paced_campaign_without_pace_stalls_witness :
  let c := mkCampaign None "g" "promo" "hello" None CampaignMode.PACED 0 None
             CampaignStatus.RUNNING 2 0 0 0 in
  let w := mkWorld true {["c1" := c]} [] [] ∅ {["c1" := Execute]} ∅
             (RateLimiter.mkLoop 0 []) [] [] [] in
  ∃ w',
    _execute_campaign "c1" w = (Ok tt, w')
    ∧ campaigns w' = campaigns w
    ∧ campaign_tasks w' = campaign_tasks w
    ∧ active_workers w' = active_workers w
    ∧ targets w' = targets w
    ∧ errors w' = errors w ++ ["Error executing campaign"].
Proof.
  intros c w. apply (paced_campaign_without_pace_stalls "c1" w c); reflexivity.
Defined.

(** *** What an INSTANT run counts *)

(** The target's bot has a worker in the registry. *)
Definition has_worker (w : World) (t : CampaignTarget) : bool :=
  match assigned_bot_id t with
  | Some b => bool_decide (is_Some (active_workers w !! b))
  | None => false
  end.

(** What one turn of a loop may change: targets, worker queues, consumed
    events, logged lines. *)
Definition same_run (w w' : World) : Prop :=
  db_connected w' = db_connected w
  ∧ campaigns w' = campaigns w
  ∧ sends w' = sends w
  ∧ campaign_tasks w' = campaign_tasks w
  ∧ active_campaigns w' = active_campaigns w
  ∧ loop w' = loop w
  ∧ (events w = [] → events w' = [])
  ∧ (∀ t, has_worker w' t = has_worker w t).

Lemma same_run_refl (w : World) : same_run w w.
Proof. by repeat split. Qed.

Lemma same_run_trans (w1 w2 w3 : World) :
  same_run w1 w2 → same_run w2 w3 → same_run w1 w3.
Proof.
  intros (?&?&?&?&?&?&?&?) (?&?&?&?&?&?&?&?).
  repeat split; [congruence..|auto|intros t; congruence].
Qed.

Lemma same_run_log_error (line : string) (w : World) :
  same_run w (snd (log_error line w)).
Proof. by repeat split. Qed.

Lemma same_run_consume (w : World) : same_run w (consume_event w).
Proof. repeat split. simpl. by intros ->. Qed.

Lemma send_with_worker (campaign : Campaign) (t : CampaignTarget) (w : World) :
  db_connected w = true → events w = [] → has_worker w t = true →
  ∃ w', _send_campaign_message campaign t w = (Ok tt, w') ∧ same_run w w'
        ∧ errors w' = errors w.
Proof.
  intros Hdb Hev Hw. unfold has_worker in Hw.
  destruct (assigned_bot_id t) as [b|] eqn:Hb; [|done].
  apply bool_decide_eq_true in Hw as [wk Hwk].
  eexists. split; [by apply (run_send_campaign_message campaign t w b wk)|].
  split; [|done]. repeat split; try done.
  - simpl. by rewrite Hev.
  - intros t'. unfold has_worker. destruct (assigned_bot_id t') as [b'|]; [|done].
    apply bool_decide_ext. cbn [active_workers set_targets consume_event
      dispatch_world_suspendable set_workers].
    destruct (decide (b' = b)) as [->|Hne].
    + rewrite lookup_insert_eq, Hwk. split; eauto.
    + by rewrite lookup_insert_ne.
Qed.

Lemma send_without_worker (campaign : Campaign) (t : CampaignTarget) (w : World) :
  db_connected w = true → events w = [] → has_worker w t = false →
  ∃ w', _send_campaign_message campaign t w = (Exc WorkerUnavailable, w')
        ∧ same_run w w' ∧ errors w' = errors w.
Proof.
  intros Hdb Hev Hw.
  assert (Hget : get_bot_worker (assigned_bot_id t) w = (Ok None, w)).
  { unfold get_bot_worker, gets, has_worker in *.
    destruct (assigned_bot_id t) as [b|]; [|done].
    apply bool_decide_eq_false in Hw. destruct (active_workers w !! b); [|done].
    destruct Hw. eauto. }
  unfold _send_campaign_message, try_except.
  rewrite (bind_ok _ _ _ _ _ Hget). unfold raise at 1. cbn [is_Exception].
  unfold update_target, mbind, M_bind, bind, get_collection, store_call, modify, raise.
  destruct w as [db cs ts ss ws tk ac l ev h er]. cbn in Hdb, Hev |- *. subst db ev.
  cbn. eexists. split; [reflexivity|].
  destruct (list_find _ ts) as [[i x]|]; by repeat split.
Qed.

(** The line [_execute_campaign] logs for a target it could not send. *)
Definition send_failure : string := "Failed to send message".

Lemma run_instant_loop (campaign : Campaign) (docs : list CampaignTarget) :
  ∀ (w : World) (sent_count failed_count : Z),
    db_connected w = true → events w = [] →
    ∃ w',
      instant_loop campaign docs sent_count failed_count w
      = (Ok (sent_count
             + Z.of_nat (length (filter (fun t => has_worker w t = true) docs)),
             failed_count
             + Z.of_nat (length (filter (fun t => has_worker w t = false) docs))),
         w')
      ∧ same_run w w'
      ∧ errors w'
        = errors w
          ++ replicate (length (filter (fun t => has_worker w t = false) docs))
               send_failure.
Proof.
  induction docs as [|t docs IH]; intros w s f Hdb Hev.
  - exists (consume_event w). split; [|split; [apply same_run_consume|]].
    + cbn [instant_loop]. unfold cursor_next.
      rewrite (bind_ok _ _ w (consume_event w) tt).
      * rewrite !filter_nil. cbn [length]. rewrite Nat2Z.inj_0, !Z.add_0_r. reflexivity.
      * unfold store_call. cbn [oracle dispatch_world_suspendable]. rewrite Hev.
        reflexivity.
    + rewrite filter_nil. cbn. by rewrite app_nil_r.
  - set (w0 := consume_event w).
    assert (Hdb0 : db_connected w0 = true) by done.
    assert (Hev0 : events w0 = []) by (simpl; by rewrite Hev).
    assert (Hnext : cursor_next w = (Ok tt, w0)).
    { unfold cursor_next, store_call. cbn [oracle dispatch_world_suspendable].
      rewrite Hev. reflexivity. }
    cbn [instant_loop]. rewrite (bind_ok _ _ _ _ _ Hnext).
    rewrite !filter_cons.
    destruct (has_worker w t) eqn:Hw.
    + destruct (send_with_worker campaign t w0 Hdb0 Hev0 Hw)
        as (w1 & Hsend & Hsame & Herr).
      assert (Htry : try_except (_send_campaign_message campaign t ;; mret true)
                       (fun _ => log_error "Failed to send message" ;; mret false) w0
                     = (Ok true, w1)).
      { unfold try_except. by rewrite (bind_ok _ _ _ _ _ Hsend). }
      rewrite (bind_ok _ _ _ _ _ Htry).
      destruct Hsame as (H1&H2&H3&H4&H5&H6&H8&H9).
      destruct (IH w1 (s + 1) f) as (w2 & Hrun & Hsame2 & Herr2); [congruence|auto|].
      assert (Hf : ∀ b, filter (fun t => has_worker w1 t = b) docs
                        = filter (fun t => has_worker w t = b) docs).
      { intros b. apply list_filter_iff. intros x. by rewrite H9. }
      exists w2. split; [|split].
      * rewrite Hrun. destruct (decide (true = true)); [|done].
        destruct (decide (true = false)); [done|].
        rewrite !Hf. cbn [length]. do 3 f_equal; lia.
      * eapply same_run_trans; [apply same_run_consume|].
        eapply same_run_trans; [|exact Hsame2]. by repeat split.
      * destruct (decide (true = false)); [done|].
        rewrite Herr2, Hf, Herr. done.
    + destruct (send_without_worker campaign t w0 Hdb0 Hev0 Hw)
        as (w1 & Hsend & Hsame & Herr).
      assert (Htry : try_except (_send_campaign_message campaign t ;; mret true)
                       (fun _ => log_error "Failed to send message" ;; mret false) w0
                     = (Ok false, snd (log_error "Failed to send message" w1))).
      { unfold try_except. by rewrite (bind_exc _ _ _ _ _ Hsend). }
      rewrite (bind_ok _ _ _ _ _ Htry).
      set (w1' := snd (log_error "Failed to send message" w1)).
      assert (Hsame' : same_run w0 w1').
      { eapply same_run_trans; [exact Hsame|apply same_run_log_error]. }
      destruct Hsame' as (H1&H2&H3&H4&H5&H6&H8&H9).
      destruct (IH w1' s (f + 1)) as (w2 & Hrun & Hsame2 & Herr2); [congruence|auto|].
      assert (Hf : ∀ b, filter (fun t => has_worker w1' t = b) docs
                        = filter (fun t => has_worker w t = b) docs).
      { intros b. apply list_filter_iff. intros x. by rewrite H9. }
      exists w2. split; [|split].
      * rewrite Hrun. destruct (decide (false = true)); [done|].
        destruct (decide (false = false)); [|done].
        rewrite !Hf. cbn [length]. do 3 f_equal; lia.
      * eapply same_run_trans; [apply same_run_consume|].
        eapply same_run_trans; [|exact Hsame2]. by repeat split.
      * destruct (decide (false = false)); [|done].
        rewrite Herr2, Hf. cbn [length replicate]. unfold w1'. cbn [errors log_error modify snd].
        rewrite Herr. cbn. by rewrite <- app_assoc.
Qed.

(** X19: with nothing failing, an INSTANT run visits every pending target of
    the campaign once: a target whose bot has a worker is counted as sent
    (its message has been queued, not delivered), any other as failed, with
    one logged line each. The campaign is stored as completed with these two
    counts, which add up to the number of targets that were pending, and
    the campaign's task and in-memory entry are dropped. *)
Theorem instant_run_accounts_for_every_target (cid : string) (w : World)
    (c : Campaign) :
  db_connected w = true →
  events w = [] →
  campaigns w !! cid = Some c →
  mode c = CampaignMode.INSTANT →
  let queued := filter (fun t => has_worker w t = true) (pending_targets cid w) in
  let stranded := filter (fun t => has_worker w t = false) (pending_targets cid w) in
  ∃ w',
    _execute_campaign cid w = (Ok tt, w')
    ∧ status <$> campaigns w' !! cid = Some CampaignStatus.COMPLETED
    ∧ completed_targets <$> campaigns w' !! cid = Some (Z.of_nat (length queued))
    ∧ failed_targets <$> campaigns w' !! cid = Some (Z.of_nat (length stranded))
    ∧ updated_at <$> campaigns w' !! cid = Some (RateLimiter.now (loop w))
    ∧ (∀ other, other ≠ cid → campaigns w' !! other = campaigns w !! other)
    ∧ Z.of_nat (length queued) + Z.of_nat (length stranded)
      = Z.of_nat (length (pending_targets cid w))
    ∧ campaign_tasks w' !! cid = None
    ∧ active_campaigns w' !! cid = None
    ∧ sends w' = sends w
    ∧ errors w' = errors w ++ replicate (length stranded) send_failure.
Proof.
  intros Hdb Hev Hc Hm queued stranded.
  set (w0 := consume_event w).
  assert (Hfind : find_campaign cid w = (Ok (Some c), w0)).
  { unfold find_campaign, store_call. cbn [oracle dispatch_world_suspendable].
    rewrite Hev. cbn [head_event gets]. by rewrite <- Hc. }
  destruct (run_instant_loop c (pending_targets cid w0) w0 0 0)
    as (w1 & Hloop & (H1&H2&H3&H4&H5&H6&H8&H9) & Herr);
    [done|simpl; by rewrite Hev|].
  change (pending_targets cid w0) with (pending_targets cid w) in Hloop, Herr.
  assert (Hq : filter (fun t => has_worker w0 t = true) (pending_targets cid w) = queued)
    by done.
  assert (Hs : filter (fun t => has_worker w0 t = false) (pending_targets cid w) = stranded)
    by done.
  rewrite Hq, Hs, !Z.add_0_l in Hloop. rewrite Hs in Herr.
  assert (Hev1 : events w1 = []) by (apply H8; simpl; by rewrite Hev).
  assert (Hc1 : campaigns w1 !! cid = Some c) by (by rewrite H2).
  set (done_ := completed_with (Z.of_nat (length queued)) (Z.of_nat (length stranded))
                  (RateLimiter.now (loop w)) c).
  assert (Hupd : update_campaign cid (fun _ => true)
                   (completed_with (Z.of_nat (length queued))
                      (Z.of_nat (length stranded)) (RateLimiter.now (loop w1))) w1
                 = (Ok 1%nat, set_campaigns (<[cid := done_]> (campaigns w1))
                                (consume_event w1))).
  { unfold update_campaign, store_call. cbn [oracle dispatch_world_suspendable].
    rewrite Hev1. cbn [head_event]. cbn [campaigns consume_event dispatch_world_suspendable].
    rewrite Hc1. unfold done_. by rewrite H6. }
  eexists. split.
  { unfold _execute_campaign, try_except, try_cancelled, execute_body.
    assert (Hgc : (get_collection : M World unit) w = (Ok tt, w)).
    { unfold get_collection. cbn [connected dispatch_world_suspendable]. by rewrite Hdb. }
    rewrite (bind_ok _ _ _ _ _ Hgc). rewrite (bind_ok _ _ _ _ _ Hgc).
    rewrite (bind_ok _ _ _ _ _ Hfind).
    rewrite (bind_ok (gets (pending_targets cid)) _ w0 w0 (pending_targets cid w) eq_refl).
    rewrite Hm. rewrite (bind_ok _ _ _ _ _ Hloop).
    rewrite (bind_ok utcnow _ w1 w1 (RateLimiter.now (loop w1)) eq_refl).
    cbn [fst snd]. rewrite (bind_ok _ _ _ _ _ Hupd). reflexivity. }
  cbn [campaigns campaign_tasks active_campaigns sends errors set_memory set_campaigns
       consume_event dispatch_world_suspendable snd].
  rewrite !lookup_insert_eq, !lookup_delete_eq. cbn [fmap option_fmap option_map].
  split; [done|]. split; [done|]. split; [done|]. split; [done|].
  split; [intros other Hne; rewrite lookup_insert_ne by done; by rewrite H2|].
  split.
  { unfold queued, stranded. clear.
    induction (pending_targets cid w) as [|t ts IH]; [done|].
    rewrite !filter_cons. destruct (has_worker w t);
      repeat destruct (decide _); try done; cbn [length]; lia. }
  split; [done|]. split; [done|]. split; [done|]. exact Herr.
Qed.

Lemma instant_run_accounts_for_every_target_witness :
  let w := mkWorld true
             {["c1" := sample_campaign CampaignMode.INSTANT CampaignStatus.RUNNING]}
             [mkTarget "c1" "1001" (Some "b1") TargetStatus.PENDING 0 None None;
              mkTarget "c1" "1002" (Some "b9") TargetStatus.PENDING 0 None None]
             []
             {["b1" := mkWorker "b1" (RateLimiter.new_limiter "b1") [] 0 0 0]}
             {["c1" := Execute]} ∅ (RateLimiter.mkLoop 0 []) [] [] [] in
  let queued := filter (fun t => has_worker w t = true) (pending_targets "c1" w) in
  let stranded := filter (fun t => has_worker w t = false) (pending_targets "c1" w) in
  ∃ w',
    _execute_campaign "c1" w = (Ok tt, w')
    ∧ status <$> campaigns w' !! "c1" = Some CampaignStatus.COMPLETED
    ∧ completed_targets <$> campaigns w' !! "c1" = Some (Z.of_nat (length queued))
    ∧ failed_targets <$> campaigns w' !! "c1" = Some (Z.of_nat (length stranded))
    ∧ updated_at <$> campaigns w' !! "c1" = Some (RateLimiter.now (loop w))
    ∧ (∀ other, other ≠ "c1" → campaigns w' !! other = campaigns w !! other)
    ∧ Z.of_nat (length queued) + Z.of_nat (length stranded)
      = Z.of_nat (length (pending_targets "c1" w))
    ∧ campaign_tasks w' !! "c1" = None
    ∧ active_campaigns w' !! "c1" = None
    ∧ sends w' = sends w
    ∧ errors w' = errors w ++ replicate (length stranded) send_failure.
Proof.
  intros w.
  apply (instant_run_accounts_for_every_target "c1" w
           (sample_campaign CampaignMode.INSTANT CampaignStatus.RUNNING));
    reflexivity.
Defined.

(** *** A campaign stored without its id *)

Lemma keeps_try_cancelled {A} (body handler : M World A) :
  keeps_targets body → keeps_targets handler →
  keeps_targets (try_cancelled body handler).
Proof.
  intros Hb Hh w. specialize (Hb w). unfold try_cancelled.
  destruct (body w) as [[a|e|] w1]; simpl in *; try done.
  destruct e; try done. by rewrite Hh.
Qed.

Lemma keeps_update_target_nowhere (u : string) (f : CampaignTarget → CampaignTarget) :
  keeps_targets (update_target None u f).
Proof.
  apply keeps_store_call, keeps_modify. intros w.
  destruct (list_find _ _) as [[i t]|] eqn:E; [|done].
  apply list_find_Some in E as (_ & Hm & _). discriminate.
Qed.

Lemma keeps_send_campaign_message (campaign : Campaign) (target_doc : CampaignTarget) :
  id campaign = None → keeps_targets (_send_campaign_message campaign target_doc).
Proof.
  intros Hid. unfold _send_campaign_message. rewrite Hid.
  apply keeps_try_except.
  - apply keeps_bind; [apply keeps_gets | intros [worker|]; [|apply keeps_raise]].
    apply keeps_bind.
    { apply keeps_bind; [apply keeps_gets | intros t; apply keeps_queue_put]. }
    intros _. apply keeps_bind; [apply keeps_get_collection | intros _].
    apply keeps_bind; [apply keeps_gets | intros t].
    apply keeps_update_target_nowhere.
  - intros e. apply keeps_bind; [apply keeps_get_collection | intros _].
    apply keeps_bind; [apply keeps_update_target_nowhere | intros _; apply keeps_raise].
Qed.

Lemma keeps_cursor_next : keeps_targets cursor_next.
Proof. apply keeps_store_call, keeps_ret. Qed.

Lemma keeps_instant_loop (campaign : Campaign) (docs : list CampaignTarget)
    (sent_count failed_count : Z) :
  id campaign = None →
  keeps_targets (instant_loop campaign docs sent_count failed_count).
Proof.
  intros Hid. revert sent_count failed_count.
  induction docs as [|t docs IH]; intros s f; cbn [instant_loop].
  - apply keeps_bind; [apply keeps_cursor_next | intros _; apply keeps_ret].
  - apply keeps_bind; [apply keeps_cursor_next | intros _].
    apply keeps_bind.
    + apply keeps_try_except.
      * apply keeps_bind; [by apply keeps_send_campaign_message | intros _].
        apply keeps_ret.
      * intros e. apply keeps_bind; [apply keeps_log_error | intros _; apply keeps_ret].
    + intros [|]; apply IH.
Qed.

Lemma keeps_paced_body (campaign : Campaign) (target_doc : CampaignTarget)
    (message_interval sent_count failed_count : Z) :
  id campaign = None →
  keeps_targets (paced_body campaign target_doc message_interval sent_count failed_count).
Proof.
  intros Hid w. unfold paced_body.
  pose proof (keeps_send_campaign_message campaign target_doc Hid w) as Hs.
  destruct (_send_campaign_message campaign target_doc w) as [[[]|e|] w1];
    cbn [snd] in Hs.
  - pose proof (keeps_sleep message_interval w1) as Hsl.
    destruct (sleep message_interval w1) as [[[]|e|] w2]; cbn [snd] in *;
      try destruct (is_Exception e); cbn [snd log_error modify targets]; congruence.
  - by destruct (is_Exception e).
  - done.
Qed.

Lemma keeps_paced_loop (campaign : Campaign) (docs : list CampaignTarget)
    (message_interval sent_count failed_count : Z) :
  id campaign = None →
  keeps_targets (paced_loop campaign docs message_interval sent_count failed_count).
Proof.
  intros Hid. revert sent_count failed_count.
  induction docs as [|t docs IH]; intros s f; cbn [paced_loop].
  - apply keeps_bind; [apply keeps_cursor_next | intros _; apply keeps_ret].
  - apply keeps_bind; [apply keeps_cursor_next | intros _].
    apply keeps_bind; [by apply keeps_paced_body | intros [s' f'|s' f']].
    + apply IH.
    + apply keeps_ret.
Qed.

Lemma keeps_update_campaign (cid : string) (guard : Campaign → bool)
    (f : Campaign → Campaign) :
  keeps_targets (update_campaign cid guard f).
Proof.
  apply keeps_store_call. intros w.
  destruct (campaigns w !! cid) as [c|]; [|done]. by destruct (guard c).
Qed.

(** What [_execute_campaign] does once it has read the campaign. *)
Lemma keeps_run_of (cid : string) (campaign_doc : option Campaign) :
  (∀ c, campaign_doc = Some c → id c = None) →
  keeps_targets
    (match campaign_doc with
     | None => log_error "Campaign not found"
     | Some campaign =>
         docs ← gets (pending_targets cid);
         counts ←
           match mode campaign with
           | CampaignMode.INSTANT => instant_loop campaign docs 0 0
           | CampaignMode.PACED =>
               if pace campaign =? 0 then raise ZeroDivisionError
               else paced_loop campaign docs (RateLimiter.minute / pace campaign) 0 0
           | CampaignMode.SCHEDULED => mret (0, 0)
           end;
         t ← utcnow;
         update_campaign cid (fun _ => true) (completed_with (fst counts) (snd counts) t) ;;
         modify (fun w => set_memory (delete cid (campaign_tasks w))
                                     (delete cid (active_campaigns w)) w)
     end).
Proof.
  intros Hid. destruct campaign_doc as [c|]; [|apply keeps_log_error].
  specialize (Hid c eq_refl).
  apply keeps_bind; [apply keeps_gets | intros docs].
  apply keeps_bind.
  - destruct (mode c).
    + by apply keeps_instant_loop.
    + destruct (pace c =? 0); [apply keeps_raise | by apply keeps_paced_loop].
    + apply keeps_ret.
  - intros counts. apply keeps_bind; [apply keeps_gets | intros t].
    apply keeps_bind; [apply keeps_update_campaign | intros _].
    by apply keeps_modify.
Qed.

Lemma find_campaign_cases (cid : string) (w : World) :
  find_campaign cid w = (Ok (campaigns w !! cid), consume_event w)
  ∨ ∃ e, find_campaign cid w = (Exc e, consume_event w).
Proof.
  unfold find_campaign, store_call. destruct (head_event (oracle w)); eauto.
Qed.

(** X20: [_execute_campaign] finds the pending targets by the campaign's
    [_id] but [_send_campaign_message] updates them by the [id] field of the
    stored document. For a campaign whose stored document has no [id], no
    run, in any mode and whatever happens at the store, changes any target:
    every target stays as it was. *)
Theorem run_without_id_updates_no_target (cid : string) (w : World) (c : Campaign) :
  campaigns w !! cid = Some c →
  id c = None →
  targets (snd (_execute_campaign cid w)) = targets w.
Proof.
  intros Hc Hid.
  assert (Hbody : targets (snd (execute_body cid w)) = targets w).
  { unfold execute_body.
    destruct (connected w) eqn:Hconn.
    - assert (Hgc : (get_collection : M World unit) w = (Ok tt, w))
        by (unfold get_collection; by rewrite Hconn).
      rewrite !(bind_ok _ _ _ _ _ Hgc).
      destruct (find_campaign_cases cid w) as [Hfind | [e Hfind]].
      + rewrite (bind_ok _ _ _ _ _ Hfind), Hc.
        rewrite (keeps_run_of cid (Some c)); [done|]. by intros ? [= <-].
      + by rewrite (bind_exc _ _ _ _ _ Hfind).
    - assert (Hgc : (get_collection : M World unit) w = (Exc RuntimeError, w))
        by (unfold get_collection; by rewrite Hconn).
      by rewrite (bind_exc _ _ _ _ _ Hgc). }
  unfold _execute_campaign, try_except, try_cancelled.
  destruct (execute_body cid w) as [[[]|e|] w1]; cbn [snd] in *; try done.
  destruct e; cbn [is_Exception snd]; done.
Qed.

Lemma run_without_id_updates_no_target_witness :
  let c := mkCampaign None "g" "promo" "hello" None CampaignMode.INSTANT 60 None
             CampaignStatus.RUNNING 2 0 0 0 in
  let w := mkWorld true {["c1" := c]}
             [mkTarget "c1" "1001" (Some "b1") TargetStatus.PENDING 0 None None] []
             {["b1" := mkWorker "b1" (RateLimiter.new_limiter "b1") [] 0 0 0]}
             ∅ ∅ (RateLimiter.mkLoop 0 []) [] [] [] in
  targets (snd (_execute_campaign "c1" w)) = targets w.
Proof.
  intros c w. apply (run_without_id_updates_no_target "c1" w c); reflexivity.
Defined.

(** *** Leaving the paused state *)

(** The three operations the controller offers on an existing campaign. *)
Inductive control : Type := DoStart | DoPause | DoCancel.

Definition run_control (o : control) (cid who : string) : M World Result :=
  match o with
  | DoStart => start_campaign cid who
  | DoPause => pause_campaign cid who
  | DoCancel => cancel_campaign cid who
  end.

Lemma cancel_campaign_outcome (cid who : string) (w : World) :
  never_cancelled (events w) →
  stored_status cid (snd (cancel_campaign cid who w)) = stored_status cid w
  ∨ stored_status cid (snd (cancel_campaign cid who w)) = Some CampaignStatus.CANCELLED.
Proof.
  intros Hc. unfold cancel_campaign, stored_status. unfold_run.
  destruct w as [c cs ts ss ws tk ac l ev h er]. cbn in Hc |- *.
  destruct c; cbn; [|by left].
  next_event; cbn.
  all: destruct (cs !! cid) as [cc|] eqn:E; cbn; rewrite ?E; cbn; auto.
  all: right; by rewrite lookup_insert_eq.
Qed.

(** X21: the controller has no way back from PAUSED to RUNNING:
    [start_campaign] refuses a paused campaign, [pause_campaign] leaves it
    paused, and [cancel_campaign] can only move it to CANCELLED. *)
Theorem paused_campaign_never_resumes (o : control) (cid who : string) (w : World) :
  never_cancelled (events w) →
  stored_status cid w = Some CampaignStatus.PAUSED →
  (stored_status cid (snd (run_control o cid who w)) = Some CampaignStatus.PAUSED
   ∨ stored_status cid (snd (run_control o cid who w)) = Some CampaignStatus.CANCELLED)
  ∧ (o = DoStart → ∃ r, fst (run_control o cid who w) = Ok r ∧ success r = false).
Proof.
  intros Hc Hp. destruct o; cbn [run_control].
  - destruct (start_campaign_guarded cid who w Hc) as (r & Hr & _ & Hkeep).
    destruct Hkeep as [Hfalse Hsame]; [by rewrite Hp|].
    split; [left|eauto]. unfold stored_status in *. by rewrite Hsame.
  - destruct (pause_campaign_guarded cid who w Hc) as (r & Hr & _ & Hkeep).
    destruct Hkeep as [Hfalse Hsame]; [by rewrite Hp|].
    split; [left|done]. unfold stored_status in *. by rewrite Hsame.
  - split; [|done].
    destruct (cancel_campaign_outcome cid who w Hc) as [H|H]; [left|right]; congruence.
Qed.

Lemma paused_campaign_never_resumes_witness :
  let w := sample_world CampaignMode.INSTANT CampaignStatus.PAUSED [] in
  (stored_status "c1" (snd (run_control DoStart "c1" "admin" w))
   = Some CampaignStatus.PAUSED
   ∨ stored_status "c1" (snd (run_control DoStart "c1" "admin" w))
     = Some CampaignStatus.CANCELLED)
  ∧ (DoStart = DoStart →
     ∃ r, fst (run_control DoStart "c1" "admin" w) = Ok r ∧ success r = false).
Proof.
  intros w. apply (paused_campaign_never_resumes DoStart "c1" "admin" w).
  - simpl. split; apply not_elem_of_nil.
  - reflexivity.
Defined.

End DispatchLaws.

(** ** Health and the bots on offer *)

Module FleetFacts.
Import Fleet.

(** *** Sorting by a key *)

Lemma insert_by_perm {A} (key : A → nat) (x : A) (l : list A) :
  insert_by key x l ≡ₚ x :: l.
Proof.
  induction l as [|y l IH]; [done|]. cbn [insert_by].
  destruct (key x <=? key y)%nat; [done|]. rewrite IH. apply perm_swap.
Qed.

Lemma sort_by_perm {A} (key : A → nat) (l : list A) : sort_by key l ≡ₚ l.
Proof.
  induction l as [|x l IH]; [done|]. cbn [sort_by foldr].
  rewrite insert_by_perm. by f_equiv.
Qed.

Definition ascending {A} (key : A → nat) (l : list A) : Prop :=
  Sorted (fun a b => (key a ≤ key b)%nat) l.

Lemma insert_by_ascending {A} (key : A → nat) (x : A) (l : list A) :
  ascending key l → ascending key (insert_by key x l).
Proof.
  unfold ascending. induction 1 as [|y l Hs IH Hhd]; cbn [insert_by].
  - repeat constructor.
  - destruct (Nat.leb_spec (key x) (key y)).
    + constructor; [by constructor|]. by constructor.
    + constructor; [done|]. destruct l as [|z l]; cbn [insert_by].
      * constructor. lia.
      * destruct (Nat.leb_spec (key x) (key z)); constructor; try lia.
        by inversion Hhd.
Qed.

Lemma sort_by_ascending {A} (key : A → nat) (l : list A) : ascending key (sort_by key l).
Proof.
  induction l as [|x l IH]; [constructor|]. by apply insert_by_ascending.
Qed.

(** Entries with equal keys keep the order they had. *)
Lemma insert_by_stable {A} (key : A → nat) (x : A) (l : list A) (q : nat) :
  filter (fun a => key a = q) (insert_by key x l) = filter (fun a => key a = q) (x :: l).
Proof.
  induction l as [|y l IH]; [done|]. cbn [insert_by].
  destruct (Nat.leb_spec (key x) (key y)); [done|].
  rewrite filter_cons, IH, !filter_cons.
  repeat destruct (decide _); try done. lia.
Qed.

Lemma sort_by_stable {A} (key : A → nat) (l : list A) (q : nat) :
  filter (fun a => key a = q) (sort_by key l) = filter (fun a => key a = q) l.
Proof.
  induction l as [|x l IH]; [done|]. cbn [sort_by foldr].
  rewrite insert_by_stable, !filter_cons. fold (sort_by key l). by rewrite IH.
Qed.

(** *** Who is offered *)

(** The worker passes the three tests of [get_available_bots_for_guild]. *)
Definition eligible (wk : Worker) : bool :=
  client_ready wk
  && bool_decide (health_status wk ≠ HealthStatus.UNHEALTHY)
  && (queue_size wk <? 100)%nat.

Definition offer_of (item : string * Worker) : Offer :=
  mkOffer item.1 (bot_name item.2) (queue_size item.2) (health_status item.2)
          (client_latency item.2).

(** Every ready worker has a latency that [int] accepts. *)
Definition latencies_finite (items : list (string * Worker)) : Prop :=
  Forall (fun item => client_ready item.2 = true → is_Some (client_latency item.2)) items.

Lemma get_status_finite (k : string) (wk : Worker) :
  (client_ready wk = true → is_Some (client_latency wk)) →
  ∃ s, get_status wk = inr s
       ∧ usable s = eligible wk
       ∧ (eligible wk = true →
          mkOffer k (status_bot_name s) (status_queue_size s) (status_health s) (latency s)
          = offer_of (k, wk)).
Proof.
  intros Hlat. unfold get_status, int_latency, usable, eligible.
  assert (Hh : ∀ h, bool_decide (h = HealthStatus.HEALTHY ∨ h = HealthStatus.DEGRADED)
                    = bool_decide (h ≠ HealthStatus.UNHEALTHY)).
  { intros h. apply bool_decide_ext.
    destruct h; split; intros H;
      solve [done | by left | by right | by destruct H as [?|?] | by destruct H]. }
  destruct (client_ready wk) eqn:Hr.
  - destruct Hlat as [ms Hms]; [done|]. rewrite Hms. eexists. split; [done|].
    cbn [is_ready status_health status_queue_size status_bot_name latency].
    rewrite Hh. split; [done|]. intros _. unfold offer_of. cbn [fst snd]. by rewrite Hms.
  - eexists. split; [done|]. cbn [is_ready andb]. split; [done|]. discriminate.
Qed.

Lemma collect_all (items : list (string * Worker)) :
  latencies_finite items →
  ∀ acc, collect items acc
         = inr (acc ++ map offer_of (filter (fun item => eligible item.2 = true) items)).
Proof.
  induction 1 as [|[k wk] items Hlat _ IH]; intros acc; cbn [collect].
  - by rewrite app_nil_r.
  - rewrite filter_cons. cbn [snd] in *.
    destruct (get_status_finite k wk Hlat) as (s & -> & -> & Hoffer).
    destruct (eligible wk) eqn:He; rewrite IH; destruct (decide _); try done.
    rewrite Hoffer by done. by rewrite <- app_assoc.
Qed.

Lemma collect_fails (items : list (string * Worker)) (k : string) (wk : Worker) :
  (k, wk) ∈ items → client_ready wk = true → client_latency wk = None →
  ∀ acc, ∃ e, collect items acc = inl e.
Proof.
  intros Hin Hr Hl. induction items as [|[k' wk'] items IH]; intros acc.
  - by apply elem_of_nil in Hin.
  - cbn [collect]. apply elem_of_cons in Hin as [[= <- <-]|Hin].
    + unfold get_status, int_latency. rewrite Hr, Hl. eauto.
    + destruct (get_status wk'); [eauto|]. destruct (usable _); by apply IH.
Qed.

(** With finite latencies the loop of [get_available_bots_for_guild] runs
    to its end. *)
Lemma run_get_available_bots (guild_id : string) (w : World) :
  latencies_finite (active_workers w) →
  get_available_bots_for_guild guild_id w
  = (Ok (sort_by offer_queue_size
           (map offer_of
              (filter (fun item => eligible item.2 = true) (active_workers w)))), w).
Proof.
  intros Hlat.
  unfold get_available_bots_for_guild, try_except, mbind, M_bind, bind, gets.
  by rewrite (collect_all _ Hlat []).
Qed.

(** X22: the bots offered to a campaign are exactly the registered workers
    that are ready, not unhealthy and hold fewer than 100 queued messages;
    they come in ascending order of queue size, workers with equal queues
    in registry order. The call itself changes nothing. *)
Theorem available_bots_are_the_eligible_workers (guild_id : string) (w : World) :
  latencies_finite (active_workers w) →
  ∃ bots,
    get_available_bots_for_guild guild_id w = (Ok bots, w)
    ∧ bots ≡ₚ map offer_of (filter (fun item => eligible item.2 = true) (active_workers w))
    ∧ ascending offer_queue_size bots
    ∧ (∀ q, filter (fun o => offer_queue_size o = q) bots
            = filter (fun o => offer_queue_size o = q)
                (map offer_of
                   (filter (fun item => eligible item.2 = true) (active_workers w))))
    ∧ Forall (fun o => (offer_queue_size o < 100)%nat
                       ∧ offer_health o ≠ HealthStatus.UNHEALTHY) bots.
Proof.
  intros Hlat.
  set (offers := map offer_of
                   (filter (fun item => eligible item.2 = true) (active_workers w))).
  exists (sort_by offer_queue_size offers). split; [|split; [|split; [|split]]].
  - by apply run_get_available_bots.
  - apply sort_by_perm.
  - apply sort_by_ascending.
  - intros q. apply sort_by_stable.
  - rewrite sort_by_perm. unfold offers. apply Forall_forall. intros o Ho.
    apply list_elem_of_fmap in Ho as ([k wk] & -> & Hin).
    apply list_elem_of_filter in Hin as [He _]. cbn [snd] in He.
    unfold eligible in He. apply andb_true_iff in He as [He Hq].
    apply andb_true_iff in He as [_ Hh]. apply bool_decide_eq_true in Hh.
    apply Nat.ltb_lt in Hq. done.
Qed.

Definition sample_worker (ready : bool) (h : HealthStatus.t) (errs : Z) (q : nat)
  : Worker :=
  mkWorker "bot" true ready (Some 40) h 0 errs (Some 0) q 0 0.

Definition sample_fleet : World :=
  mkWorld true 1000
    [("b1", sample_worker true HealthStatus.HEALTHY 0 7);
     ("b2", sample_worker true HealthStatus.UNHEALTHY 25 0);
     ("b3", sample_worker true HealthStatus.DEGRADED 12 3)]
    [] [] [] [].

Lemma available_bots_are_the_eligible_workers_witness :
  ∃ bots,
    get_available_bots_for_guild "g" sample_fleet = (Ok bots, sample_fleet)
    ∧ bots ≡ₚ map offer_of (filter (fun item => eligible item.2 = true)
                              (active_workers sample_fleet))
    ∧ ascending offer_queue_size bots
    ∧ (∀ q, filter (fun o => offer_queue_size o = q) bots
            = filter (fun o => offer_queue_size o = q)
                (map offer_of
                   (filter (fun item => eligible item.2 = true)
                      (active_workers sample_fleet))))
    ∧ Forall (fun o => (offer_queue_size o < 100)%nat
                       ∧ offer_health o ≠ HealthStatus.UNHEALTHY) bots.
Proof.
  apply (available_bots_are_the_eligible_workers "g" sample_fleet).
  repeat constructor; simpl; eauto.
Defined.

(** X23: one ready worker whose latency is not a finite number is enough to
    leave every campaign without bots: its [get_status] raises inside the
    loop, and the manager logs the failure and answers with the empty
    list. *)
Theorem one_bad_latency_hides_every_bot (guild_id : string) (w : World)
    (k : string) (wk : Worker) :
  (k, wk) ∈ active_workers w →
  client_ready wk = true →
  client_latency wk = None →
  get_available_bots_for_guild guild_id w
  = (Ok [], snd (log_error "Failed to get available bots" w)).
Proof.
  intros Hin Hr Hl.
  destruct (collect_fails (active_workers w) k wk Hin Hr Hl []) as [e He].
  unfold get_available_bots_for_guild, try_except, mbind, M_bind, bind, gets.
  rewrite He. unfold raise.
  assert (Hex : is_Exception e = true).
  { clear -He. revert He. generalize (@nil Offer).
    induction (active_workers w) as [|[k' wk'] items IH]; intros acc; cbn [collect];
      [discriminate|].
    unfold get_status, int_latency.
    destruct (client_ready wk'); [destruct (client_latency wk')|].
    - destruct (usable _); apply IH.
    - by intros [= <-].
    - destruct (usable _); apply IH. }
  rewrite Hex. reflexivity.
Qed.

Lemma one_bad_latency_hides_every_bot_witness :
  get_available_bots_for_guild "g"
    (mkWorld true 1000
       [("b1", sample_worker true HealthStatus.HEALTHY 0 7);
        ("b2", mkWorker "bot" true true None HealthStatus.HEALTHY 0 0 None 0 0 0)]
       [] [] [] [])
  = (Ok [],
     snd (log_error "Failed to get available bots"
            (mkWorld true 1000
               [("b1", sample_worker true HealthStatus.HEALTHY 0 7);
                ("b2", mkWorker "bot" true true None HealthStatus.HEALTHY 0 0 None 0 0 0)]
               [] [] [] []))).
Proof.
  apply (one_bad_latency_hides_every_bot "g" _ "b2"
           (mkWorker "bot" true true None HealthStatus.HEALTHY 0 0 None 0 0 0)).
  - simpl. apply list_elem_of_further, list_elem_of_here.
  - reflexivity.
  - reflexivity.
Defined.

(** *** Health *)

Lemma dict_get_set {V} (k : string) (v : V) (d : list (string * V)) :
  dict_get k (dict_set k v d) = Some v.
Proof.
  induction d as [|[k' v'] d IH]; cbn [dict_set dict_get].
  - by rewrite String.eqb_refl.
  - destruct (String.eqb k' k) eqn:E; cbn [dict_get]; rewrite ?String.eqb_refl, ?E; done.
Qed.

Lemma dict_set_set {V} (k : string) (v v' : V) (d : list (string * V)) :
  dict_set k v (dict_set k v' d) = dict_set k v d.
Proof.
  induction d as [|[k' x] d IH]; cbn [dict_set].
  - by rewrite String.eqb_refl.
  - destruct (String.eqb k' k) eqn:E; cbn [dict_set]; rewrite ?String.eqb_refl, ?E;
      [done|by rewrite IH].
Qed.

Lemma dict_get_elem {V} (k : string) (v : V) (d : list (string * V)) :
  dict_get k d = Some v → (k, v) ∈ d.
Proof.
  induction d as [|[k' x] d IH]; cbn [dict_get]; [done|].
  destruct (String.eqb_spec k' k) as [->|]; [intros [= ->]; constructor|].
  intros H. by apply list_elem_of_further, IH.
Qed.

(** In a dict an item is the one its key gives. *)
Lemma dict_elem_get {V} (k : string) (v : V) (d : list (string * V)) :
  NoDup (map fst d) → (k, v) ∈ d → dict_get k d = Some v.
Proof.
  induction d as [|[k' x] d IH]; cbn [map fst dict_get]; intros Hnd Hin.
  - by apply elem_of_nil in Hin.
  - apply NoDup_cons in Hnd as [Hk Hnd].
    apply elem_of_cons in Hin as [[= <- <-]|Hin]; [by rewrite String.eqb_refl|].
    destruct (String.eqb_spec k' k) as [->|]; [|by apply IH].
    destruct Hk. apply list_elem_of_fmap. by exists (k, v).
Qed.

Lemma dict_set_keys {V} (k : string) (v v0 : V) (d : list (string * V)) :
  dict_get k d = Some v0 → map fst (dict_set k v d) = map fst d.
Proof.
  induction d as [|[k' x] d IH]; cbn [dict_get dict_set]; [done|].
  destruct (String.eqb_spec k' k) as [->|]; [done|].
  intros H. cbn [map fst]. by rewrite IH.
Qed.

Lemma dict_set_elem {V} (k k' : string) (v x : V) (d : list (string * V)) :
  (k', x) ∈ dict_set k v d → (k' = k ∧ x = v) ∨ (k', x) ∈ d.
Proof.
  induction d as [|[k0 x0] d IH]; cbn [dict_set].
  - intros H. apply list_elem_of_singleton in H as [= -> ->]. by left.
  - destruct (String.eqb k0 k).
    + intros H. apply elem_of_cons in H as [[= -> ->]|H]; [by left|].
      right. by apply list_elem_of_further.
    + intros H. apply elem_of_cons in H as [[= -> ->]|H]; [right; constructor|].
      destruct (IH H) as [?|?]; [by left|right; by apply list_elem_of_further].
Qed.

(** The worker's own record after [_update_health_status], whatever happens
    at the store: the status and the heartbeat are set before anything can
    fail. *)
Definition with_health (status : HealthStatus.t) (t : Z) (wk : Worker) : Worker :=
  mkWorker (bot_name wk) (is_running wk) (client_ready wk) (client_latency wk)
           status t (errors_last_hour wk) (last_error_reset wk) (queue_size wk)
           (processed_messages wk) (failed_messages wk).

Lemma update_health_status_in_memory (self : string) (status : HealthStatus.t)
    (w : World) (wk : Worker) :
  dict_get self (active_workers w) = Some wk →
  active_workers (snd (_update_health_status self status w))
  = dict_set self (with_health status (utcnow w) wk) (active_workers w)
  ∧ utcnow (snd (_update_health_status self status w)) = utcnow w.
Proof.
  intros Hwk. unfold _update_health_status, try_except, self_worker, put_worker,
    upsert_health, int_latency, with_health.
  unfold mbind, M_bind, bind, get_collection, store_call, gets, modify, raise, log_error,
    mret, M_ret, ret.
  destruct w as [db t ws bh ev h er]. cbn in Hwk |- *. rewrite Hwk. cbn.
  destruct db; cbn; [|split; reflexivity].
  destruct (client_latency wk); cbn; [|split; reflexivity].
  destruct (head_event ev); cbn; try (split; reflexivity).
  all: destruct (list_find _ bh) as [[i d]|]; split; reflexivity.
Qed.

Lemma logged_failure_keeps_workers (body : M World unit) (line : string) (w : World) :
  active_workers (snd (try_except body (fun _ => log_error line) w))
  = active_workers (snd (body w))
  ∧ utcnow (snd (try_except body (fun _ => log_error line) w)) = utcnow (snd (body w)).
Proof.
  unfold try_except. destruct (body w) as [[[]|e|] w1]; cbn [snd]; try done.
  by destruct (is_Exception e).
Qed.

(** The worker's record after a monitor run that finds the client ready and
    no reset due. *)
Lemma health_monitor_in_memory (self : string) (w : World) (wk : Worker) :
  dict_get self (active_workers w) = Some wk →
  client_ready wk = true →
  reset_due (utcnow w) (last_error_reset wk) = false →
  active_workers (snd (health_monitor self w))
  = dict_set self (with_health (status_for (errors_last_hour wk)) (utcnow w) wk)
      (active_workers w)
  ∧ utcnow (snd (health_monitor self w)) = utcnow w.
Proof.
  intros Hwk Hr Hd. unfold health_monitor.
  destruct (logged_failure_keeps_workers
              (wk ← self_worker self;
               if client_ready wk then
                 current_time ← gets utcnow;
                 (if reset_due current_time (last_error_reset wk) then
                    put_worker self
                      (mkWorker (bot_name wk) (is_running wk) (client_ready wk)
                         (client_latency wk) (health_status wk) (last_heartbeat wk) 0
                         (Some current_time) (queue_size wk) (processed_messages wk)
                         (failed_messages wk))
                  else mret tt) ;;
                 wk ← self_worker self;
                 _update_health_status self (status_for (errors_last_hour wk))
               else _update_health_status self HealthStatus.UNHEALTHY)
              "Health monitor error" w) as [-> ->].
  assert (Hself : self_worker self w = (Ok wk, w)) by (unfold self_worker; by rewrite Hwk).
  rewrite (bind_ok _ _ _ _ _ Hself), Hr.
  rewrite (bind_ok (gets utcnow) _ w w (utcnow w) eq_refl), Hd.
  rewrite (bind_ok (mret tt : M World unit) _ w w tt eq_refl).
  rewrite (bind_ok _ _ _ _ _ Hself).
  by apply update_health_status_in_memory.
Qed.

(** X24: the hourly reset of the error counter compares the [seconds]
    attribute of the elapsed time, which leaves whole days out: a monitor
    run that comes [n] days and less than an hour after the last reset keeps
    the counter, and the status is computed from the old count. *)
Theorem error_counter_reset_skips_whole_days (self : string) (w : World)
    (wk : Worker) (t0 n d : Z) :
  dict_get self (active_workers w) = Some wk →
  client_ready wk = true →
  last_error_reset wk = Some t0 →
  0 ≤ n →
  0 ≤ d < 3600000 →
  utcnow w = t0 + 86400000 * n + d →
  ∃ wk',
    dict_get self (active_workers (snd (health_monitor self w))) = Some wk'
    ∧ errors_last_hour wk' = errors_last_hour wk
    ∧ health_status wk' = status_for (errors_last_hour wk)
    ∧ last_error_reset wk' = Some t0.
Proof.
  intros Hwk Hr Hlast Hn Hd Hnow.
  assert (Hdue : reset_due (utcnow w) (last_error_reset wk) = false).
  { rewrite Hlast, Hnow. unfold reset_due.
    replace (t0 + 86400000 * n + d - t0) with (d + n * 86400000) by lia.
    rewrite Z.mod_add by lia. rewrite Z.mod_small by lia.
    apply Z.leb_gt. apply Z.div_lt_upper_bound; lia. }
  destruct (health_monitor_in_memory self w wk Hwk Hr Hdue) as [-> _].
  eexists. split; [apply dict_get_set|]. done.
Qed.

Lemma error_counter_reset_skips_whole_days_witness :
  ∃ wk',
    dict_get "b1"
      (active_workers
         (snd (health_monitor "b1"
                 (mkWorld true (0 + 86400000 * 1 + 600000)
                    [("b1", sample_worker true HealthStatus.HEALTHY 25 0)] [] [] [] []))))
    = Some wk'
    ∧ errors_last_hour wk' = errors_last_hour (sample_worker true HealthStatus.HEALTHY 25 0)
    ∧ health_status wk'
      = status_for (errors_last_hour (sample_worker true HealthStatus.HEALTHY 25 0))
    ∧ last_error_reset wk' = Some 0.
Proof.
  apply (error_counter_reset_skips_whole_days "b1"
           (mkWorld true (0 + 86400000 * 1 + 600000)
              [("b1", sample_worker true HealthStatus.HEALTHY 25 0)] [] [] [] [])
           (sample_worker true HealthStatus.HEALTHY 25 0) 0 1 600000).
  - reflexivity.
  - reflexivity.
  - reflexivity.
  - lia.
  - lia.
  - reflexivity.
Defined.

Lemma on_error_in_memory (self : string) (w : World) (wk : Worker) :
  dict_get self (active_workers w) = Some wk →
  9 ≤ errors_last_hour wk →
  active_workers (snd (on_error self w))
  = dict_set self
      (mkWorker (bot_name wk) (is_running wk) (client_ready wk) (client_latency wk)
                HealthStatus.DEGRADED (utcnow w) (errors_last_hour wk + 1)
                (last_error_reset wk) (queue_size wk) (processed_messages wk)
                (failed_messages wk))
      (active_workers w).
Proof.
  intros Hwk Herr. unfold on_error.
  set (w0 := snd (log_error "Bot worker error in event" w)).
  rewrite (bind_ok (log_error "Bot worker error in event") _ w w0 tt eq_refl).
  assert (Hself : self_worker self w0 = (Ok wk, w0))
    by (unfold self_worker; cbn; by rewrite Hwk).
  rewrite (bind_ok _ _ _ _ _ Hself).
  set (wk1 := mkWorker (bot_name wk) (is_running wk) (client_ready wk) (client_latency wk)
                (health_status wk) (last_heartbeat wk) (errors_last_hour wk + 1)
                (last_error_reset wk) (queue_size wk) (processed_messages wk)
                (failed_messages wk)).
  set (w1 := set_workers (dict_set self wk1 (active_workers w0)) w0).
  rewrite (bind_ok (put_worker self wk1) _ w0 w1 tt eq_refl).
  assert (Hself1 : self_worker self w1 = (Ok wk1, w1)).
  { unfold self_worker. cbn [active_workers w1 set_workers]. by rewrite dict_get_set. }
  rewrite (bind_ok _ _ _ _ _ Hself1).
  destruct (Z.leb_spec 10 (errors_last_hour wk1)) as [_|Hlt]; [|simpl in Hlt; lia].
  destruct (update_health_status_in_memory self HealthStatus.DEGRADED w1 wk1) as [-> _].
  { cbn [active_workers w1 set_workers]. apply dict_get_set. }
  cbn [active_workers w1 set_workers]. by rewrite dict_set_set.
Qed.

Definition offered (g self : string) (w : World) : Prop :=
  ∃ bots, fst (get_available_bots_for_guild g w) = Ok bots
          ∧ self ∈ map offer_bot_id bots.

Lemma latencies_finite_set (self : string) (wk wk' : Worker)
    (items : list (string * Worker)) :
  latencies_finite items →
  dict_get self items = Some wk →
  client_latency wk' = client_latency wk → client_ready wk' = client_ready wk →
  latencies_finite (dict_set self wk' items).
Proof.
  unfold latencies_finite. intros Hall Hget Hl Hr. apply Forall_forall.
  intros [k x] Hin. cbn [snd]. apply dict_set_elem in Hin as [[-> ->]|Hin].
  - rewrite Hl, Hr. apply dict_get_elem in Hget.
    rewrite Forall_forall in Hall. apply (Hall _ Hget).
  - rewrite Forall_forall in Hall. apply (Hall _ Hin).
Qed.

(** X25: a worker that the monitor has just found unhealthy (twenty errors
    or more this hour) is not offered to campaigns; but the next client
    error runs [on_error], which sets the status to DEGRADED for any count
    of ten or more, and the worker is offered again. *)
Theorem unhealthy_worker_returns_after_another_error (g self : string) (w : World)
    (wk : Worker) :
  NoDup (map fst (active_workers w)) →
  latencies_finite (active_workers w) →
  dict_get self (active_workers w) = Some wk →
  client_ready wk = true →
  (queue_size wk < 100)%nat →
  20 ≤ errors_last_hour wk →
  reset_due (utcnow w) (last_error_reset wk) = false →
  let w1 := snd (health_monitor self w) in
  let w2 := snd (on_error self w1) in
  ¬ offered g self w1 ∧ offered g self w2.
Proof.
  intros Hnd Hlat Hwk Hr Hq Herr Hdue w1 w2.
  destruct (health_monitor_in_memory self w wk Hwk Hr Hdue) as [Hws1 Hnow1].
  fold w1 in Hws1, Hnow1.
  set (wk1 := with_health (status_for (errors_last_hour wk)) (utcnow w) wk) in *.
  assert (Hst : health_status wk1 = HealthStatus.UNHEALTHY).
  { unfold wk1, with_health, status_for. cbn [health_status].
    destruct (Z.leb_spec 20 (errors_last_hour wk)); [done|lia]. }
  assert (Hlat1 : latencies_finite (active_workers w1)).
  { rewrite Hws1. by apply (latencies_finite_set self wk). }
  assert (Hget1 : dict_get self (active_workers w1) = Some wk1).
  { rewrite Hws1. apply dict_get_set. }
  assert (Hnd1 : NoDup (map fst (active_workers w1))).
  { rewrite Hws1. by rewrite (dict_set_keys self wk1 wk). }
  split.
  - intros (bots & Hbots & Hin).
    rewrite (run_get_available_bots g w1 Hlat1) in Hbots. injection Hbots as <-.
    rewrite sort_by_perm in Hin.
    apply list_elem_of_fmap in Hin as (o & Ho & Hin).
    apply list_elem_of_fmap in Hin as ([k x] & -> & Hin).
    apply list_elem_of_filter in Hin as [Hel Hin]. cbn in Ho, Hel. subst k.
    rewrite (dict_elem_get _ _ _ Hnd1 Hin) in Hget1. injection Hget1 as ->.
    unfold eligible in Hel. rewrite Hst in Hel.
    rewrite bool_decide_eq_false_2 in Hel by (intros H; by apply H).
    by rewrite andb_false_r in Hel.
  - assert (Hws2 : active_workers w2
                   = dict_set self
                       (mkWorker (bot_name wk1) (is_running wk1) (client_ready wk1)
                          (client_latency wk1) HealthStatus.DEGRADED (utcnow w1)
                          (errors_last_hour wk1 + 1) (last_error_reset wk1)
                          (queue_size wk1) (processed_messages wk1) (failed_messages wk1))
                       (active_workers w1)).
    { apply on_error_in_memory; [done|]. unfold wk1. cbn. lia. }
    set (wk2 := mkWorker _ _ _ _ _ _ _ _ _ _ _) in Hws2.
    assert (Hlat2 : latencies_finite (active_workers w2)).
    { rewrite Hws2. by apply (latencies_finite_set self wk1). }
    eexists. rewrite (run_get_available_bots g w2 Hlat2). split; [done|].
    rewrite sort_by_perm.
    apply list_elem_of_fmap. exists (offer_of (self, wk2)). split; [done|].
    apply list_elem_of_fmap. exists (self, wk2). split; [done|].
    apply list_elem_of_filter. split.
    + cbn [snd]. unfold eligible.
      apply andb_true_iff. split; [apply andb_true_iff; split|].
      * exact Hr.
      * by apply bool_decide_eq_true_2.
      * by apply Nat.ltb_lt.
    + rewrite Hws2. apply dict_get_elem, dict_get_set.
Qed.

Lemma unhealthy_worker_returns_after_another_error_witness :
  let w := mkWorld true 1000 [("b1", sample_worker true HealthStatus.HEALTHY 25 0)]
             [] [] [] [] in
  let w1 := snd (health_monitor "b1" w) in
  let w2 := snd (on_error "b1" w1) in
  ¬ offered "g" "b1" w1 ∧ offered "g" "b1" w2.
Proof.
  intros w.
  apply (unhealthy_worker_returns_after_another_error "g" "b1" w
           (sample_worker true HealthStatus.HEALTHY 25 0)).
  - simpl. repeat constructor. apply not_elem_of_nil.
  - repeat constructor; simpl; eauto.
  - reflexivity.
  - reflexivity.
  - simpl. lia.
  - simpl. lia.
  - reflexivity.
Defined.

End FleetFacts.

(** ** Audience and targets *)

Module AudienceFacts.
Import Audience.

(** *** Who is targeted *)

Definition uncancelled (w : World) : Prop := never_cancelled (events w).

(** [w'] holds the documents of [w]. *)
Definition same_data (w w' : World) : Prop :=
  db_connected w' = db_connected w
  ∧ members w' = members w ∧ whitelist w' = whitelist w ∧ blacklist w' = blacklist w
  ∧ set_order w' = set_order w
  ∧ targets w' = targets w
  ∧ (uncancelled w → uncancelled w')
  ∧ (events w = [] → events w' = []).

Lemma same_data_refl (w : World) : same_data w w.
Proof. unfold same_data. tauto. Qed.

Lemma same_data_trans (w1 w2 w3 : World) :
  same_data w1 w2 → same_data w2 w3 → same_data w1 w3.
Proof.
  intros (Ha&Hb&Hc&Hd&He&Hf&Hg&Hh) (Ha'&Hb'&Hc'&Hd'&He'&Hf'&Hg'&Hh').
  unfold same_data. split_and!; [congruence..|auto|auto].
Qed.

Lemma same_data_consume (w : World) : same_data w (consume_event w).
Proof.
  unfold same_data. split_and!; simpl; try done.
  - unfold uncancelled. simpl. apply never_cancelled_tail.
  - by intros ->.
Qed.

Lemma same_data_log_error (line : string) (w : World) :
  same_data w (snd (log_error line w)).
Proof. unfold same_data. split_and!; done. Qed.

(** How a suspension that is not a cancellation ends. *)
Lemma cursor_next_cases (w : World) :
  uncancelled w →
  cursor_next w = (Ok tt, consume_event w)
  ∨ (events w ≠ [] ∧ cursor_next w = (Exc PyMongoError, consume_event w)).
Proof.
  unfold uncancelled, cursor_next, store_call. cbn [oracle audience_world_suspendable].
  intros Hu. apply never_cancelled_head in Hu.
  destruct (events w) as [|[] es] eqn:E; cbn [head_event] in *; auto; done.
Qed.

Lemma cursor_fold_cases {S} (docs : list Entry) (f : S → Entry → S) :
  ∀ (s : S) (w : World),
    uncancelled w →
    ∃ w', same_data w w'
          ∧ (cursor_fold docs f s w = (Ok (foldl f s docs), w')
             ∨ (events w ≠ [] ∧ cursor_fold docs f s w = (Exc PyMongoError, w'))).
Proof.
  induction docs as [|d docs IH]; intros s w Hu; cbn [cursor_fold foldl].
  - exists (consume_event w). split; [apply same_data_consume|].
    destruct (cursor_next_cases w Hu) as [E|[Hne E]].
    + left. by rewrite (bind_ok _ _ _ _ _ E).
    + right. split; [done|]. by rewrite (bind_exc _ _ _ _ _ E).
  - destruct (cursor_next_cases w Hu) as [E|[Hne E]].
    + pose proof (same_data_consume w) as Hsame.
      destruct (IH (f s d) (consume_event w)) as (w' & Hsame' & Hrun).
      { by apply Hsame. }
      exists w'. split; [by eapply same_data_trans|].
      rewrite (bind_ok _ _ _ _ _ E).
      destruct Hrun as [Hrun|[Hne Hrun]]; [by left|right].
      split; [|done]. intros He. apply Hne. simpl. by rewrite He.
    + exists (consume_event w). split; [apply same_data_consume|].
      right. split; [done|]. by rewrite (bind_exc _ _ _ _ _ E).
Qed.

(** The users of guild [g] listed in a collection. *)
Definition users_of (g : string) (docs : list Entry) : gset string :=
  list_to_set (map user_id (in_guild g docs)).

Lemma fold_add (docs : list Entry) (s : gset string) :
  foldl (fun s d => s ∪ {[user_id d]}) s docs = s ∪ list_to_set (map user_id docs).
Proof.
  revert s. induction docs as [|d docs IH]; intros s; cbn [foldl map list_to_set].
  - by rewrite (right_id_L ∅ (∪)).
  - by rewrite IH, (assoc_L (∪)).
Qed.

Lemma fold_discard (docs : list Entry) (s : gset string) :
  foldl (fun s d => s ∖ {[user_id d]}) s docs = s ∖ list_to_set (map user_id docs).
Proof.
  revert s. induction docs as [|d docs IH]; intros s; cbn [foldl map list_to_set].
  - by rewrite difference_empty_L.
  - by rewrite IH, difference_difference_l_L.
Qed.

(** Members and whitelisted users of the guild, less the blacklisted ones. *)
Definition eligible_users (g : string) (w : World) : gset string :=
  (users_of g (members w) ∪ users_of g (whitelist w)) ∖ users_of g (blacklist w).

Lemma run_audience_collection (w : World) :
  db_connected w = true → (get_collection : M World unit) w = (Ok tt, w).
Proof.
  intros H. unfold get_collection. cbn [connected audience_world_suspendable].
  by rewrite H.
Qed.

(** A call that is not cancelled answers with the eligible users, or with
    nobody when the store failed it. *)
Lemma get_all_members_cases (g : string) (w : World) :
  uncancelled w →
  ∃ w', same_data w w'
        ∧ (_get_all_members g w = (Ok (set_order w (eligible_users g w)), w')
           ∨ ((db_connected w = false ∨ events w ≠ [])
              ∧ _get_all_members g w = (Ok [], w'))).
Proof.
  intros Hu. unfold _get_all_members, try_except.
  destruct (db_connected w) eqn:Hdb.
  2: { exists (snd (log_error "Failed to get all members" w)).
       split; [apply same_data_log_error|]. right. split; [by left|].
       assert (Hgc : (get_collection : M World unit) w = (Exc RuntimeError, w)).
       { unfold get_collection. cbn [connected audience_world_suspendable].
         by rewrite Hdb. }
       by rewrite (bind_exc _ _ _ _ _ Hgc). }
  rewrite !(bind_ok _ _ _ _ _ (run_audience_collection w Hdb)).
  rewrite (bind_ok (gets (fun w => in_guild g (members w))) _ w w _ eq_refl).
  destruct (cursor_fold_cases (in_guild g (members w))
              (fun (s : gset string) member => s ∪ {[user_id member]}) ∅ w Hu)
    as (w1 & Hs1 & [E1|[Hne1 E1]]).
  2: { exists (snd (log_error "Failed to get all members" w1)).
       split; [eapply same_data_trans; [done|apply same_data_log_error]|].
       right. split; [by right|]. by rewrite (bind_exc _ _ _ _ _ E1). }
  rewrite (bind_ok _ _ _ _ _ E1).
  pose proof Hs1 as (Hdb1&Hm1&Hw1&Hb1&Ho1&Ht1&Hu1&He1).
  rewrite (bind_ok (gets (fun w => in_guild g (whitelist w))) _ w1 w1 _ eq_refl).
  destruct (cursor_fold_cases (in_guild g (whitelist w1))
              (fun (s : gset string) whitelist_entry => s ∪ {[user_id whitelist_entry]})
              (foldl (fun (s : gset string) member => s ∪ {[user_id member]}) ∅
                 (in_guild g (members w)))
              w1 (Hu1 Hu))
    as (w2 & Hs2 & [E2|[Hne2 E2]]).
  2: { exists (snd (log_error "Failed to get all members" w2)).
       split; [eapply same_data_trans; [done|];
               eapply same_data_trans; [done|apply same_data_log_error]|].
       right. split; [right; intros He; by apply Hne2, He1|].
       by rewrite (bind_exc _ _ _ _ _ E2). }
  rewrite (bind_ok _ _ _ _ _ E2).
  pose proof Hs2 as (Hdb2&Hm2&Hw2&Hb2&Ho2&Ht2&Hu2&He2).
  rewrite (bind_ok (gets (fun w => in_guild g (blacklist w))) _ w2 w2 _ eq_refl).
  destruct (cursor_fold_cases (in_guild g (blacklist w2))
              (fun (s : gset string) blacklist => s ∖ {[user_id blacklist]})
              (foldl (fun (s : gset string) whitelist_entry =>
                        s ∪ {[user_id whitelist_entry]})
                 (foldl (fun (s : gset string) member => s ∪ {[user_id member]}) ∅
                    (in_guild g (members w)))
                 (in_guild g (whitelist w1)))
              w2 (Hu2 (Hu1 Hu)))
    as (w3 & Hs3 & [E3|[Hne3 E3]]).
  2: { exists (snd (log_error "Failed to get all members" w3)).
       split; [eapply same_data_trans; [done|];
               eapply same_data_trans; [done|];
               eapply same_data_trans; [done|apply same_data_log_error]|].
       right. split; [right; intros He; by apply Hne3, He2, He1|].
       by rewrite (bind_exc _ _ _ _ _ E3). }
  rewrite (bind_ok _ _ _ _ _ E3).
  pose proof Hs3 as (Hdb3&Hm3&Hw3&Hb3&Ho3&Ht3&Hu3&He3).
  exists w3. split.
  { eapply same_data_trans; [done|]. by eapply same_data_trans. }
  left. unfold gets. f_equal. f_equal.
  rewrite Ho3, Ho2, Ho1. f_equal.
  rewrite !fold_add, fold_discard, Hb2, Hb1, Hw1.
  unfold eligible_users, users_of. by rewrite (left_id_L ∅ (∪)).
Qed.

(** X26: whatever fails at the store, nobody on the guild's blacklist is ever
    returned by [_get_all_members], whitelisted or not, and nobody is
    returned who is neither a stored member nor whitelisted, and nobody
    twice; with nothing failing, every member or whitelisted user that is
    not blacklisted is returned. *)
Theorem blacklist_overrides_everything (g : string) (w : World) :
  uncancelled w →
  (∀ s, set_order w s ≡ₚ elements s) →
  ∃ all_members,
    fst (_get_all_members g w) = Ok all_members
    ∧ (∀ u, u ∈ all_members →
            (mkEntry g u ∉ blacklist w)
            ∧ (mkEntry g u ∈ members w ∨ mkEntry g u ∈ whitelist w))
    ∧ NoDup all_members
    ∧ (db_connected w = true → events w = [] →
       ∀ u, (mkEntry g u ∈ members w ∨ mkEntry g u ∈ whitelist w) →
            mkEntry g u ∉ blacklist w → u ∈ all_members).
Proof.
  intros Hu Horder.
  assert (Hin : ∀ u docs, u ∈ users_of g docs ↔ mkEntry g u ∈ docs).
  { intros u docs. unfold users_of, in_guild. rewrite elem_of_list_to_set.
    rewrite list_elem_of_fmap. split.
    - intros ([g' u'] & -> & H). apply list_elem_of_filter in H as [Hg H].
      cbn in Hg. by subst g'.
    - intros H. exists (mkEntry g u). split; [done|]. by apply list_elem_of_filter. }
  assert (Hel : ∀ u, u ∈ eligible_users g w ↔
                     (mkEntry g u ∈ members w ∨ mkEntry g u ∈ whitelist w)
                     ∧ mkEntry g u ∉ blacklist w).
  { intros u. unfold eligible_users.
    rewrite elem_of_difference, elem_of_union, !Hin. done. }
  destruct (get_all_members_cases g w Hu) as (w' & _ & [E|[Hfail E]]); rewrite E;
    cbn [fst].
  - exists (set_order w (eligible_users g w)). split; [done|]. split; [|split].
    + intros u Hu'. rewrite Horder in Hu'. apply elem_of_elements, Hel in Hu'.
      by destruct Hu'.
    + rewrite Horder. apply NoDup_elements.
    + intros _ _ u Hsrc Hnb. rewrite Horder. apply elem_of_elements, Hel. done.
  - exists []. split; [done|]. split; [|split].
    + intros u Hu'. by apply elem_of_nil in Hu'.
    + constructor.
    + intros Hdb Hev. destruct Hfail; congruence.
Qed.

Lemma blacklist_overrides_everything_witness :
  let w := mkWorld true [mkEntry "g" "u1"; mkEntry "g" "u2"] [mkEntry "g" "u3"]
             [mkEntry "g" "u2"; mkEntry "g" "u3"] true [] elements [] [] [] in
  ∃ all_members,
    fst (_get_all_members "g" w) = Ok all_members
    ∧ (∀ u, u ∈ all_members →
            (mkEntry "g" u ∉ blacklist w)
            ∧ (mkEntry "g" u ∈ members w ∨ mkEntry "g" u ∈ whitelist w))
    ∧ NoDup all_members
    ∧ (db_connected w = true → events w = [] →
       ∀ u, (mkEntry "g" u ∈ members w ∨ mkEntry "g" u ∈ whitelist w) →
            mkEntry "g" u ∉ blacklist w → u ∈ all_members).
Proof.
  intros w. apply (blacklist_overrides_everything "g" w).
  - unfold uncancelled. simpl. split; apply not_elem_of_nil.
  - reflexivity.
Defined.

(** In that run [u1] is a member, [u2] a blacklisted member and [u3] on both
    lists: only [u1] is returned. *)
Example audience_sample :
  fst (_get_all_members "g"
         (mkWorld true [mkEntry "g" "u1"; mkEntry "g" "u2"] [mkEntry "g" "u3"]
            [mkEntry "g" "u2"; mkEntry "g" "u3"] true [] elements [] [] []))
  = Ok ["u1"].
Proof. vm_compute. reflexivity. Qed.

(** *** Which bot gets which target *)

(** The target written for the member at position [i]. *)
Definition target_for (campaign_id : string) (available_bots : list Assignment.Bot)
    (i : nat) (user_id : string) : option Dispatch.CampaignTarget :=
  bot ← available_bots !! (i `mod` length available_bots)%nat;
  Some (Dispatch.mkTarget campaign_id user_id (Some (Assignment.bot_id bot))
          TargetStatus.PENDING 0 None None).

Lemma build_targets_spec (cid : string) (bots : list Assignment.Bot) (members : list string) :
  bots ≠ [] →
  ∀ i, ∃ ts,
    build_targets cid bots i members = inr ts
    ∧ map Dispatch.user_id ts = members
    ∧ Forall (fun t => Dispatch.campaign_id t = cid
                       ∧ Dispatch.target_status t = TargetStatus.PENDING) ts
    ∧ (∀ j u, members !! j = Some u → ts !! j = target_for cid bots (i + j) u)
    ∧ (∀ j t, ts !! j = Some t →
              ∃ b, bots !! ((i + j) `mod` length bots)%nat = Some b
                   ∧ Dispatch.assigned_bot_id t = Some (Assignment.bot_id b)).
Proof.
  intros Hne. assert (Hn : (0 < length bots)%nat) by (destruct bots; [done|simpl; lia]).
  induction members as [|u rest IH]; intros i; cbn [build_targets].
  - exists []. split; [done|]. split; [done|]. split; [constructor|]. split; intros j ? Hj; by destruct j.
  - destruct (Nat.eqb_spec (length bots) 0) as [|_]; [lia|].
    assert (Hlt : (i `mod` length bots < length bots)%nat) by (apply Nat.mod_upper_bound; lia).
    destruct (lookup_lt_is_Some_2 bots _ Hlt) as [b Hb].
    unfold PyStr.index. rewrite Hb.
    destruct (IH (S i)) as (ts & -> & Hmap & Hall & Hts & Hbot).
    eexists. split; [reflexivity|]. split; [simpl; by rewrite Hmap|].
    split; [by constructor|]. split.
    + intros [|j] u' Hj; simplify_eq/=.
      * unfold target_for. rewrite Nat.add_0_r, Hb. done.
      * rewrite (Hts j u' Hj). f_equal. lia.
    + intros [|j] t Hj; simplify_eq/=.
      * exists b. by rewrite Nat.add_0_r.
      * destruct (Hbot j t Hj) as (b' & Hb' & Ht). exists b'.
        replace (i + S j)%nat with (S i + j)%nat by lia. done.
Qed.

(** Targets of the list handed to bot [b]. *)
Definition share (b : string) (ts : list Dispatch.CampaignTarget) : nat :=
  length (filter (fun t => Dispatch.assigned_bot_id t = Some b) ts).

(** Positions below [m] that fall on slot [k] of [n]. *)
Definition turns (n k m : nat) : nat :=
  length (filter (fun i => (i `mod` n)%nat = k) (seq 0 m)).

Lemma turns_formula (n k m : nat) :
  (k < n)%nat →
  turns n k m = (m `div` n + if (k <? m `mod` n)%nat then 1 else 0)%nat.
Proof.
  intros Hk. unfold turns. induction m as [|m IH].
  - simpl. rewrite Nat.Div0.div_0_l, Nat.Div0.mod_0_l.
    destruct (Nat.ltb_spec k 0); lia.
  - rewrite seq_S, filter_app, length_app, IH. cbn [plus].
    rewrite filter_cons, filter_nil.
    assert (Hn : n ≠ 0%nat) by lia.
    pose proof (Nat.div_mod_eq m n) as Hm.
    pose proof (Nat.mod_upper_bound m n Hn) as Hr.
    destruct (decide (S (m `mod` n) = n)) as [Hwrap|Hno].
    + assert (HS : S m = ((m `div` n + 1) * n + 0)%nat) by nia.
      assert (Hd : (S m `div` n = m `div` n + 1)%nat).
      { rewrite HS at 1. rewrite Nat.div_add_l by lia. rewrite Nat.Div0.div_0_l. lia. }
      assert (Hmd : (S m `mod` n = 0)%nat).
      { rewrite HS at 1. rewrite Nat.add_comm, Nat.Div0.mod_add.
        apply Nat.Div0.mod_0_l. }
      rewrite Hd, Hmd.
      destruct (decide ((m `mod` n)%nat = k)); destruct (Nat.ltb_spec k (m `mod` n));
        destruct (Nat.ltb_spec k 0); cbn [length]; lia.
    + assert (HS : S m = (m `div` n * n + S (m `mod` n))%nat) by nia.
      assert (Hd : (S m `div` n = m `div` n)%nat).
      { rewrite HS at 1. rewrite Nat.div_add_l by lia.
        rewrite (Nat.div_small (S (m `mod` n))) by lia. lia. }
      assert (Hmd : (S m `mod` n = S (m `mod` n))%nat).
      { rewrite HS at 1. rewrite Nat.add_comm, Nat.Div0.mod_add.
        apply Nat.mod_small. lia. }
      rewrite Hd, Hmd.
      destruct (decide ((m `mod` n)%nat = k)); destruct (Nat.ltb_spec k (m `mod` n));
        destruct (Nat.ltb_spec k (S (m `mod` n))); cbn [length]; lia.
Qed.

Lemma count_by_position {A} (P : A → Prop) `{∀ x, Decision (P x)}
    (Q : nat → Prop) `{∀ i, Decision (Q i)} (l : list A) :
  (∀ j x, l !! j = Some x → (P x ↔ Q j)) →
  length (filter P l) = length (filter Q (seq 0 (length l))).
Proof.
  induction l as [|x l IH] using rev_ind; intros Hpq; [done|].
  rewrite length_app. cbn [length]. rewrite Nat.add_1_r, seq_S, !filter_app, !length_app.
  rewrite IH.
  - f_equal. rewrite !filter_cons, !filter_nil. cbn [plus].
    assert (Hx : P x ↔ Q (length l)).
    { apply Hpq. rewrite lookup_app_r by lia. by rewrite Nat.sub_diag. }
    destruct (decide (P x)), (decide (Q (length l))); tauto || done.
  - intros j y Hj. apply Hpq. rewrite lookup_app_l; [done|]. by eapply lookup_lt_Some.
Qed.

Lemma share_of_slot (cid : string) (bots : list Assignment.Bot) (members : list string)
    (ts : list Dispatch.CampaignTarget) (k : nat) (b : Assignment.Bot) :
  build_targets cid bots 0 members = inr ts →
  NoDup (map Assignment.bot_id bots) →
  bots !! k = Some b →
  share (Assignment.bot_id b) ts = turns (length bots) k (length members).
Proof.
  intros Hbuild Hnd Hk.
  assert (Hne : bots ≠ []) by (intros ->; done).
  destruct (build_targets_spec cid bots members Hne 0)
    as (ts' & Hbuild' & Hmap & _ & _ & Hbot).
  rewrite Hbuild in Hbuild'. injection Hbuild' as <-.
  assert (Hlen : length ts = length members) by (by rewrite <- Hmap, length_map).
  unfold share, turns. rewrite <- Hlen. apply count_by_position.
  intros j t Hj. destruct (Hbot j t Hj) as (b' & Hb' & ->). cbn [plus] in Hb'.
  split.
  - intros [= Hid].
    eapply (NoDup_lookup (map Assignment.bot_id bots)); [done| |].
    + rewrite list_lookup_fmap, Hb'. cbn. by rewrite Hid.
    + by rewrite list_lookup_fmap, Hk.
  - intros Hjk. rewrite Hjk, Hk in Hb'. by injection Hb' as <-.
Qed.

Lemma insert_many_loop_ok (uniq : bool) (todo stored : list Dispatch.CampaignTarget) :
  (uniq = true →
   NoDup (map (fun t => (Dispatch.campaign_id t, Dispatch.user_id t)) (stored ++ todo))) →
  insert_many_loop uniq stored todo = (Ok tt, stored ++ todo).
Proof.
  revert stored. induction todo as [|t todo IH]; intros stored Hnd;
    cbn [insert_many_loop].
  - by rewrite app_nil_r.
  - assert (Hno : uniq && existsb (same_target t) stored = false).
    { destruct uniq; [|done]. cbn [andb]. apply not_true_is_false. intros Hex.
      apply existsb_exists in Hex as (s & Hin & Hk). apply list_elem_of_In in Hin.
      specialize (Hnd eq_refl). rewrite map_app in Hnd.
      apply NoDup_app in Hnd as (_ & Hdis & _).
      apply (Hdis (Dispatch.campaign_id s, Dispatch.user_id s)).
      - apply list_elem_of_fmap. by exists s.
      - unfold same_target in Hk. apply andb_true_iff in Hk as [Hc Hu].
        apply String.eqb_eq in Hc, Hu. rewrite <- Hc, <- Hu. cbn [map]. constructor. }
    rewrite Hno, IH; [by rewrite <- app_assoc|].
    intros Hu. rewrite <- app_assoc. by apply Hnd.
Qed.

(** X27: with nothing failing, every member gets one pending target, in the
    order of the list, the member at position [j] with the bot at position
    [j mod n] of the [n] available bots; all of them are stored after the
    targets already there. The deal is even: when the bots have distinct
    ids, no bot gets more than one target more than any other. *)
Theorem targets_are_dealt_round_robin (campaign_id : string) (members : list string)
    (available_bots : list Assignment.Bot) (w : World) :
  db_connected w = true →
  events w = [] →
  available_bots ≠ [] →
  (unique_targets w = true →
   NoDup members
   ∧ Forall (fun t => Dispatch.campaign_id t ≠ campaign_id) (targets w)
   ∧ NoDup (map (fun t => (Dispatch.campaign_id t, Dispatch.user_id t)) (targets w))) →
  ∃ ts w',
    _create_campaign_targets campaign_id members available_bots w = (Ok ts, w')
    ∧ targets w' = targets w ++ ts
    ∧ map Dispatch.user_id ts = members
    ∧ Forall (fun t => Dispatch.campaign_id t = campaign_id
                       ∧ Dispatch.target_status t = TargetStatus.PENDING) ts
    ∧ (∀ j u, members !! j = Some u →
              ts !! j = target_for campaign_id available_bots j u)
    ∧ (NoDup (map Assignment.bot_id available_bots) →
       ∀ b b', b ∈ available_bots → b' ∈ available_bots →
               (share (Assignment.bot_id b) ts
                ≤ share (Assignment.bot_id b') ts + 1)%nat).
Proof.
  intros Hdb Hev Hne Huniq.
  destruct (build_targets_spec campaign_id available_bots members Hne 0)
    as (ts & Hbuild & Hmap & Hall & Hts & Hbot).
  assert (Hins : ts ≠ [] →
                 insert_many ts w = (Ok tt, set_targets (targets w ++ ts) (consume_event w))).
  { intros _. unfold insert_many, store_call. cbn [oracle audience_world_suspendable].
    rewrite Hev. cbn [head_event].
    cbn [unique_targets targets consume_event audience_world_suspendable].
    rewrite insert_many_loop_ok; [done|]. intros Hu.
    destruct (Huniq Hu) as (Hnd & Hother & Hold).
    rewrite map_app. apply NoDup_app. split; [done|]. split.
    - intros [c u] Hin1 Hin2.
      apply list_elem_of_fmap in Hin1 as (t1 & [= -> ->] & Hin1).
      apply list_elem_of_fmap in Hin2 as (t2 & [= Hc _] & Hin2).
      rewrite Forall_forall in Hother, Hall.
      destruct (Hall t2 Hin2) as [Hc2 _]. apply (Hother t1 Hin1). congruence.
    - assert (Hkeys : map (fun t => (Dispatch.campaign_id t, Dispatch.user_id t)) ts
                      = map (fun u => (campaign_id, u)) members).
      { rewrite <- Hmap, map_map. apply map_ext_Forall.
        eapply Forall_impl; [exact Hall|]. intros t [-> _]. done. }
      rewrite Hkeys. apply NoDup_fmap_2; [|done]. by intros ?? [= ->]. }
  exists ts, (match ts with [] => w | _ => set_targets (targets w ++ ts) (consume_event w) end).
  split; [|split; [|split; [done|split; [done|split; [done|]]]]].
  - unfold _create_campaign_targets, try_except.
    rewrite (bind_ok _ _ _ _ _ (run_audience_collection w Hdb)). rewrite Hbuild.
    destruct ts as [|t ts'].
    + by rewrite (bind_ok (mret tt : M World unit) _ w w tt eq_refl).
    + by rewrite (bind_ok _ _ _ _ _ (Hins ltac:(done))).
  - destruct ts; [by rewrite app_nil_r|done].
  - intros Hnd b b' Hb Hb'.
    apply list_elem_of_lookup in Hb as [k Hk], Hb' as [k' Hk'].
    rewrite (share_of_slot campaign_id available_bots members ts k b Hbuild Hnd Hk).
    rewrite (share_of_slot campaign_id available_bots members ts k' b' Hbuild Hnd Hk').
    rewrite !turns_formula by (by eapply lookup_lt_Some).
    do 2 destruct (_ <? _)%nat; lia.
Qed.

Lemma targets_are_dealt_round_robin_witness :
  let bots := [Assignment.mkBot "b1" "one" 0; Assignment.mkBot "b2" "two" 3] in
  let w := mkWorld true [] [] [] true [] elements [] [] [] in
  ∃ ts w',
    _create_campaign_targets "c1" ["u1"; "u2"; "u3"] bots w = (Ok ts, w')
    ∧ targets w' = targets w ++ ts
    ∧ map Dispatch.user_id ts = ["u1"; "u2"; "u3"]
    ∧ Forall (fun t => Dispatch.campaign_id t = "c1"
                       ∧ Dispatch.target_status t = TargetStatus.PENDING) ts
    ∧ (∀ j u, ["u1"; "u2"; "u3"] !! j = Some u → ts !! j = target_for "c1" bots j u)
    ∧ (NoDup (map Assignment.bot_id bots) →
       ∀ b b', b ∈ bots → b' ∈ bots →
               (share (Assignment.bot_id b) ts
                ≤ share (Assignment.bot_id b') ts + 1)%nat).
Proof.
  intros bots w.
  apply (targets_are_dealt_round_robin "c1" ["u1"; "u2"; "u3"] bots w).
  - reflexivity.
  - reflexivity.
  - discriminate.
  - intros _. simpl. split; [|split; constructor].
    repeat constructor; rewrite ?not_elem_of_cons; rewrite ?elem_of_nil; naive_solver.
Defined.

(** X28: with no bot to deal to, the first member already fails the loop
    ([i % 0]), or the store is not connected and the call fails before
    that: either way one error is logged and swallowed, the call answers
    with the empty list and stores nothing. *)
Theorem no_bots_no_targets (campaign_id : string) (u : string) (rest : list string)
    (w : World) :
  _create_campaign_targets campaign_id (u :: rest) [] w
  = (Ok [], snd (log_error "Failed to create campaign targets" w)).
Proof.
  unfold _create_campaign_targets, try_except, mbind, M_bind, bind, get_collection.
  cbn [connected audience_world_suspendable]. by destruct (db_connected w).
Qed.

End AudienceFacts.

Module UtilsFacts.
Import Utils.

(** X29: the recommended number of bots lies between 1 and 20, never shrinks
    as the guild grows, and does not depend on the requested rate. Below
    1000 members it gives every bot at most 50 of them; from 950 members on
    it is 20, so beyond 1000 members a bot's share exceeds 50. *)
Theorem optimal_bot_count_is_capped (member_count rate : Z) :
  1 ≤ get_optimal_bot_count member_count rate ≤ 20
  ∧ (∀ rate', get_optimal_bot_count member_count rate'
              = get_optimal_bot_count member_count rate)
  ∧ (∀ more, member_count ≤ more →
             get_optimal_bot_count member_count rate ≤ get_optimal_bot_count more rate)
  ∧ (member_count < 1000 →
     member_count ≤ 50 * get_optimal_bot_count member_count rate)
  ∧ (950 ≤ member_count → get_optimal_bot_count member_count rate = 20)
  ∧ (1000 < member_count →
     50 * get_optimal_bot_count member_count rate < member_count).
Proof.
  unfold get_optimal_bot_count. cbn zeta.
  split; [destruct (Z.leb_spec member_count 50); lia|].
  split; [done|]. split; [|split; [|split]].
  - intros more Hle.
    destruct (Z.leb_spec member_count 50), (Z.leb_spec more 50); try lia.
    assert (member_count / 50 ≤ more / 50) by (apply Z.div_le_mono; lia). lia.
  - intros Hlt. destruct (Z.leb_spec member_count 50); [lia|].
    pose proof (Z.mul_succ_div_gt member_count 50 ltac:(lia)).
    assert (member_count / 50 < 20) by (apply Z.div_lt_upper_bound; lia). lia.
  - intros Hge. destruct (Z.leb_spec member_count 50); [lia|].
    assert (19 ≤ member_count / 50) by (apply Z.div_le_lower_bound; lia). lia.
  - intros Hgt. destruct (Z.leb_spec member_count 50); lia.
Qed.

End UtilsFacts.
